(** * Draw passes and the BMesh id map: a shallow embedding

    This development models two headers of the repository:

    - [source/blender/draw/intern/draw_pass.hh]: the pass recording API
      ([SubPassVector], [PassBase], [Pass], [PassSortable]);
    - [source/blender/bmesh/intern/bmesh_idmap.h]: the inline functions of
      the id map ([BM_idmap_lookup], [BM_idmap_on_elem_moved]).

    C++ references into shared storage are modelled by explicit paths
    (a [PassRef] is either the root pass or an index into the shared
    sub-pass container); out-of-bounds reads are modelled by [None]. *)

From Stdlib Require Import ZArith List Lia Bool Ascii String.
From Stdlib Require Import Floats.SpecFloat.
From stdpp Require Import base tactics option list numbers strings sorting gmap.

Local Open Scope Z_scope.

(** ** BLI vectors indexed by [int64_t] *)

(** [Vector::operator[]] with a signed index: a negative or too large index
    is out of bounds. *)
Definition vec_at {A : Type} (l : list A) (index : Z) : option A :=
  if bool_decide (index < 0) then None else l !! Z.to_nat index.

(** [Vector::size()]. *)
Definition vec_size {A : Type} (l : list A) : Z := Z.of_nat (length l).

(** C pointers are addresses; [NULL] is address 0. *)
Definition ptr := Z.
Definition NULL : ptr := 0.

(** A C array write [a[i] = x]: outside the allocation it is undefined. *)
Definition vec_set {A : Type} (l : list A) (index : Z) (x : A) : option (list A) :=
  if bool_decide (0 ≤ index < vec_size l)
  then Some (<[Z.to_nat index := x]> l) else None.

(** ** detail::SubPassVector *)

Module SubPassVector.

Section Container.
Context {T : Type}.
(** Template parameter: number of elements allocated together. *)
Variable block_size : Z.

(** [blocks_]: a vector of separately allocated blocks. *)
Record t := Build { blocks_ : list (list T) }.

Definition clear (v : t) : t := Build [].

(** [append_and_get_index]: open a new block when there is none or the
    last one holds [block_size] elements, append to the last block and
    return the position inside it plus the offset of that block. *)
Definition append_and_get_index (v : t) (elem : T) : t * Z :=
  let blocks :=
    match last (blocks_ v) with
    | None => blocks_ v ++ [[]]
    | Some b =>
        if bool_decide (vec_size b = block_size)
        then blocks_ v ++ [[]] else blocks_ v
    end in
  let inner := default 0 (vec_size <$> last blocks) in
  (Build (alter (λ b, b ++ [elem]) (pred (length blocks)) blocks),
   inner + (vec_size blocks - 1) * block_size).

(** [operator[]]: C++ division and remainder truncate toward zero. *)
Definition at_ (v : t) (index : Z) : option T :=
  b ← vec_at (blocks_ v) (Z.quot index block_size);
  vec_at b (Z.rem index block_size).

(** Assignment through the reference [operator[]] returns. *)
Definition update (v : t) (index : Z) (x : T) : option t :=
  b ← vec_at (blocks_ v) (Z.quot index block_size);
  b' ← vec_set b (Z.rem index block_size) x;
  blocks ← vec_set (blocks_ v) (Z.quot index block_size) b';
  Some (Build blocks).

(** The elements in index order. *)
Definition elements (v : t) : list T := concat (blocks_ v).

Definition size (v : t) : Z := vec_size (elements v).

(** Append a sequence of elements, collecting the returned indices. *)
Fixpoint append_all (v : t) (elems : list T) : t * list Z :=
  match elems with
  | [] => (v, [])
  | e :: rest =>
      let '(v1, i) := append_and_get_index v e in
      let '(v2, indices) := append_all v1 rest in
      (v2, i :: indices)
  end.

(** Shape of the block list: every block but the last is full, and the
    last one holds between 1 and [block_size] elements. *)
Definition shaped (v : t) : Prop :=
  blocks_ v = [] ∨
  ∃ full lastb,
    blocks_ v = full ++ [lastb] ∧
    Forall (λ b, vec_size b = block_size) full ∧
    1 ≤ vec_size lastb ≤ block_size.

End Container.

Arguments t : clear implicits.

End SubPassVector.

(** ** bmesh_idmap.h *)

Module bmesh_idmap.

Definition BM_ID_NONE : Z := 0.

(** The part of a mesh element the id map reads: its header type and the
    integers of its custom-data block, by byte offset. *)
Record BMElem := {
  htype : Z;
  cd_int : Z → Z;
}.

(** The element storage of the mesh: which addresses hold an element. *)
Definition BMesh := ptr → option BMElem.

Record BMIdMap := {
  flag : Z;
  maxid : Z;
  cd_id_off : list Z;
  bm : ptr;
  (** [map]: the dense array, as allocated. *)
  map : list ptr;
  map_size : Z;
  freelist : list Z;
  free_idx_map : option (gmap Z Z);
}.

(** Modelled from the spec: the macro [BM_ELEM_CD_GET_INT] of the bmesh
    headers, which reads the integer an object stores in its own
    custom-data block (objects own their id field). *)
Definition BM_ELEM_CD_GET_INT (elem : BMElem) (offset : Z) : Z :=
  cd_int elem offset.

(** [BM_idmap_get_id]: dereferences [elem] and indexes [cd_id_off] by the
    element type. *)
Definition BM_idmap_get_id (mesh : BMesh) (idmap : BMIdMap) (elem : ptr) : option Z :=
  e ← mesh elem;
  off ← vec_at (cd_id_off idmap) (htype e);
  Some (BM_ELEM_CD_GET_INT e off).

(** [BM_idmap_lookup]: [elem >= 0 ? map->map[elem] : NULL].  The result is
    [None] when the array read is outside the allocation. *)
Definition BM_idmap_lookup (idmap : BMIdMap) (elem : Z) : option ptr :=
  if bool_decide (0 ≤ elem) then vec_at (map idmap) elem else Some NULL.

(** [BM_idmap_on_elem_moved].  The first conditional has an empty body
    (its [printf] is commented out) and its short-circuit evaluation reads
    [map->map[id]] only for an [id] inside [0, map_size). *)
Definition BM_idmap_on_elem_moved (mesh : BMesh) (idmap : BMIdMap)
    (old_elem new_elem : ptr) : option BMIdMap :=
  id ← BM_idmap_get_id mesh idmap new_elem;
  if bool_decide (0 ≤ id) && bool_decide (id < map_size idmap) then
    map' ← vec_set (map idmap) id new_elem;
    Some {| flag := flag idmap; maxid := maxid idmap;
            cd_id_off := cd_id_off idmap; bm := bm idmap;
            map := map'; map_size := map_size idmap;
            freelist := freelist idmap;
            free_idx_map := free_idx_map idmap |}
  else Some idmap.

(** The dense array is allocated with [map_size] entries. *)
Definition allocated (idmap : BMIdMap) : Prop :=
  vec_size (map idmap) = map_size idmap.

End bmesh_idmap.

(** ** Scalars *)

(** C [float]: IEEE 754 values, compared with the IEEE predicates. *)
Definition float := spec_float.

(** [uint(x)]: conversion of a 64-bit index to a 32-bit unsigned. *)
Definition uint (x : Z) : Z := x mod 2 ^ 32.

(** [(uint)-1], the default of the optional [uint] arguments. *)
Definition uint_minus_1 : Z := 2 ^ 32 - 1.

(** [BLI_assert]: aborts in a debug build, compiled out otherwise.  [ndebug]
    tells which build is modelled. *)
Definition BLI_assert (ndebug : bool) (cond : bool) : option unit :=
  if ndebug || cond then Some () else None.

(** [Vector::append_and_get_index]. *)
Definition Vector_append_and_get_index {A} (l : list A) (x : A) : list A * Z :=
  (l ++ [x], vec_size l).

(** ** draw_command.hh *)

(** Modelled from the spec: the header [draw_command.hh] is not part of the
    sources.  The command kinds are the cases of the [switch] statements
    of [PassBase::submit] and [PassBase::serialize]; the payload of each
    kind holds the values the recording functions of [draw_pass.hh] store
    into it. *)
Module command.

Inductive Type_ :=
  | None_ | SubPass | ShaderBind | ResourceBind | PushConstant | Draw
  | DrawMulti | DrawIndirect | Dispatch | DispatchIndirect | Barrier
  | Clear | StateSet | StencilSet.

Global Instance Type_eq_dec : EqDecision Type_.
Proof. solve_decision. Defined.

Record Header := { type : Type_; index : Z }.

Global Instance Header_eq_dec : EqDecision Header.
Proof. solve_decision. Defined.

Inductive ResourceKind := Sampler | Image | UniformBuf | StorageBuf.

Inductive PushConstantType := IntValue | FloatValue | IntReference | FloatReference.

(** The value stored in a push constant: inline integers, inline floats or
    a pointer for the reference versions. *)
Inductive PushConstantValue :=
  | ints (v : list Z)
  | floats (v : list float)
  | reference (p : ptr).

Record PushConstantCmd := {
  location : Z;
  array_len : Z;
  comp_len : Z;
  pc_type : PushConstantType;
  value : PushConstantValue;
}.

(** Modelled from the spec: [union Undetermined] of [draw_command.hh], one
    storage slot of [commands_].  A slot is uninitialized, holds the
    member last assigned to it, or holds data that ran over from the slot
    before it. *)
Inductive Undetermined :=
  | uninitialized
  | shader_bind (shader : ptr)
  | resource_bind (slot : Z) (is_reference : bool) (kind : ResourceKind)
      (resource : ptr) (sampler : Z)
  | push_constant (cmd : PushConstantCmd)
  | draw (batch : ptr) (instance_len vertex_len vertex_first : Z) (handle : Z)
  | draw_multi (batch : ptr) (group_first : Z) (uuid : Z)
  | draw_indirect (batch : ptr) (indirect_buf : ptr) (handle : Z)
  | dispatch (is_reference : bool) (size : Z * Z * Z) (size_ref : ptr)
  | dispatch_indirect (indirect_buf : ptr)
  | barrier (type : Z)
  | clear (planes stencil : Z) (depth : float) (color : list float)
  | state_set (state : Z)
  | stencil_set (write_mask reference compare_mask : Z)
  | storage (data : list float).

(** Modelled from the spec: the layout of [Undetermined] and
    [PushConstant], declared in [draw_command.hh], by which three
    consecutive slots hold one contiguous 64-byte block from the value of
    the first on.  A slot of 24 bytes holds 6 floats; the value union of a
    [PushConstant] starts 2 floats into the slot, after the 8 bytes of
    [location], [array_len], [comp_len] and [type]: 4 + 6 + 6 floats. *)
Definition Undetermined_floats : nat := 6.
Definition PushConstant_value_offset : nat := 2.

End command.

(** ** External collaborators of the pass *)

(** Shader reflection: binding names are resolved against a shader. *)
Class ShaderInterface := {
  GPU_shader_get_uniform : ptr → string → Z;
  GPU_shader_get_ssbo : ptr → string → Z;
  GPU_shader_get_uniform_block_binding : ptr → string → Z;
  GPU_shader_get_texture_binding : ptr → string → Z;
}.

(** The template parameter [DrawCommandBufType]: the buffer draw calls are
    recorded through.  [append_draw] receives [headers_] and [commands_]
    by reference. *)
Class DrawCommandBufType (B : Type) := {
  buf_clear : B → B;
  append_draw :
    B → list command.Header → list command.Undetermined →
    ptr → Z → Z → Z → Z →
    B * list command.Header * list command.Undetermined;
}.

(** Procedural batches of the draw cache, and the constants of the GPU
    module the pass mentions. *)
Class DrawCache := {
  drw_cache_procedural_points_get : ptr;
  drw_cache_procedural_lines_get : ptr;
  drw_cache_procedural_triangles_get : ptr;
  drw_cache_procedural_triangle_strips_get : ptr;
  GPU_SAMPLER_MAX : Z;
  GPU_COLOR_BIT : Z;
  GPU_DEPTH_BIT : Z;
  GPU_STENCIL_BIT : Z;
}.

Inductive GPUPrimType :=
  | GPU_PRIM_POINTS | GPU_PRIM_LINES | GPU_PRIM_TRIS | GPU_PRIM_TRI_STRIP
  | GPU_PRIM_OTHER (code : Z).

(** ** detail::PassBase *)

(** The members of a [PassBase].  The two reference members
    ([draw_commands_buf_], [sub_passes_]) point into the root pass and are
    represented by the root itself, see [Pass]. *)
Record PassBase := {
  headers_ : list command.Header;
  commands_ : list command.Undetermined;
  shader_ : ptr;
  debug_name : string;
}.

(** The constructor: empty streams, the given shader. *)
Definition PassBase_new (name : string) (shader : ptr) : PassBase :=
  {| headers_ := []; commands_ := []; shader_ := shader; debug_name := name |}.

Section PassBaseLocal.
Context `{ShaderInterface} `{DrawCache}.
Variable ndebug : bool.

Import command.

(** [create_command]: appends an empty slot and a header of the given type;
    the returned reference [commands_[index]] is the 64-bit index. *)
Definition create_command (type : Type_) (self : PassBase) : PassBase * Z :=
  let '(commands, index) := Vector_append_and_get_index (commands_ self) uninitialized in
  ({| headers_ := headers_ self ++ [{| type := type; index := uint index |}];
      commands_ := commands;
      shader_ := shader_ self;
      debug_name := debug_name self |},
   index).

(** Assignment through the reference returned by [create_command]. *)
Definition assign (ref : Z) (cmd : Undetermined) (self : PassBase) : option PassBase :=
  commands ← vec_set (commands_ self) ref cmd;
  Some {| headers_ := headers_ self; commands_ := commands;
          shader_ := shader_ self; debug_name := debug_name self |}.

(** [create_command(type).member = value]. *)
Definition record_command (type : Type_) (cmd : Undetermined) (self : PassBase)
    : option PassBase :=
  let '(self, ref) := create_command type self in assign ref cmd self.

Definition pass_clear (planes : Z) (color : list float) (depth : float)
    (stencil : Z) (self : PassBase) : option PassBase :=
  record_command Clear (clear (planes mod 256) stencil depth color) self.

Definition procedural_batch_get (primitive : GPUPrimType) : option ptr :=
  match primitive with
  | GPU_PRIM_POINTS => Some drw_cache_procedural_points_get
  | GPU_PRIM_LINES => Some drw_cache_procedural_lines_get
  | GPU_PRIM_TRIS => Some drw_cache_procedural_triangles_get
  | GPU_PRIM_TRI_STRIP => Some drw_cache_procedural_triangle_strips_get
  | GPU_PRIM_OTHER _ => _ ← BLI_assert ndebug false; Some NULL
  end.

(** *** Indirect draw calls *)

Definition draw_indirect (batch indirect_buffer : ptr) (handle : Z)
    (self : PassBase) : option PassBase :=
  _ ← BLI_assert ndebug (bool_decide (shader_ self ≠ NULL));
  record_command DrawIndirect (command.draw_indirect batch indirect_buffer handle) self.

Definition draw_procedural_indirect (primitive : GPUPrimType)
    (indirect_buffer : ptr) (handle : Z) (self : PassBase) : option PassBase :=
  batch ← procedural_batch_get primitive;
  draw_indirect batch indirect_buffer handle self.

(** *** Compute dispatch *)

Definition dispatch (group_len : Z * Z * Z) (self : PassBase) : option PassBase :=
  _ ← BLI_assert ndebug (bool_decide (shader_ self ≠ NULL));
  record_command Dispatch (command.dispatch false group_len NULL) self.

Definition dispatch_ref (group_len : ptr) (self : PassBase) : option PassBase :=
  _ ← BLI_assert ndebug (bool_decide (shader_ self ≠ NULL));
  record_command Dispatch (command.dispatch true (0, 0, 0) group_len) self.

Definition dispatch_indirect (indirect_buffer : ptr) (self : PassBase)
    : option PassBase :=
  _ ← BLI_assert ndebug (bool_decide (shader_ self ≠ NULL));
  record_command DispatchIndirect (command.dispatch_indirect indirect_buffer) self.

(** *** Clear *)

Definition float4_zero : list float := replicate 4 (S754_zero false).

Definition clear_color (color : list float) :=
  pass_clear GPU_COLOR_BIT color (S754_zero false) 0.

Definition clear_depth (depth : float) :=
  pass_clear GPU_DEPTH_BIT float4_zero depth 0.

Definition clear_stencil (stencil : Z) :=
  pass_clear GPU_STENCIL_BIT float4_zero (S754_zero false) stencil.

Definition clear_depth_stencil (depth : float) (stencil : Z) :=
  pass_clear (Z.lor GPU_DEPTH_BIT GPU_STENCIL_BIT) float4_zero depth stencil.

Definition clear_color_depth_stencil (color : list float) (depth : float)
    (stencil : Z) :=
  pass_clear (Z.lor (Z.lor GPU_DEPTH_BIT GPU_STENCIL_BIT) GPU_COLOR_BIT)
    color depth stencil.

(** *** Barrier and state *)

Definition barrier (type : Z) := record_command Barrier (command.barrier type).

Definition state_set (state : Z) := record_command StateSet (command.state_set state).

Definition state_stencil (write_mask reference compare_mask : Z) :=
  record_command StencilSet (stencil_set write_mask reference compare_mask).

(** [shader_set] first replaces the bound shader, then records. *)
Definition shader_set (shader : ptr) (self : PassBase) : option PassBase :=
  let self := {| headers_ := headers_ self; commands_ := commands_ self;
                 shader_ := shader; debug_name := debug_name self |} in
  record_command ShaderBind (shader_bind shader) self.

(** *** Resource binds *)

Definition push_constant_offset (name : string) (self : PassBase) : Z :=
  GPU_shader_get_uniform (shader_ self) name.

(** The [slot] versions.  [by_ref] tells the value from the reference
    overload; storage and uniform buffers carry no sampler state. *)
Definition bind_ssbo_slot (by_ref : bool) (slot : Z) (buffer : ptr) :=
  record_command ResourceBind (resource_bind slot by_ref StorageBuf buffer 0).

Definition bind_ubo_slot (by_ref : bool) (slot : Z) (buffer : ptr) :=
  record_command ResourceBind (resource_bind slot by_ref UniformBuf buffer 0).

Definition bind_texture_slot (by_ref : bool) (slot : Z) (texture : ptr) (state : Z) :=
  record_command ResourceBind (resource_bind slot by_ref Sampler texture state).

Definition bind_image_slot (by_ref : bool) (slot : Z) (image : ptr) :=
  record_command ResourceBind (resource_bind slot by_ref Image image 0).

(** The [name] versions query the interface of the bound shader at record
    time. *)
Definition bind_ssbo (by_ref : bool) (name : string) (buffer : ptr)
    (self : PassBase) : option PassBase :=
  bind_ssbo_slot by_ref (GPU_shader_get_ssbo (shader_ self) name) buffer self.

Definition bind_ubo (by_ref : bool) (name : string) (buffer : ptr)
    (self : PassBase) : option PassBase :=
  bind_ubo_slot by_ref
    (GPU_shader_get_uniform_block_binding (shader_ self) name) buffer self.

Definition bind_texture (by_ref : bool) (name : string) (texture : ptr)
    (state : Z) (self : PassBase) : option PassBase :=
  bind_texture_slot by_ref
    (GPU_shader_get_texture_binding (shader_ self) name) texture state self.

Definition bind_image (by_ref : bool) (name : string) (image : ptr)
    (self : PassBase) : option PassBase :=
  bind_image_slot by_ref
    (GPU_shader_get_texture_binding (shader_ self) name) image self.

(** *** Push constants *)

(** The value overloads ([float], [float2], ..., [int4], [bool]): one
    command holding [comp_len] components inline. *)
Definition push_constant_floats (name : string) (data : list float)
    (self : PassBase) : option PassBase :=
  record_command PushConstant
    (push_constant {| location := push_constant_offset name self;
                      array_len := 1; comp_len := vec_size data;
                      pc_type := FloatValue; value := floats data |}) self.

Definition push_constant_ints (name : string) (data : list Z)
    (self : PassBase) : option PassBase :=
  record_command PushConstant
    (push_constant {| location := push_constant_offset name self;
                      array_len := 1; comp_len := vec_size data;
                      pc_type := IntValue; value := ints data |}) self.

Definition push_constant_bool (name : string) (data : bool) :=
  push_constant_ints name [if data then 1 else 0].

(** The pointer overloads: [comp_len] components per array element, read
    through [data] at submission. *)
Definition push_constant_float_ref (name : string) (comp_len : Z) (data : ptr)
    (array_len : Z) (self : PassBase) : option PassBase :=
  record_command PushConstant
    (push_constant {| location := push_constant_offset name self;
                      array_len := array_len; comp_len := comp_len;
                      pc_type := FloatReference; value := reference data |}) self.

Definition push_constant_int_ref (name : string) (comp_len : Z) (data : ptr)
    (array_len : Z) (self : PassBase) : option PassBase :=
  record_command PushConstant
    (push_constant {| location := push_constant_offset name self;
                      array_len := array_len; comp_len := comp_len;
                      pc_type := IntReference; value := reference data |}) self.

Definition push_constant_float4x4_ref (name : string) (data : ptr) :=
  push_constant_float_ref name 16 data 1.

(** [push_constant(const char *, const float4x4 &)].  The matrix is copied
    over [commands[0].float4_value] and runs on over [commands[1]] and
    [commands[2]] of the local array; the three slots are then appended,
    the last two under [Type::None]. *)
Definition push_constant_float4x4 (name : string) (data : list float)
    (self : PassBase) : option PassBase :=
  let inline := (Undetermined_floats - PushConstant_value_offset)%nat in
  let commands_0 :=
    push_constant {| location := push_constant_offset name self;
                     array_len := 1; comp_len := 16;
                     pc_type := FloatValue;
                     value := floats (take inline data) |} in
  let commands_1 := storage (take Undetermined_floats (drop inline data)) in
  let commands_2 :=
    storage (take Undetermined_floats
               (drop (inline + Undetermined_floats) data)) in
  self ← record_command PushConstant commands_0 self;
  self ← record_command None_ commands_1 self;
  record_command None_ commands_2 self.

End PassBaseLocal.

(** ** detail::Pass: the root pass and the storage it owns *)

(** [SubPassVector<PassBase>] uses the default block size. *)
Definition sub_pass_block_size : Z := 16.

Record Pass (B : Type) := {
  base : PassBase;
  sub_passes_main_ : SubPassVector.t PassBase;
  draw_commands_buf_main_ : B;
}.
Arguments base {B}.
Arguments sub_passes_main_ {B}.
Arguments draw_commands_buf_main_ {B}.

(** A reference to a [PassBase] of the tree: the root itself or
    [sub_passes_[index]]. *)
Inductive PassRef := Root | Sub (index : Z).

Global Instance PassRef_eq_dec : EqDecision PassRef.
Proof. solve_decision. Defined.

Section PassTree.
Context `{ShaderInterface} `{DrawCache} {B : Type} `{DrawCommandBufType B}.
Variable ndebug : bool.

Import command.

Definition Pass_new (name : string) (buf : B) : Pass B :=
  {| base := PassBase_new name NULL;
     sub_passes_main_ := SubPassVector.Build [];
     draw_commands_buf_main_ := buf |}.

(** Dereference a pass reference. *)
Definition get_pass (p : Pass B) (r : PassRef) : option PassBase :=
  match r with
  | Root => Some (base p)
  | Sub index => SubPassVector.at_ sub_pass_block_size (sub_passes_main_ p) index
  end.

(** Store the members of the referenced pass. *)
Definition set_pass (p : Pass B) (r : PassRef) (self : PassBase) : option (Pass B) :=
  match r with
  | Root =>
      Some {| base := self; sub_passes_main_ := sub_passes_main_ p;
              draw_commands_buf_main_ := draw_commands_buf_main_ p |}
  | Sub index =>
      subs ← SubPassVector.update sub_pass_block_size (sub_passes_main_ p) index self;
      Some {| base := base p; sub_passes_main_ := subs;
              draw_commands_buf_main_ := draw_commands_buf_main_ p |}
  end.

(** Run a member function that only touches the members of the pass. *)
Definition on_pass (f : PassBase → option PassBase) (r : PassRef) (p : Pass B)
    : option (Pass B) :=
  self ← get_pass p r;
  self ← f self;
  set_pass p r self.

(** [Pass::init]. *)
Definition Pass_init (p : Pass B) : Pass B :=
  {| base := {| headers_ := []; commands_ := [];
                shader_ := shader_ (base p);
                debug_name := debug_name (base p) |};
     sub_passes_main_ := SubPassVector.clear (sub_passes_main_ p);
     draw_commands_buf_main_ := buf_clear (draw_commands_buf_main_ p) |}.

(** [PassBase::sub]: the new sub-pass inherits the bound shader; the
    header receives the truncated index, the returned reference is
    [sub_passes_[index]]. *)
Definition sub (name : string) (r : PassRef) (p : Pass B)
    : option (Pass B * PassRef) :=
  self ← get_pass p r;
  let '(subs, index) :=
    SubPassVector.append_and_get_index sub_pass_block_size (sub_passes_main_ p)
      (PassBase_new name (shader_ self)) in
  let p := {| base := base p; sub_passes_main_ := subs;
              draw_commands_buf_main_ := draw_commands_buf_main_ p |} in
  self ← get_pass p r;
  p ← set_pass p r
        {| headers_ := headers_ self ++ [{| type := SubPass; index := uint index |}];
           commands_ := commands_ self;
           shader_ := shader_ self;
           debug_name := debug_name self |};
  _ ← get_pass p (Sub index);
  Some (p, Sub index).

(** [PassBase::draw]: a zero instance or vertex count returns before
    anything is touched. *)
Definition draw (batch : ptr) (instance_len vertex_len vertex_first : Z)
    (handle : Z) (r : PassRef) (p : Pass B) : option (Pass B) :=
  if bool_decide (instance_len = 0) || bool_decide (vertex_len = 0) then Some p
  else
    self ← get_pass p r;
    _ ← BLI_assert ndebug (bool_decide (shader_ self ≠ NULL));
    let '(buf, headers, commands) :=
      append_draw (draw_commands_buf_main_ p) (headers_ self) (commands_ self)
        batch instance_len vertex_len vertex_first handle in
    let p := {| base := base p; sub_passes_main_ := sub_passes_main_ p;
                draw_commands_buf_main_ := buf |} in
    set_pass p r {| headers_ := headers; commands_ := commands;
                    shader_ := shader_ self; debug_name := debug_name self |}.

(** [draw(batch, handle)]. *)
Definition draw_handle (batch : ptr) (handle : Z) :=
  draw batch uint_minus_1 uint_minus_1 uint_minus_1 handle.

Definition draw_procedural (primitive : GPUPrimType)
    (instance_len vertex_len vertex_first : Z) (handle : Z)
    (r : PassRef) (p : Pass B) : option (Pass B) :=
  batch ← procedural_batch_get ndebug primitive;
  draw batch instance_len vertex_len vertex_first handle r p.

End PassTree.

(** ** material_set *)

(** One texture of a compiled material ([GPUMaterialTexture]). *)
Record GPUMaterialTexture := {
  ima : ptr;
  iuser_available : bool;
  iuser : ptr;
  tiled_mapping_name : string;
  sampler_name : string;
  sampler_state : Z;
  (** [colorband]: null, or a pointer to the texture handle it holds. *)
  colorband : option ptr;
}.

(** Material evaluation, image and resource-acquisition services. *)
Class MaterialServices (Manager : Type) := {
  GPU_material_get_pass : ptr → ptr;
  GPU_pass_shader_get : ptr → ptr;
  GPU_material_textures : ptr → list GPUMaterialTexture;
  GPU_material_uniform_buffer_get : ptr → ptr;
  GPU_UBO_BLOCK_NAME : string;
  BKE_image_get_gpu_tiles : ptr → ptr → ptr;
  BKE_image_get_gpu_tilemap : ptr → ptr → ptr;
  BKE_image_get_gpu_texture : ptr → ptr → ptr;
  acquire_texture : Manager → ptr → Manager;
}.

Section MaterialSet.
Context `{ShaderInterface} `{DrawCache} {Manager : Type} `{MaterialServices Manager}.

(** The body of the loop over the textures of the material. *)
Definition material_bind_texture (tex : GPUMaterialTexture)
    (st : Manager * PassBase) : option (Manager * PassBase) :=
  let '(manager, self) := st in
  if bool_decide (ima tex ≠ NULL) then
    let iuser := if iuser_available tex then iuser tex else NULL in
    if bool_decide (tiled_mapping_name tex ≠ EmptyString) then
      let tiles := BKE_image_get_gpu_tiles (ima tex) iuser in
      let manager := acquire_texture manager tiles in
      self ← bind_texture false (sampler_name tex) tiles (sampler_state tex) self;
      let tile_map := BKE_image_get_gpu_tilemap (ima tex) iuser in
      let manager := acquire_texture manager tile_map in
      self ← bind_texture false (tiled_mapping_name tex) tile_map (sampler_state tex) self;
      Some (manager, self)
    else
      let texture := BKE_image_get_gpu_texture (ima tex) iuser in
      let manager := acquire_texture manager texture in
      self ← bind_texture false (sampler_name tex) texture (sampler_state tex) self;
      Some (manager, self)
  else
    match colorband tex with
    | Some texture =>
        self ← bind_texture false (sampler_name tex) texture GPU_SAMPLER_MAX self;
        Some (manager, self)
    | None => Some (manager, self)
    end.

(** A [for] loop whose body may fail. *)
Fixpoint for_each {A S : Type} (body : A → S → option S) (l : list A) (s : S)
    : option S :=
  match l with
  | [] => Some s
  | x :: rest => s ← body x s; for_each body rest s
  end.

Definition material_set (manager : Manager) (material : ptr) (self : PassBase)
    : option (Manager * PassBase) :=
  let gpupass := GPU_material_get_pass material in
  self ← shader_set (GPU_pass_shader_get gpupass) self;
  '(manager, self) ← for_each material_bind_texture
                        (GPU_material_textures material) (manager, self);
  let ubo := GPU_material_uniform_buffer_get material in
  if bool_decide (ubo ≠ NULL) then
    self ← bind_ubo false GPU_UBO_BLOCK_NAME ubo self;
    Some (manager, self)
  else Some (manager, self).

End MaterialSet.

Section MaterialTextures.
Context `{DrawCache} {Manager : Type} `{MaterialServices Manager}.



End MaterialTextures.

(** ** submit and serialize *)

Section Replay.
Import command.

(** The state the execute routines of the commands act on: the recording
    state together with the GPU context behind it. *)
Variable RecordingState : Type.

(** The [execute] member of the command of the given type.  It is called
    on [commands_[index]], a reference into the flat command array, and
    receives the array from that slot onwards. *)
Variable execute : Type_ → list Undetermined → RecordingState → RecordingState.
Variable GPU_debug_group_begin : string → RecordingState → RecordingState.
Variable GPU_debug_group_end : RecordingState → RecordingState.

(** The [serialize] members of the commands; the one of [DrawMulti] takes
    the line prefix. *)
Variable cmd_serialize : Type_ → list Undetermined → string.
Variable draw_multi_serialize : list Undetermined → string → string.

(** [commands_[index]] as a reference into the array. *)
Definition command_ref (commands : list Undetermined) (index : Z)
    : option (list Undetermined) :=
  _ ← vec_at commands index; Some (drop (Z.to_nat index) commands).

(** The body of the loop of [PassBase::submit]: one header.  [submit_sub]
    stands for the recursive call. *)
Definition submit_header (submit_sub : PassBase → RecordingState → option RecordingState)
    (sub_passes : SubPassVector.t PassBase) (commands : list Undetermined)
    (header : Header) (state : RecordingState) : option RecordingState :=
  match type header with
  | None_ => Some state
  | SubPass =>
      sub_pass ← SubPassVector.at_ sub_pass_block_size sub_passes (index header);
      submit_sub sub_pass state
  | ty =>
      cmd ← command_ref commands (index header);
      Some (execute ty cmd state)
  end.

(** [PassBase::submit].  The recursion goes through the sub-pass container,
    so it is bounded by [fuel]; [None] is a read outside a container or
    exhausted fuel. *)
Fixpoint submit (fuel : nat) (sub_passes : SubPassVector.t PassBase)
    (self : PassBase) (state : RecordingState) : option RecordingState :=
  match fuel with
  | O => None
  | S fuel =>
      let state := GPU_debug_group_begin (debug_name self) state in
      state ← for_each
                (submit_header (submit fuel sub_passes) sub_passes (commands_ self))
                (headers_ self) state;
      Some (GPU_debug_group_end state)
  end.

Definition endl : string := String "010"%char EmptyString.

(** The body of the loop of [PassBase::serialize]; [ss] is the stream. *)
Definition serialize_header (serialize_sub : PassBase → string → option string)
    (sub_passes : SubPassVector.t PassBase) (commands : list Undetermined)
    (line_prefix : string) (header : Header) (ss : string) : option string :=
  match type header with
  | None_ => Some ss
  | SubPass =>
      sub_pass ← SubPassVector.at_ sub_pass_block_size sub_passes (index header);
      text ← serialize_sub sub_pass line_prefix;
      Some (ss +:+ text)
  | DrawMulti =>
      cmd ← command_ref commands (index header);
      Some (ss +:+ draw_multi_serialize cmd line_prefix)
  | ty =>
      cmd ← command_ref commands (index header);
      Some (ss +:+ line_prefix +:+ cmd_serialize ty cmd +:+ endl)
  end.

(** [PassBase::serialize]. *)
Fixpoint serialize (fuel : nat) (sub_passes : SubPassVector.t PassBase)
    (self : PassBase) (line_prefix : string) : option string :=
  match fuel with
  | O => None
  | S fuel =>
      let ss := line_prefix +:+ "." +:+ debug_name self +:+ endl in
      let line_prefix := line_prefix +:+ "  " in
      for_each
        (serialize_header (serialize fuel sub_passes) sub_passes (commands_ self)
           line_prefix)
        (headers_ self) ss
  end.

(** [operator<<]: the pass, serialized with the default empty prefix, goes
    to the stream. *)
Definition operator_lshift (fuel : nat) (sub_passes : SubPassVector.t PassBase)
    (stream : string) (pass : PassBase) : option string :=
  text ← serialize fuel sub_passes pass ""; Some (stream +:+ text).

End Replay.

(** ** PassSortable *)

Record PassSortable (B : Type) := {
  pass_main : Pass B;
  sorting_values_ : list float;
  sorted_ : bool;
}.
Arguments pass_main {B}.
Arguments sorting_values_ {B}.
Arguments sorted_ {B}.

(** What the C++ standard requires of the comparison given to
    [std::sort]: a strict weak ordering on the elements of the range. *)
Definition strict_weak_ordering {A} (comp : A → A → bool) (l : list A) : Prop :=
  (∀ a, a ∈ l → comp a a = false)
  ∧ (∀ a b c, a ∈ l → b ∈ l → c ∈ l →
       comp a b = true → comp b c = true → comp a c = true)
  ∧ (∀ a b c, a ∈ l → b ∈ l → c ∈ l →
       comp a b = false → comp b a = false →
       comp b c = false → comp c b = false →
       comp a c = false ∧ comp c a = false).

(** What the C++ standard promises of [std::sort] in return: the range
    is rearranged, and no element compares less than one before it. *)
Definition std_sort_contract {A} (sort : (A → A → bool) → list A → list A) : Prop :=
  ∀ comp l,
    strict_weak_ordering comp l →
    sort comp l ≡ₚ l
    ∧ StronglySorted (λ a b, comp b a = false) (sort comp l).

(** A sort that meets the contract: the insertion sort the GNU
    implementation of [std::sort] runs on a range of at most 16 elements.
    The sorted prefix is kept last element first.  An element less than
    the first of the prefix goes to its front; any other one moves down
    from the end of the prefix for as long as it is less than its
    neighbour. *)
Fixpoint linear_insert {A} (comp : A → A → bool) (val : A) (rev_prefix : list A)
    : list A :=
  match rev_prefix with
  | [] => [val]
  | next :: rest =>
      if comp val next then next :: linear_insert comp val rest
      else val :: next :: rest
  end.

Definition insertion_step {A} (comp : A → A → bool) (rev_prefix : list A) (val : A)
    : list A :=
  match last rev_prefix with
  | Some first => if comp val first then rev_prefix ++ [val]
                  else linear_insert comp val rev_prefix
  | None => [val]
  end.

Definition insertion_sort {A} (comp : A → A → bool) (l : list A) : list A :=
  reverse (foldl (insertion_step comp) [] l).

Section Sortable.
Context `{ShaderInterface} `{DrawCache} {B : Type} `{DrawCommandBufType B}.
Variable ndebug : bool.
Variable std_sort :
  (command.Header → command.Header → bool) → list command.Header → list command.Header.

Import command.

Definition PassSortable_new (name : string) (buf : B) : PassSortable B :=
  {| pass_main := Pass_new name buf; sorting_values_ := []; sorted_ := false |}.

(** [PassSortable::init]. *)
Definition PassSortable_init (p : PassSortable B) : PassSortable B :=
  {| pass_main := Pass_init (pass_main p);
     sorting_values_ := [];
     sorted_ := false |}.

(** [PassSortable::sub]: a sub-pass of the root with its sorting value. *)
Definition PassSortable_sub (name : string) (sorting_value : float)
    (p : PassSortable B) : option (PassSortable B * PassRef) :=
  let self := base (pass_main p) in
  let '(subs, index) :=
    SubPassVector.append_and_get_index sub_pass_block_size
      (sub_passes_main_ (pass_main p)) (PassBase_new name (shader_ self)) in
  let p :=
    {| pass_main :=
         {| base := {| headers_ := headers_ self
                                     ++ [{| type := SubPass; index := uint index |}];
                       commands_ := commands_ self;
                       shader_ := shader_ self;
                       debug_name := debug_name self |};
            sub_passes_main_ := subs;
            draw_commands_buf_main_ := draw_commands_buf_main_ (pass_main p) |};
       sorting_values_ := sorting_values_ p ++ [sorting_value];
       sorted_ := sorted_ p |} in
  _ ← get_pass (pass_main p) (Sub index);
  Some (p, Sub index).

(** The comparison of [PassSortable::sort], with its assertion and its two
    reads of [sorting_values_]. *)
Definition sort_compare (sorting_values : list float) (a b : Header) : option bool :=
  _ ← BLI_assert ndebug
        (bool_decide (type a = SubPass) && bool_decide (type b = SubPass));
  a_val ← vec_at sorting_values (index a);
  b_val ← vec_at sorting_values (index b);
  Some (SFltb a_val b_val || (SFeqb a_val b_val && bool_decide (index a < index b))).

(** The comparison as [std::sort] receives it, a total function: [false]
    where the C++ comparison would not return. *)
Definition sort_less (sorting_values : list float) (a b : Header) : bool :=
  default false (sort_compare sorting_values a b).

(** [PassSortable::sort].  [std::sort] compares every element of a range of
    two or more, so the sort fails as soon as one comparison of an element
    with itself would. *)
Definition PassSortable_sort (p : PassSortable B) : option (PassSortable B) :=
  if sorted_ p then Some p
  else
    let self := base (pass_main p) in
    _ ← (if bool_decide (vec_size (headers_ self) < 2) then Some ()
         else for_each
                (λ h _, _ ← sort_compare (sorting_values_ p) h h; Some ())
                (headers_ self) ());
    let headers := std_sort (sort_less (sorting_values_ p)) (headers_ self) in
    Some {| pass_main :=
              {| base := {| headers_ := headers;
                            commands_ := commands_ self;
                            shader_ := shader_ self;
                            debug_name := debug_name self |};
                 sub_passes_main_ := sub_passes_main_ (pass_main p);
                 draw_commands_buf_main_ := draw_commands_buf_main_ (pass_main p) |};
            sorting_values_ := sorting_values_ p;
            sorted_ := true |}.

Variable cmd_serialize : Type_ → list Undetermined → string.
Variable draw_multi_serialize : list Undetermined → string → string.

(** [PassSortable::serialize]: sorts through [const_cast] when the pass is
    not sorted yet, then serializes as the base class does. *)
Definition PassSortable_serialize (fuel : nat) (p : PassSortable B)
    (line_prefix : string) : option (PassSortable B * string) :=
  p ← (if sorted_ p then Some p else PassSortable_sort p);
  text ← serialize cmd_serialize draw_multi_serialize fuel
           (sub_passes_main_ (pass_main p)) (base (pass_main p)) line_prefix;
  Some (p, text).

End Sortable.

(** The pass [PassSortable::sort] leaves: the root headers replaced, all
    else as it was, the flag set. *)
Definition with_sorted_headers {B : Type} (ps : PassSortable B)
    (headers : list command.Header) : PassSortable B :=
  {| pass_main :=
       {| base := {| headers_ := headers;
                     commands_ := commands_ (base (pass_main ps));
                     shader_ := shader_ (base (pass_main ps));
                     debug_name := debug_name (base (pass_main ps)) |};
          sub_passes_main_ := sub_passes_main_ (pass_main ps);
          draw_commands_buf_main_ := draw_commands_buf_main_ (pass_main ps) |};
     sorting_values_ := sorting_values_ ps;
     sorted_ := true |}.

(** ** DrawCommandBuf *)

(** Modelled from the spec: [DrawCommandBuf] of [draw_command.hh], the
    buffer of [PassSimple], is not part of the sources.  A draw that is
    not dropped appends the corresponding command: one header of type
    [Draw] and one command slot holding the arguments of the call. *)
Inductive DrawCommandBuf := DrawCommandBuf_new.

Definition DrawCommandBuf_append_draw (buf : DrawCommandBuf)
    (headers : list command.Header) (commands : list command.Undetermined)
    (batch : ptr) (instance_len vertex_len vertex_first handle : Z)
    : DrawCommandBuf * list command.Header * list command.Undetermined :=
  let '(commands, index) :=
    Vector_append_and_get_index commands
      (command.draw batch instance_len vertex_len vertex_first handle) in
  (buf,
   headers ++ [{| command.type := command.Draw; command.index := uint index |}],
   commands).

Global Instance DrawCommandBuf_type : DrawCommandBufType DrawCommandBuf := {|
  buf_clear := λ buf, buf;
  append_draw := DrawCommandBuf_append_draw;
|}.

(** ** Recordings *)

(** The calls of the recording API, with their arguments. *)
Inductive RecordOp :=
  | op_sub (name : string)
  | op_state_set (state : Z)
  | op_clear_color (color : list float)
  | op_clear_depth (depth : float)
  | op_clear_stencil (stencil : Z)
  | op_clear_depth_stencil (depth : float) (stencil : Z)
  | op_clear_color_depth_stencil (color : list float) (depth : float) (stencil : Z)
  | op_state_stencil (write_mask reference compare_mask : Z)
  | op_shader_set (shader : ptr)
  | op_material_set (material : ptr)
  | op_draw (batch : ptr) (instance_len vertex_len vertex_first handle : Z)
  | op_draw_handle (batch : ptr) (handle : Z)
  | op_draw_procedural (primitive : GPUPrimType)
      (instance_len vertex_len vertex_first handle : Z)
  | op_draw_indirect (batch indirect_buffer : ptr) (handle : Z)
  | op_draw_procedural_indirect (primitive : GPUPrimType)
      (indirect_buffer : ptr) (handle : Z)
  | op_dispatch (group_len : Z * Z * Z)
  | op_dispatch_ref (group_len : ptr)
  | op_dispatch_indirect (indirect_buffer : ptr)
  | op_barrier (type : Z)
  | op_bind_image (by_ref : bool) (name : string) (image : ptr)
  | op_bind_image_slot (by_ref : bool) (slot : Z) (image : ptr)
  | op_bind_texture (by_ref : bool) (name : string) (texture : ptr) (state : Z)
  | op_bind_texture_slot (by_ref : bool) (slot : Z) (texture : ptr) (state : Z)
  | op_bind_ssbo (by_ref : bool) (name : string) (buffer : ptr)
  | op_bind_ssbo_slot (by_ref : bool) (slot : Z) (buffer : ptr)
  | op_bind_ubo (by_ref : bool) (name : string) (buffer : ptr)
  | op_bind_ubo_slot (by_ref : bool) (slot : Z) (buffer : ptr)
  | op_push_constant_floats (name : string) (data : list float)
  | op_push_constant_ints (name : string) (data : list Z)
  | op_push_constant_bool (name : string) (data : bool)
  | op_push_constant_float_ref (name : string) (comp_len : Z) (data : ptr)
      (array_len : Z)
  | op_push_constant_int_ref (name : string) (comp_len : Z) (data : ptr)
      (array_len : Z)
  | op_push_constant_float4x4_ref (name : string) (data : ptr)
  | op_push_constant_float4x4 (name : string) (data : list float).

(** The recording calls that take the name of a resource or of a push
    constant: they hand the bound shader to the shader interface to look
    the name up. *)
Definition queries_shader (op : RecordOp) : bool :=
  match op with
  | op_bind_image _ _ _ | op_bind_texture _ _ _ _
  | op_bind_ssbo _ _ _ | op_bind_ubo _ _ _
  | op_push_constant_floats _ _ | op_push_constant_ints _ _
  | op_push_constant_bool _ _
  | op_push_constant_float_ref _ _ _ _ | op_push_constant_int_ref _ _ _ _
  | op_push_constant_float4x4_ref _ _ | op_push_constant_float4x4 _ _ => true
  | _ => false
  end.

(** The calls on the pass alone that assert a bound shader. *)
Definition asserts_shader (op : RecordOp) : bool :=
  match op with
  | op_draw_indirect _ _ _ | op_draw_procedural_indirect _ _ _
  | op_dispatch _ | op_dispatch_ref _ | op_dispatch_indirect _ => true
  | _ => false
  end.

Section Recording.
Context `{ShaderInterface} `{DrawCache} {B : Type} `{DrawCommandBufType B}.
Context {Manager : Type} `{MaterialServices Manager}.
Variable ndebug : bool.

(** The calls that only touch the members of the pass they are made on. *)
Definition record_local (op : RecordOp) : option (PassBase → option PassBase) :=
  match op with
  | op_state_set state => Some (state_set state)
  | op_clear_color color => Some (clear_color color)
  | op_clear_depth depth => Some (clear_depth depth)
  | op_clear_stencil stencil => Some (clear_stencil stencil)
  | op_clear_depth_stencil depth stencil => Some (clear_depth_stencil depth stencil)
  | op_clear_color_depth_stencil color depth stencil =>
      Some (clear_color_depth_stencil color depth stencil)
  | op_state_stencil w r c => Some (state_stencil w r c)
  | op_shader_set shader => Some (shader_set shader)
  | op_draw_indirect batch buf handle => Some (draw_indirect ndebug batch buf handle)
  | op_draw_procedural_indirect prim buf handle =>
      Some (draw_procedural_indirect ndebug prim buf handle)
  | op_dispatch group_len => Some (dispatch ndebug group_len)
  | op_dispatch_ref group_len => Some (dispatch_ref ndebug group_len)
  | op_dispatch_indirect buf => Some (dispatch_indirect ndebug buf)
  | op_barrier type => Some (barrier type)
  | op_bind_image by_ref name image => Some (bind_image by_ref name image)
  | op_bind_image_slot by_ref slot image => Some (bind_image_slot by_ref slot image)
  | op_bind_texture by_ref name tex state => Some (bind_texture by_ref name tex state)
  | op_bind_texture_slot by_ref slot tex state =>
      Some (bind_texture_slot by_ref slot tex state)
  | op_bind_ssbo by_ref name buf => Some (bind_ssbo by_ref name buf)
  | op_bind_ssbo_slot by_ref slot buf => Some (bind_ssbo_slot by_ref slot buf)
  | op_bind_ubo by_ref name buf => Some (bind_ubo by_ref name buf)
  | op_bind_ubo_slot by_ref slot buf => Some (bind_ubo_slot by_ref slot buf)
  | op_push_constant_floats name data => Some (push_constant_floats name data)
  | op_push_constant_ints name data => Some (push_constant_ints name data)
  | op_push_constant_bool name data => Some (push_constant_bool name data)
  | op_push_constant_float_ref name comp data len =>
      Some (push_constant_float_ref name comp data len)
  | op_push_constant_int_ref name comp data len =>
      Some (push_constant_int_ref name comp data len)
  | op_push_constant_float4x4_ref name data => Some (push_constant_float4x4_ref name data)
  | op_push_constant_float4x4 name data => Some (push_constant_float4x4 name data)
  | _ => None
  end.

(** One call on the pass [r] of the tree.  The manager is the one
    [material_set] acquires textures from. *)
Definition record (op : RecordOp) (r : PassRef) (st : Manager * Pass B)
    : option (Manager * Pass B) :=
  let '(manager, p) := st in
  match record_local op with
  | Some f => p ← on_pass f r p; Some (manager, p)
  | None =>
      match op with
      | op_sub name => '(p, _) ← sub name r p; Some (manager, p)
      | op_material_set material =>
          self ← get_pass p r;
          '(manager, self) ← material_set manager material self;
          p ← set_pass p r self;
          Some (manager, p)
      | op_draw batch il vl vf handle =>
          p ← draw ndebug batch il vl vf handle r p; Some (manager, p)
      | op_draw_handle batch handle =>
          p ← draw_handle ndebug batch handle r p; Some (manager, p)
      | op_draw_procedural prim il vl vf handle =>
          p ← draw_procedural ndebug prim il vl vf handle r p; Some (manager, p)
      | _ => None
      end
  end.

(** A recording: the calls made, each with the pass it is made on. *)
Definition record_all (calls : list (PassRef * RecordOp)) (st : Manager * Pass B)
    : option (Manager * Pass B) :=
  for_each (λ call st, record call.2 call.1 st) calls st.

End Recording.

(** ** Recordings of a sortable pass *)

(** The calls that record a sortable pass: a keyed sub-pass of the root,
    or a recording call on one of the sub-passes, through the reference
    [PassSortable::sub] returned. *)
Inductive SortableCall :=
  | call_sub (name : string) (sorting_value : float)
  | call_on_sub (index : Z) (op : RecordOp).

Section SortableRecording.
Context `{ShaderInterface} `{DrawCache} {B : Type} `{DrawCommandBufType B}.
Context {Manager : Type} `{MaterialServices Manager}.
Variable ndebug : bool.

Definition record_sortable (call : SortableCall) (st : Manager * PassSortable B)
    : option (Manager * PassSortable B) :=
  let '(manager, ps) := st in
  match call with
  | call_sub name sorting_value =>
      '(ps, _) ← PassSortable_sub name sorting_value ps; Some (manager, ps)
  | call_on_sub index op =>
      '(manager, p) ← record ndebug op (Sub index) (manager, pass_main ps);
      Some (manager, {| pass_main := p;
                        sorting_values_ := sorting_values_ ps;
                        sorted_ := sorted_ ps |})
  end.

Definition record_sortable_all (calls : list SortableCall)
    (st : Manager * PassSortable B) : option (Manager * PassSortable B) :=
  for_each record_sortable calls st.

End SortableRecording.

(** A call of a recording in which every sub-pass has a sorting value to
    be compared: no NaN, and no sub-pass created without a value. *)
Definition keyed_call (call : SortableCall) : Prop :=
  match call with
  | call_sub _ sorting_value => sorting_value ≠ S754_nan
  | call_on_sub _ op => if op is op_sub _ then False else True
  end.

(** ** The streams of a pass after a sequence of commands *)

(** The pass after the given commands were recorded into it one after the
    other with [create_command]: one header per command, indexing the
    slot the command went to. *)
Definition with_commands (self : PassBase)
    (cmds : list (command.Type_ * command.Undetermined)) : PassBase :=
  {| headers_ :=
       headers_ self
       ++ imap (λ (k : nat) cmd,
                  {| command.type := cmd.1;
                     command.index :=
                       uint (vec_size (commands_ self) + Z.of_nat k) |}) cmds;
     commands_ := commands_ self ++ cmds.*2;
     shader_ := shader_ self;
     debug_name := debug_name self |}.

(** ** Invariants of a recorded tree *)

Section Invariants.
Import command.

(** A header indexes the container its type selects. *)
Definition header_in_bounds (ncommands nsubs : Z) (h : Header) : Prop :=
  if decide (type h = SubPass) then 0 ≤ index h < nsubs
  else 0 ≤ index h < ncommands.

Definition pass_in_bounds (nsubs : Z) (self : PassBase) : Prop :=
  Forall (header_in_bounds (vec_size (commands_ self)) nsubs) (headers_ self).

Definition tree_in_bounds {B} (p : Pass B) : Prop :=
  SubPassVector.shaped sub_pass_block_size (sub_passes_main_ p)
  ∧ pass_in_bounds (SubPassVector.size (sub_passes_main_ p)) (base p)
  ∧ Forall (pass_in_bounds (SubPassVector.size (sub_passes_main_ p)))
      (SubPassVector.elements (sub_passes_main_ p)).

(** The sub-passes a sub-pass refers to were created after it. *)
Definition pass_descends (i : Z) (self : PassBase) : Prop :=
  Forall (λ h, type h = SubPass → i < index h) (headers_ self).

Definition tree_descends {B} (p : Pass B) : Prop :=
  ∀ (i : nat) self,
    SubPassVector.elements (sub_passes_main_ p) !! i = Some self →
    pass_descends (Z.of_nat i) self.

(** [self'] is [self] after some commands were recorded into it. *)
Definition extends (self self' : PassBase) : Prop :=
  ∃ added,
    headers_ self' = headers_ self ++ added
    ∧ vec_size (commands_ self) ≤ vec_size (commands_ self')
    ∧ Forall (λ h, type h ≠ SubPass ∧ 0 ≤ index h < vec_size (commands_ self'))
        added.

(** The pass with one more sub-pass header. *)
Definition with_sub_header (self : PassBase) (index : Z) : PassBase :=
  {| headers_ := headers_ self
                   ++ [{| command.type := command.SubPass;
                          command.index := uint index |}];
     commands_ := commands_ self;
     shader_ := shader_ self;
     debug_name := debug_name self |}.

(** What the pass relies on of its draw command buffer: [append_draw]
    only appends headers, which index the commands it leaves behind. *)
Class DrawCommandBufLawful (B : Type) `{DrawCommandBufType B} : Prop :=
  append_draw_appends :
    ∀ (buf : B) headers commands batch il vl vf handle buf' headers' commands',
      append_draw buf headers commands batch il vl vf handle
      = (buf', headers', commands') →
      ∃ added,
        headers' = headers ++ added
        ∧ vec_size commands ≤ vec_size commands'
        ∧ Forall (λ h, type h ≠ SubPass ∧ 0 ≤ index h < vec_size commands') added.

End Invariants.

(** What a keyed recording keeps of a sortable pass: the tree within
    bounds, only sub-pass headers in the root, and one sorting value, none
    a NaN, per sub-pass. *)
Definition keyed_invariant {B : Type} (ps : PassSortable B) : Prop :=
  let nsubs := SubPassVector.size (sub_passes_main_ (pass_main ps)) in
  tree_in_bounds (pass_main ps)
  ∧ (nsubs ≤ 2 ^ 32 → tree_descends (pass_main ps))
  ∧ sorted_ ps = false
  ∧ Forall (λ h, command.type h = command.SubPass)
      (headers_ (base (pass_main ps)))
  ∧ Forall (λ val, val ≠ S754_nan) (sorting_values_ ps)
  ∧ vec_size (sorting_values_ ps) = nsubs.

(** ** The order of a depth-first traversal *)

(** What reaches the device during a submission. *)
Inductive DeviceCall :=
  | call_group_begin (name : string)
  | call_execute (ty : command.Type_) (cmd : list command.Undetermined)
  | call_group_end.

(** The calls of a depth-first traversal in header order: a pass is its
    debug group around the calls of its headers, taken first to last; a
    placeholder header contributes nothing, a command header its one
    [execute], a sub-pass header all the calls of that sub-pass. *)
Inductive visits (sub_passes : SubPassVector.t PassBase)
    : PassBase → list DeviceCall → Prop :=
  | visits_pass self body :
      visits_headers sub_passes (commands_ self) (headers_ self) body →
      visits sub_passes self
        (call_group_begin (debug_name self) :: body ++ [call_group_end])
with visits_headers (sub_passes : SubPassVector.t PassBase)
    : list command.Undetermined → list command.Header → list DeviceCall → Prop :=
  | visits_done commands :
      visits_headers sub_passes commands [] []
  | visits_placeholder commands h rest calls :
      command.type h = command.None_ →
      visits_headers sub_passes commands rest calls →
      visits_headers sub_passes commands (h :: rest) calls
  | visits_sub_pass commands h rest sub_pass inner calls :
      command.type h = command.SubPass →
      SubPassVector.at_ sub_pass_block_size sub_passes (command.index h)
      = Some sub_pass →
      visits sub_passes sub_pass inner →
      visits_headers sub_passes commands rest calls →
      visits_headers sub_passes commands (h :: rest) (inner ++ calls)
  | visits_command commands h rest cmd calls :
      command.type h ≠ command.None_ →
      command.type h ≠ command.SubPass →
      command_ref commands (command.index h) = Some cmd →
      visits_headers sub_passes commands rest calls →
      visits_headers sub_passes commands (h :: rest)
        (call_execute (command.type h) cmd :: calls).

Section Perform.
Variable RecordingState : Type.
Variable execute :
  command.Type_ → list command.Undetermined → RecordingState → RecordingState.
Variable GPU_debug_group_begin : string → RecordingState → RecordingState.
Variable GPU_debug_group_end : RecordingState → RecordingState.

Definition perform (state : RecordingState) (call : DeviceCall) : RecordingState :=
  match call with
  | call_group_begin name => GPU_debug_group_begin name state
  | call_execute ty cmd => execute ty cmd state
  | call_group_end => GPU_debug_group_end state
  end.

(** The calls performed one after the other. *)
Definition perform_all (calls : list DeviceCall) (state : RecordingState)
    : RecordingState :=
  foldl perform state calls.

End Perform.

(** What [submit] executes for commands recorded one after the other: each
    command that is no placeholder once, on the slot it was written to. *)
Definition executed_calls (offset : nat) (commands : list command.Undetermined)
    (cmds : list (command.Type_ * command.Undetermined)) : list DeviceCall :=
  concat (imap (λ (k : nat) cmd,
                  if decide (cmd.1 = command.None_) then []
                  else [call_execute cmd.1 (drop (offset + k) commands)])
            cmds).


(** ** Ordering of the sorting values *)

(** A float that is not a NaN, placed in three integers compared
    lexicographically: class and sign, then exponent, then mantissa. *)
Definition float_key (f : float) : Z * Z * Z :=
  match f with
  | S754_infinity true => (-2, 0, 0)
  | S754_finite true m e => (-1, - e, Z.neg m)
  | S754_zero _ => (0, 0, 0)
  | S754_finite false m e => (1, e, Z.pos m)
  | S754_infinity false => (2, 0, 0)
  | S754_nan => (3, 0, 0)
  end.

Definition key_lt (a b : Z * Z * Z) : Prop :=
  a.1.1 < b.1.1
  ∨ (a.1.1 = b.1.1 ∧ (a.1.2 < b.1.2 ∨ (a.1.2 = b.1.2 ∧ a.2 < b.2))).

(** The order [PassSortable::sort] is after: a header comes before
    another when its sorting value is not greater, and for equal values
    when its index is not greater. *)
Definition in_sort_order (sorting_values : list float) (a b : command.Header)
    : Prop :=
  ∃ a_val b_val,
    vec_at sorting_values (command.index a) = Some a_val
    ∧ vec_at sorting_values (command.index b) = Some b_val
    ∧ SFleb a_val b_val = true
    ∧ (SFeqb a_val b_val = true → command.index a ≤ command.index b).

(** A sequence of [PassSortable::sub] calls, each with its name and
    sorting value. *)
Definition PassSortable_sub_all {B : Type} (adds : list (string * float))
    (p : PassSortable B) : option (PassSortable B) :=
  for_each (λ add p, '(p, _) ← PassSortable_sub add.1 add.2 p; Some p) adds p.


(** A header [PassSortable::sort] can compare: a sub-pass header whose
    index has a sorting value that is not a NaN. *)
Definition has_sort_key (sorting_values : list float) (h : command.Header) : Prop :=
  command.type h = command.SubPass
  ∧ ∃ val, vec_at sorting_values (command.index h) = Some val ∧ val ≠ S754_nan.



(** ** The layout of a serialized pass *)

(** What [serialize] prints, with the nesting depth it is printed at: a
    line of text, or the block a [DrawMulti] command prints itself. *)
Inductive OutlineItem :=
  | text_line (depth : nat) (text : string)
  | draw_multi_block (depth : nat) (cmd : list command.Undetermined).

(** One indentation step, two spaces, per level of depth. *)
Fixpoint indent (depth : nat) : string :=
  match depth with
  | O => ""
  | S depth => indent depth +:+ "  "
  end.

Section Outline.
Variable cmd_serialize : command.Type_ → list command.Undetermined → string.
Variable draw_multi_serialize : list command.Undetermined → string → string.

Definition render (line_prefix : string) (item : OutlineItem) : string :=
  match item with
  | text_line depth text => line_prefix +:+ indent depth +:+ text +:+ endl
  | draw_multi_block depth cmd =>
      draw_multi_serialize cmd (line_prefix +:+ indent depth)
  end.

Definition render_all (line_prefix : string) (items : list OutlineItem) : string :=
  foldr (λ item rest, render line_prefix item +:+ rest) "" items.

(** The outline of a pass at a depth: its name, then at one level more the
    items of its headers in order, where a sub-pass header stands for the
    outline of the sub-pass at that deeper level. *)
Inductive outlines (sub_passes : SubPassVector.t PassBase)
    : nat → PassBase → list OutlineItem → Prop :=
  | outlines_pass depth self body :
      outlines_headers sub_passes (commands_ self) (S depth) (headers_ self) body →
      outlines sub_passes depth self
        (text_line depth ("." +:+ debug_name self) :: body)
with outlines_headers (sub_passes : SubPassVector.t PassBase)
    : list command.Undetermined → nat → list command.Header
      → list OutlineItem → Prop :=
  | outlines_done commands depth :
      outlines_headers sub_passes commands depth [] []
  | outlines_placeholder commands depth h rest items :
      command.type h = command.None_ →
      outlines_headers sub_passes commands depth rest items →
      outlines_headers sub_passes commands depth (h :: rest) items
  | outlines_sub_pass commands depth h rest sub_pass inner items :
      command.type h = command.SubPass →
      SubPassVector.at_ sub_pass_block_size sub_passes (command.index h)
      = Some sub_pass →
      outlines sub_passes depth sub_pass inner →
      outlines_headers sub_passes commands depth rest items →
      outlines_headers sub_passes commands depth (h :: rest) (inner ++ items)
  | outlines_draw_multi commands depth h rest cmd items :
      command.type h = command.DrawMulti →
      command_ref commands (command.index h) = Some cmd →
      outlines_headers sub_passes commands depth rest items →
      outlines_headers sub_passes commands depth (h :: rest)
        (draw_multi_block depth cmd :: items)
  | outlines_command commands depth h rest cmd items :
      command.type h ≠ command.None_ →
      command.type h ≠ command.SubPass →
      command.type h ≠ command.DrawMulti →
      command_ref commands (command.index h) = Some cmd →
      outlines_headers sub_passes commands depth rest items →
      outlines_headers sub_passes commands depth (h :: rest)
        (text_line depth (cmd_serialize (command.type h) cmd) :: items).

End Outline.

(** What [serialize] prints for commands recorded one after the other, at
    the given depth: nothing for a placeholder, the block of a [DrawMulti],
    one line for any other command. *)
Definition printed_items
    (cmd_serialize : command.Type_ → list command.Undetermined → string)
    (depth offset : nat) (commands : list command.Undetermined)
    (cmds : list (command.Type_ * command.Undetermined)) : list OutlineItem :=
  concat (imap (λ (k : nat) cmd,
                  if decide (cmd.1 = command.None_) then []
                  else if decide (cmd.1 = command.DrawMulti)
                       then [draw_multi_block depth (drop (offset + k) commands)]
                       else [text_line depth
                               (cmd_serialize cmd.1
                                  (drop (offset + k) commands))])
            cmds).


(** ** Sample data *)

(** An id map with two allocated entries, the second one in use. *)
Definition idmap_two_entries : bmesh_idmap.BMIdMap :=
  {| bmesh_idmap.flag := 0; bmesh_idmap.maxid := 2;
     bmesh_idmap.cd_id_off := replicate 15 (-1);
     bmesh_idmap.bm := 4096;
     bmesh_idmap.map := [NULL; 8192];
     bmesh_idmap.map_size := 2;
     bmesh_idmap.freelist := [];
     bmesh_idmap.free_idx_map := None |}.

(** A mesh holding one vertex at address 12288 whose stored id is 1. *)
Definition mesh_one_vert : bmesh_idmap.BMesh :=
  λ p, if bool_decide (p = 12288)
       then Some {| bmesh_idmap.htype := 1; bmesh_idmap.cd_int := λ _, 1 |}
       else None.

(** A shader interface that resolves every name to slot 3. *)
Definition sample_shader_interface : ShaderInterface :=
  {| GPU_shader_get_uniform := λ _ _, 3;
     GPU_shader_get_ssbo := λ _ _, 3;
     GPU_shader_get_uniform_block_binding := λ _ _, 3;
     GPU_shader_get_texture_binding := λ _ _, 3 |}.

Definition sample_draw_cache : DrawCache :=
  {| drw_cache_procedural_points_get := 101;
     drw_cache_procedural_lines_get := 102;
     drw_cache_procedural_triangles_get := 103;
     drw_cache_procedural_triangle_strips_get := 104;
     GPU_SAMPLER_MAX := 255;
     GPU_COLOR_BIT := 1;
     GPU_DEPTH_BIT := 2;
     GPU_STENCIL_BIT := 4 |}.

(** The float 1.0 and the 4x4 identity matrix, row by row. *)
Definition float_one : float := S754_finite false 8388608 (-23).
Definition float_zero : float := S754_zero false.
Definition identity_matrix : list float :=
  [ float_one; float_zero; float_zero; float_zero;
    float_zero; float_one; float_zero; float_zero;
    float_zero; float_zero; float_one; float_zero;
    float_zero; float_zero; float_zero; float_one ].

(** A pass with a bound shader and nothing recorded. *)
Definition sample_pass : PassBase := PassBase_new "sample" 4096.

(** A device that logs the type of every executed command. *)
Definition log_execute (ty : command.Type_) (cmd : list command.Undetermined)
    (log : list command.Type_) : list command.Type_ :=
  log ++ [ty].


(** Material services over a manager that records the acquired textures:
    every material has the shader 4096, no texture and no uniform buffer. *)
Definition sample_material_services : MaterialServices (list ptr) :=
  {| GPU_material_get_pass := λ material, material;
     GPU_pass_shader_get := λ _, 4096;
     GPU_material_textures := λ _, [];
     GPU_material_uniform_buffer_get := λ _, NULL;
     GPU_UBO_BLOCK_NAME := "node_tree";
     BKE_image_get_gpu_tiles := λ ima _, ima + 1;
     BKE_image_get_gpu_tilemap := λ ima _, ima + 2;
     BKE_image_get_gpu_texture := λ ima _, ima;
     acquire_texture := λ manager texture, texture :: manager |}.

(** A fresh root pass over a [DrawCommandBuf]. *)
Definition sample_root : Pass DrawCommandBuf :=
  Pass_new "root" DrawCommandBuf_new.


(** The scenario of the specification: a shader, a uniform buffer and a
    draw of five instances on the root, then a sub-pass holding only a
    draw of zero instances. *)
Definition scenario_calls : list (PassRef * RecordOp) :=
  [ (Root, op_shader_set 4096);
    (Root, op_bind_ubo false "Block" 8192);
    (Root, op_draw 12288 5 uint_minus_1 uint_minus_1 0);
    (Root, op_sub "inner");
    (Sub 0, op_draw 16384 0 uint_minus_1 uint_minus_1 0) ].

Definition scenario_recording : option (list ptr * Pass DrawCommandBuf) :=
  @record_all sample_shader_interface sample_draw_cache DrawCommandBuf _
    (list ptr) sample_material_services false scenario_calls
    ([], Pass_init sample_root).

Definition scenario_state : list ptr * Pass DrawCommandBuf :=
  default ([], sample_root) scenario_recording.


(** A sortable pass and two sequences of keyed additions: one with the
    sorting values 3, 1, 3, and one where two values are NaN. *)
Definition sample_sortable : PassSortable DrawCommandBuf :=
  PassSortable_new "transparent" DrawCommandBuf_new.

Definition float_three : float := S754_finite false 12582912 (-22).

Definition keyed_adds : list (string * float) :=
  [ ("far", float_three); ("near", float_one); ("far too", float_three) ].



(** Command serializers that print the kind of the command. *)
Definition sample_cmd_serialize (ty : command.Type_)
    (cmd : list command.Undetermined) : string :=
  match ty with
  | command.ShaderBind => ".shader_bind"
  | command.ResourceBind => ".bind"
  | command.Draw => ".draw"
  | _ => ".command"
  end.

Definition sample_draw_multi_serialize (cmd : list command.Undetermined)
    (line_prefix : string) : string :=
  line_prefix +:+ ".draw_multi" +:+ endl.


(** A mesh in which the vertex with id 1 is found at its old address 8192
    and at its new address 12288. *)
Definition mesh_moved_vert : bmesh_idmap.BMesh :=
  λ p, if bool_decide (p = 8192 ∨ p = 12288)
       then Some {| bmesh_idmap.htype := 1; bmesh_idmap.cd_int := λ _, 1 |}
       else None.

(** A root pass with a bound shader and nothing recorded. *)
Definition sample_bound_root : Pass DrawCommandBuf :=
  {| base := sample_pass; sub_passes_main_ := SubPassVector.Build [];
     draw_commands_buf_main_ := DrawCommandBuf_new |}.

(** The sortable pass after the keyed additions. *)
Definition sample_keyed_pass : PassSortable DrawCommandBuf :=
  default sample_sortable
    (PassSortable_sub_all keyed_adds (PassSortable_init sample_sortable)).

(** A sortable pass with one keyed sub-pass and a sub-pass created inside
    it with [PassBase::sub]. *)
Definition sample_nested_pass : PassSortable DrawCommandBuf :=
  default sample_sortable
    (ps ← PassSortable_sub_all [("a", float_three)]
            (PassSortable_init sample_sortable);
     '(p, _) ← sub "nested" (Sub 0) (pass_main ps);
     Some {| pass_main := p; sorting_values_ := sorting_values_ ps;
             sorted_ := sorted_ ps |}).

(** A keyed recording: two keyed sub-passes and a call on each. *)
Definition sample_keyed_calls : list SortableCall :=
  [ call_sub "far" float_three;
    call_on_sub 0 (op_shader_set 4096);
    call_sub "near" float_one;
    call_on_sub 1 (op_state_set 1) ].


(** A tree whose first sub-pass holds a command, and calls recorded after
    it: a second sub-pass, a barrier and a nested sub-pass in the first
    one, a state in the second one. *)
Definition sample_tree_state : list ptr * Pass DrawCommandBuf :=
  default ([], sample_root)
    (@record_all sample_shader_interface sample_draw_cache DrawCommandBuf _
       (list ptr) sample_material_services false
       [ (Root, op_sub "first"); (Sub 0, op_state_set 1) ]
       ([], Pass_init sample_root)).

Definition sample_later_calls : list (PassRef * RecordOp) :=
  [ (Root, op_sub "second");
    (Sub 0, op_barrier 1);
    (Sub 0, op_sub "nested");
    (Sub 1, op_state_set 2) ].

(** * Properties *)

(** ** Vectors *)

Lemma vec_at_Some {A} (l : list A) (i : nat) x :
  l !! i = Some x → vec_at l (Z.of_nat i) = Some x.
Proof.
  intros H. unfold vec_at. rewrite bool_decide_eq_false_2 by lia.
  by rewrite Nat2Z.id.
Qed.

Lemma vec_at_nil {A} (i : Z) : vec_at (@nil A) i = None.
Proof. unfold vec_at. case_bool_decide; [done|]. by rewrite lookup_nil. Qed.

Lemma vec_at_nonneg {A} (l : list A) (i : Z) :
  0 ≤ i → vec_at l i = l !! Z.to_nat i.
Proof. intros. unfold vec_at. by rewrite bool_decide_eq_false_2 by lia. Qed.

Lemma vec_set_Some {A} (l l' : list A) (i : Z) (x : A) :
  vec_set l i x = Some l' →
  0 ≤ i < vec_size l ∧ l' = <[Z.to_nat i := x]> l.
Proof. unfold vec_set. case_bool_decide; [|done]. by intros [= <-]. Qed.

Lemma vec_at_lt {A} (l : list A) (i : Z) :
  0 ≤ i < vec_size l → is_Some (vec_at l i).
Proof.
  unfold vec_at, vec_size. intros [H0 H1].
  rewrite bool_decide_eq_false_2 by lia.
  apply lookup_lt_is_Some. lia.
Qed.

Lemma vec_at_is_Some {A} (l : list A) (i : Z) :
  is_Some (vec_at l i) → 0 ≤ i < vec_size l.
Proof.
  unfold vec_at, vec_size. case_bool_decide; intros Hs.
  - by destruct Hs.
  - apply lookup_lt_is_Some in Hs. lia.
Qed.


(** ** SubPassVector: indices are stable *)

Section SubPassVectorFacts.
Context {T : Type}.
Variable block_size : Z.
Hypothesis block_size_pos : 1 ≤ block_size.

Local Abbreviation vector := (SubPassVector.t T).
Local Abbreviation append_and_get_index := (SubPassVector.append_and_get_index block_size).
Local Abbreviation append_all := (SubPassVector.append_all block_size).
Local Abbreviation at_ := (SubPassVector.at_ block_size).
Local Abbreviation shaped := (SubPassVector.shaped block_size).
Local Abbreviation elements := SubPassVector.elements.

Lemma full_blocks_length (full : list (list T)) :
  Forall (λ b, vec_size b = block_size) full →
  vec_size (concat full) = vec_size full * block_size.
Proof.
  unfold vec_size. induction 1 as [|b full Hb _ IH]; simpl; [lia|].
  rewrite length_app. lia.
Qed.

(** Two-level indexing of a block list agrees with indexing the
    concatenation, when all blocks but the last are full. *)
Lemma blocks_lookup (n : nat) (full : list (list T)) (lastb : list T) (i : nat) :
  (0 < n)%nat →
  Forall (λ b, length b = n) full →
  (length lastb ≤ n)%nat →
  ((full ++ [lastb]) !! (i / n)%nat) ≫= (λ b, b !! (i mod n)%nat)
  = concat (full ++ [lastb]) !! i.
Proof.
  intros Hn Hfull Hlast. revert i.
  induction Hfull as [|b full Hb _ IH]; intros i; simpl.
  - rewrite app_nil_r. destruct (decide (i < n)%nat) as [Hi|Hi].
    + rewrite Nat.div_small, Nat.mod_small by done. done.
    + assert (1 ≤ i / n)%nat as Hq
        by (apply Nat.div_le_lower_bound; lia).
      destruct (i / n)%nat as [|q] eqn:Eq; [lia|]. simpl.
      symmetry. apply lookup_ge_None. lia.
  - destruct (decide (i < n)%nat) as [Hi|Hi].
    + rewrite Nat.div_small, Nat.mod_small by done. simpl.
      rewrite lookup_app_l by lia. done.
    + destruct (Nat.le_exists_sub n i) as (j & -> & _); [lia|].
      rewrite lookup_app_r by lia.
      rewrite Hb, Nat.add_sub, <- IH.
      replace (j + n)%nat with (j + 1 * n)%nat by lia.
      rewrite Nat.div_add, Nat.Div0.mod_add by lia.
      by rewrite Nat.add_1_r.
Qed.

Lemma shaped_at (v : vector) (i : nat) :
  shaped v → at_ v (Z.of_nat i) = elements v !! i.
Proof.
  intros [Hnil|(full & lastb & Hv & Hfull & Hlast)];
    unfold SubPassVector.at_, SubPassVector.elements.
  - rewrite Hnil. simpl. by rewrite lookup_nil, vec_at_nil.
  - rewrite Hv. unfold vec_size in *.
    rewrite Z.quot_div_nonneg, Z.rem_mod_nonneg by lia.
    pose proof (Z.mod_pos_bound (Z.of_nat i) block_size) as Hmod.
    pose proof (Z.div_pos (Z.of_nat i) block_size) as Hdiv.
    rewrite vec_at_nonneg by lia.
    rewrite <- (blocks_lookup (Z.to_nat block_size)); [|lia| |lia].
    + replace (Z.to_nat (Z.of_nat i `div` block_size))
        with (i / Z.to_nat block_size)%nat.
      2:{ rewrite <- (Nat2Z.id (i / Z.to_nat block_size)).
          f_equal. rewrite Nat2Z.inj_div. f_equal. lia. }
      destruct ((full ++ [lastb]) !! (i / Z.to_nat block_size)%nat);
        simpl; [|done].
      rewrite vec_at_nonneg by lia.
      f_equal. rewrite <- (Nat2Z.id (i mod Z.to_nat block_size)).
      f_equal. rewrite Nat2Z.inj_mod. f_equal. lia.
    + eapply Forall_impl; [exact Hfull|]. simpl. intros; lia.
Qed.

Lemma append_and_get_index_spec (v : vector) (e : T) :
  shaped v →
  shaped (append_and_get_index v e).1 ∧
  elements (append_and_get_index v e).1 = elements v ++ [e] ∧
  (append_and_get_index v e).2 = vec_size (elements v).
Proof.
  intros [Hnil|(full & lastb & Hv & Hfull & Hlast)];
    unfold SubPassVector.append_and_get_index, SubPassVector.elements,
      SubPassVector.shaped; simpl.
  - rewrite Hnil. simpl. split_and!; [|done|unfold vec_size; simpl; lia].
    right. exists [], [e]. split_and!; [done|constructor|..];
      unfold vec_size; simpl; lia.
  - rewrite Hv, last_snoc.
    pose proof (full_blocks_length full Hfull) as Hlen.
    case_bool_decide as Hsz.
    + rewrite last_snoc. simpl.
      replace (pred (length ((full ++ [lastb]) ++ [[]])))
        with (length (full ++ [lastb]) + 0)%nat
        by (rewrite !length_app; simpl; lia).
      rewrite alter_app_r. simpl. split_and!.
      * right. exists (full ++ [lastb]), [e].
        split_and!; [done| |unfold vec_size; simpl; lia..].
        apply Forall_app. split; [done|]. by constructor.
      * rewrite !concat_app. simpl. by rewrite !app_nil_r.
      * rewrite concat_app. simpl. rewrite app_nil_r.
        unfold vec_size in *. rewrite !length_app. simpl. lia.
    + rewrite last_snoc. simpl.
      replace (pred (length (full ++ [lastb])))
        with (length full + 0)%nat
        by (rewrite !length_app; simpl; lia).
      rewrite alter_app_r. simpl. split_and!.
      * right. exists full, (lastb ++ [e]).
        split_and!; [done|done|unfold vec_size in *..];
          rewrite length_app; simpl; lia.
      * rewrite !concat_app. simpl. by rewrite !app_nil_r, app_assoc.
      * rewrite concat_app. simpl. rewrite app_nil_r.
        unfold vec_size in *. rewrite !length_app. simpl. lia.
Qed.

(** Indexing with any signed index is indexing the element sequence. *)
Lemma at_elements (v : vector) (i : Z) :
  shaped v → at_ v i = vec_at (elements v) i.
Proof.
  intros Hv. destruct (decide (0 ≤ i)) as [Hi|Hi].
  - rewrite <- (Z2Nat.id i) by done. rewrite shaped_at by done.
    by rewrite vec_at_nonneg, Nat2Z.id by lia.
  - unfold SubPassVector.at_, vec_at at 3.
    rewrite bool_decide_eq_true_2 by lia.
    destruct (vec_at _ (i `quot` block_size)) as [b|] eqn:Hb; simpl; [|done].
    apply mk_is_Some, vec_at_is_Some in Hb.
    assert (i `quot` block_size = 0) as Hq.
    { pose proof (Z.quot_le_mono i 0 block_size). rewrite Z.quot_0_l in * by lia.
      lia. }
    assert (i `rem` block_size = i) as Hr.
    { pose proof (Z.quot_rem i block_size). lia. }
    unfold vec_at. rewrite Hr. by rewrite bool_decide_eq_true_2 by lia.
Qed.

Lemma update_spec (v v' : vector) (i : Z) (x : T) :
  shaped v → SubPassVector.update block_size v i x = Some v' →
  shaped v' ∧ elements v' = <[Z.to_nat i := x]> (elements v)
  ∧ 0 ≤ i < vec_size (elements v).
Proof.
  intros Hv Hup.
  assert (0 ≤ i < vec_size (elements v)) as Hi.
  { apply vec_at_is_Some. rewrite <- at_elements by done.
    unfold SubPassVector.update, SubPassVector.at_ in *.
    destruct (vec_at _ (i `quot` block_size)) as [b|]; simpl in *; [|done].
    destruct (vec_set b _ x) as [b'|] eqn:Hset; simpl in Hup; [|done].
    unfold vec_set in Hset. case_bool_decide as Hr; [|done].
    by apply vec_at_lt. }
  revert Hup. unfold SubPassVector.update.
  rewrite Z.quot_div_nonneg, Z.rem_mod_nonneg by lia.
  pose proof (Z.mod_pos_bound i block_size) as Hmod.
  pose proof (Z.div_pos i block_size) as Hdiv.
  destruct (vec_at _ (i `div` block_size)) as [b|] eqn:Hb; simpl; [|done].
  destruct (vec_set b _ x) as [b'|] eqn:Hset; simpl; [|done].
  apply vec_set_Some in Hset as [Hr ->].
  destruct (vec_set _ _ _) as [blocks|] eqn:Hset; simpl; [|done].
  apply vec_set_Some in Hset as [Hq ->]. intros [= <-].
  rewrite vec_at_nonneg in Hb by lia.
  destruct Hv as [Hnil|(full & lastb & Hblocks & Hfull & Hlast)].
  { rewrite Hnil in Hb. by rewrite lookup_nil in Hb. }
  assert (∀ (full' : list (list T)) (lastb' : list T),
    length full' = length full →
    Forall (λ b, vec_size b = block_size) full' →
    vec_size lastb' = vec_size lastb →
    ∀ j : nat, concat (full' ++ [lastb']) !! j
    = (full' ++ [lastb']) !! (j / Z.to_nat block_size)%nat
        ≫= (λ b, b !! (j mod Z.to_nat block_size)%nat)) as Hlook.
  { intros full' lastb' _ Hf' Hl' j. symmetry. unfold vec_size in *.
    apply blocks_lookup; [lia| |lia].
    eapply Forall_impl; [exact Hf'|]. simpl. intros; lia. }
  set (q := Z.to_nat (i `div` block_size)) in *.
  set (r := Z.to_nat (i `mod` block_size)) in *.
  set (n := Z.to_nat block_size) in *.
  assert (Z.to_nat i = q * n + r)%nat as Hqr.
  { subst q r n. rewrite <- Z2Nat.inj_mul, <- Z2Nat.inj_add by lia.
    f_equal. pose proof (Z.div_mod i block_size). lia. }
  assert (r < n)%nat as Hrn by (subst r n; lia).
  assert (∃ (full' : list (list T)) (lastb' : list T),
    <[q := <[r := x]> b]> (SubPassVector.blocks_ v) = full' ++ [lastb']
    ∧ length full' = length full
    ∧ Forall (λ b, vec_size b = block_size) full'
    ∧ vec_size lastb' = vec_size lastb) as (full' & lastb' & Hb' & Hlf & Hf' & Hl').
  { rewrite Hblocks in Hb |- *.
    destruct (decide (q < length full)%nat) as [Hlt|Hge].
    - exists (<[q := <[r := x]> b]> full), lastb.
      rewrite lookup_app_l in Hb by done.
      split_and!; [by rewrite insert_app_l|by rewrite length_insert| |done].
      apply Forall_insert; [done|]. unfold vec_size. rewrite length_insert.
      by eapply (Forall_lookup_1 _ _ _ _ Hfull Hb).
    - assert (q = length full + 0)%nat as Hq0.
      { apply lookup_lt_Some in Hb. rewrite length_app in Hb. simpl in Hb. lia. }
      rewrite Hq0 in Hb |- *. rewrite lookup_app_r in Hb by lia.
      replace (length full + 0 - length full)%nat with 0%nat in Hb by lia.
      simpl in Hb. injection Hb as <-.
      exists full, (<[r := x]> lastb).
      split_and!; [by rewrite insert_app_r|done|done|].
      unfold vec_size. by rewrite length_insert. }
  split_and!; [|..].
  - right. exists full', lastb'. simpl. split_and!; [done|done|lia..].
  - unfold SubPassVector.elements. simpl. rewrite Hb'.
    apply list_eq. intros j.
    rewrite (Hlook full' lastb') by done. rewrite <- Hb'.
    destruct (decide (j = Z.to_nat i)) as [->|Hne].
    + rewrite list_lookup_insert_eq
        by (unfold vec_size, SubPassVector.elements in Hi; lia).
      rewrite Hqr.
      rewrite Nat.div_add_l, Nat.div_small, Nat.add_0_r by lia.
      rewrite Nat.add_comm, Nat.Div0.mod_add, Nat.mod_small by lia.
      rewrite list_lookup_insert_eq by (by eapply lookup_lt_Some).
      simpl. apply list_lookup_insert_eq. unfold vec_size in Hr. lia.
    + rewrite (list_lookup_insert_ne (concat (SubPassVector.blocks_ v))
                 (Z.to_nat i) j) by congruence.
      rewrite Hblocks at 2. rewrite (Hlook full lastb) by done.
      rewrite <- Hblocks.
      destruct (decide (j / n = q)%nat) as [Hjq|Hjq].
      * rewrite Hjq, list_lookup_insert_eq by (by eapply lookup_lt_Some).
        rewrite Hb. simpl. apply list_lookup_insert_ne.
        intros Hjr. apply Hne. rewrite Hqr, Hjr, <- Hjq.
        pose proof (Nat.div_mod_eq j n). lia.
      * by rewrite list_lookup_insert_ne.
  - lia.
  - lia.
Qed.

Lemma update_is_Some (v : vector) (i : Z) (x : T) :
  shaped v → 0 ≤ i < vec_size (elements v) →
  is_Some (SubPassVector.update block_size v i x).
Proof.
  intros Hv Hi. pose proof (vec_at_lt _ _ Hi) as Hat.
  rewrite <- at_elements in Hat by done.
  unfold SubPassVector.at_, SubPassVector.update in *.
  destruct (vec_at _ (i `quot` block_size)) as [b|] eqn:Hb; simpl in *;
    [|by destruct Hat].
  apply vec_at_is_Some in Hat. apply mk_is_Some, vec_at_is_Some in Hb.
  unfold vec_set. rewrite !bool_decide_eq_true_2 by done. by simpl.
Qed.

Lemma clear_shaped (v : vector) : shaped (SubPassVector.clear v).
Proof. by left. Qed.

Lemma append_all_cons (v : vector) (e : T) (rest : list T) :
  append_all v (e :: rest)
  = ((append_all (append_and_get_index v e).1 rest).1,
     (append_and_get_index v e).2
       :: (append_all (append_and_get_index v e).1 rest).2).
Proof.
  cbn [SubPassVector.append_all].
  destruct (append_and_get_index v e) as [v1 i]; simpl.
  by destruct (append_all v1 rest).
Qed.

Lemma append_all_spec (v : vector) (elems : list T) :
  shaped v →
  shaped (append_all v elems).1 ∧
  elements (append_all v elems).1 = elements v ++ elems ∧
  (append_all v elems).2
  = (λ k : nat, vec_size (elements v) + Z.of_nat k) <$> seq 0 (length elems).
Proof.
  revert v. induction elems as [|e rest IH]; intros v Hv.
  - simpl. by rewrite app_nil_r.
  - rewrite append_all_cons.
    destruct (append_and_get_index_spec v e Hv) as (Hs & He & Hi).
    destruct (append_and_get_index v e) as [v1 i]. simpl in *.
    destruct (IH v1 Hs) as (Hs2 & He2 & Hi2).
    destruct (append_all v1 rest) as [v2 indices]. simpl in *.
    split_and!; [done|by rewrite He2, He, <- app_assoc|].
    rewrite Hi, Hi2, He. f_equal; [lia|].
    rewrite <- fmap_S_seq, <- list_fmap_compose.
    apply list_fmap_ext. intros _ k _. simpl.
    unfold vec_size. rewrite length_app. simpl. lia.
Qed.

End SubPassVectorFacts.

(** C9. Starting from an empty [SubPassVector] with a block size of at
    least 1, the n-th call of [append_and_get_index] returns n-1, and the
    element stored under a returned index is still found there, unchanged,
    after the remaining appends and after any number of further ones. *)
Theorem SubPassVector_indices_stable {T : Type} (block_size : Z)
    (v0 : SubPassVector.t T) (elems more : list T) :
  1 ≤ block_size →
  let v := (SubPassVector.append_all block_size (SubPassVector.clear v0) elems).1 in
  let v' := (SubPassVector.append_all block_size v more).1 in
  (SubPassVector.append_all block_size (SubPassVector.clear v0) elems).2
    = Z.of_nat <$> seq 0 (length elems)
  ∧ ∀ (n : nat) (x : T),
      elems !! n = Some x →
      SubPassVector.at_ block_size v (Z.of_nat n) = Some x
      ∧ SubPassVector.at_ block_size v' (Z.of_nat n) = Some x.
Proof.
  intros Hbs v v'.
  destruct (append_all_spec block_size Hbs (SubPassVector.clear v0) elems)
    as (Hs & He & Hi); [by left|].
  destruct (append_all_spec block_size Hbs v more) as (Hs' & He' & _); [done|].
  split.
  - rewrite Hi. apply list_fmap_ext. intros _ k _.
    unfold vec_size. simpl. lia.
  - intros n x Hn. subst v v'.
    rewrite !shaped_at by done. rewrite He', He. simpl.
    split; [done|]. by apply lookup_app_l_Some.
Qed.

Lemma SubPassVector_indices_stable_witness :
  1 ≤ 2 ∧
  SubPassVector.at_ 2
    (SubPassVector.append_all 2
       (SubPassVector.append_all 2 (SubPassVector.clear (SubPassVector.Build []))
          [10%nat; 11%nat; 12%nat]).1 [13%nat; 14%nat]).1 (Z.of_nat 2)
  = Some 12%nat.
Proof.
  split; [lia|].
  apply (SubPassVector_indices_stable 2 (SubPassVector.Build [])
           [10%nat; 11%nat; 12%nat] [13%nat; 14%nat]); [lia|reflexivity].
Defined.

(** ** The id map *)

Section IdMapFacts.
Import bmesh_idmap.

Lemma vec_set_lookup {A} (l l' : list A) (i : Z) (x : A) :
  vec_set l i x = Some l' →
  vec_size l' = vec_size l ∧ vec_at l' i = Some x
  ∧ ∀ j, j ≠ i → vec_at l' j = vec_at l j.
Proof.
  unfold vec_set. case_bool_decide as Hi; [|done]. intros [= <-].
  unfold vec_size in *. split_and!.
  - by rewrite length_insert.
  - rewrite vec_at_nonneg by lia. apply list_lookup_insert_eq. lia.
  - intros j Hj. unfold vec_at. case_bool_decide; [done|].
    apply list_lookup_insert_ne. lia.
Qed.

(** A negative id is answered with [NULL] without touching the array. *)
Lemma BM_idmap_lookup_negative (idmap : BMIdMap) (id : Z) :
  id < 0 → BM_idmap_lookup idmap id = Some NULL.
Proof.
  intros. unfold BM_idmap_lookup. by rewrite bool_decide_eq_false_2 by lia.
Qed.

(** An id inside the array is answered with the entry. *)
Lemma BM_idmap_lookup_in_range (idmap : BMIdMap) (id : Z) :
  allocated idmap → 0 ≤ id < map_size idmap →
  BM_idmap_lookup idmap id = map idmap !! Z.to_nat id
  ∧ is_Some (BM_idmap_lookup idmap id).
Proof.
  unfold allocated, BM_idmap_lookup. intros Ha Hid.
  rewrite bool_decide_eq_true_2 by lia. split.
  - apply vec_at_nonneg. lia.
  - apply vec_at_lt. lia.
Qed.

(** An id at or past the end of the array makes [BM_idmap_lookup] read
    outside the allocation: there is no upper bound check. *)
Lemma BM_idmap_lookup_past_end (idmap : BMIdMap) (id : Z) :
  allocated idmap → map_size idmap ≤ id → 0 ≤ id →
  BM_idmap_lookup idmap id = None.
Proof.
  unfold allocated, BM_idmap_lookup, vec_size. intros Ha Hid H0.
  rewrite bool_decide_eq_true_2 by lia.
  rewrite vec_at_nonneg by lia. apply lookup_ge_None. lia.
Qed.

End IdMapFacts.

(** C3. Lookup of an id outside the dense array should return null; for
    the id 2 in a map of size 2 [BM_idmap_lookup] instead reads
    [map->map[2]], one entry past the allocation, while the negative id -1
    is answered with [NULL]. *)
Theorem BM_idmap_lookup_reads_past_end :
  bmesh_idmap.allocated idmap_two_entries
  ∧ bmesh_idmap.map_size idmap_two_entries ≤ 2
  ∧ bmesh_idmap.BM_idmap_lookup idmap_two_entries 2 = None
  ∧ bmesh_idmap.BM_idmap_lookup idmap_two_entries 2 ≠ Some NULL
  ∧ bmesh_idmap.BM_idmap_lookup idmap_two_entries (-1) = Some NULL.
Proof. by split_and!. Qed.

(** C7. When the id stored in the relocated object lies in
    [0, map_size), [BM_idmap_on_elem_moved] succeeds, afterwards lookup of
    that id returns the new reference, the size is unchanged, and lookup of
    every other id gives what it gave before. *)
Theorem BM_idmap_on_elem_moved_repoints (mesh : bmesh_idmap.BMesh)
    (idmap : bmesh_idmap.BMIdMap) (old_elem new_elem : ptr) (id : Z) :
  bmesh_idmap.allocated idmap →
  bmesh_idmap.BM_idmap_get_id mesh idmap new_elem = Some id →
  0 ≤ id < bmesh_idmap.map_size idmap →
  ∃ idmap',
    bmesh_idmap.BM_idmap_on_elem_moved mesh idmap old_elem new_elem = Some idmap'
    ∧ bmesh_idmap.BM_idmap_get_id mesh idmap' new_elem = Some id
    ∧ bmesh_idmap.BM_idmap_lookup idmap' id = Some new_elem
    ∧ bmesh_idmap.map_size idmap' = bmesh_idmap.map_size idmap
    ∧ ∀ other, other ≠ id →
        bmesh_idmap.BM_idmap_lookup idmap' other
        = bmesh_idmap.BM_idmap_lookup idmap other.
Proof.
  intros Ha Hid Hrange.
  unfold bmesh_idmap.BM_idmap_on_elem_moved. rewrite Hid. simpl.
  rewrite !bool_decide_eq_true_2 by lia. simpl.
  destruct (vec_set (bmesh_idmap.map idmap) id new_elem) as [map'|] eqn:Hset.
  2:{ unfold vec_set in Hset. unfold bmesh_idmap.allocated in Ha.
      rewrite bool_decide_eq_true_2 in Hset by lia. done. }
  destruct (vec_set_lookup _ _ _ _ Hset) as (Hlen & Hat & Hother).
  eexists. split; [reflexivity|]. simpl. split_and!.
  - exact Hid.
  - unfold bmesh_idmap.BM_idmap_lookup. simpl.
    by rewrite bool_decide_eq_true_2 by lia.
  - done.
  - intros other Hne. unfold bmesh_idmap.BM_idmap_lookup. simpl.
    case_bool_decide; [|done]. by apply Hother.
Qed.

Lemma BM_idmap_on_elem_moved_repoints_witness :
  ∃ idmap',
    bmesh_idmap.BM_idmap_on_elem_moved mesh_one_vert idmap_two_entries 8192 12288
    = Some idmap'
    ∧ bmesh_idmap.BM_idmap_get_id mesh_one_vert idmap' 12288 = Some 1
    ∧ bmesh_idmap.BM_idmap_lookup idmap' 1 = Some 12288
    ∧ bmesh_idmap.map_size idmap' = bmesh_idmap.map_size idmap_two_entries
    ∧ ∀ other, other ≠ 1 →
        bmesh_idmap.BM_idmap_lookup idmap' other
        = bmesh_idmap.BM_idmap_lookup idmap_two_entries other.
Proof.
  apply (BM_idmap_on_elem_moved_repoints mesh_one_vert idmap_two_entries
           8192 12288 1).
  - reflexivity.
  - reflexivity.
  - simpl. lia.
Defined.

(** ** Recording into one pass *)

Section PassBaseFacts.
Import command.

Lemma uint_range (x : Z) : 0 ≤ uint x < 2 ^ 32.
Proof. unfold uint. apply Z.mod_pos_bound. lia. Qed.

Lemma uint_le (x : Z) : 0 ≤ x → uint x ≤ x.
Proof. unfold uint. intros. apply Z.mod_le; lia. Qed.

Lemma uint_small (x : Z) : 0 ≤ x < 2 ^ 32 → uint x = x.
Proof. unfold uint. intros. by apply Z.mod_small. Qed.

(** [create_command] followed by the assignment appends one header and
    the command. *)
Lemma record_command_eq (ty : Type_) (cmd : Undetermined) (self : PassBase) :
  record_command ty cmd self
  = Some {| headers_ := headers_ self
                          ++ [{| type := ty; index := uint (vec_size (commands_ self)) |}];
            commands_ := commands_ self ++ [cmd];
            shader_ := shader_ self;
            debug_name := debug_name self |}.
Proof.
  unfold record_command, create_command, Vector_append_and_get_index, assign.
  simpl. unfold vec_set, vec_size.
  rewrite bool_decide_eq_true_2 by (rewrite length_app; simpl; lia).
  simpl. rewrite Nat2Z.id. do 2 f_equal.
  rewrite <- (Nat.add_0_r (length (commands_ self))).
  by rewrite insert_app_r.
Qed.

Lemma push_constant_float4x4_eq `{ShaderInterface} (name : string)
    (data : list float) (self : PassBase) :
  push_constant_float4x4 name data self
  = Some
      {| headers_ :=
           headers_ self
           ++ [ {| type := PushConstant; index := uint (vec_size (commands_ self)) |};
                {| type := None_; index := uint (vec_size (commands_ self) + 1) |};
                {| type := None_; index := uint (vec_size (commands_ self) + 2) |} ];
         commands_ :=
           commands_ self
           ++ [ push_constant
                  {| location := GPU_shader_get_uniform (shader_ self) name;
                     array_len := 1; comp_len := 16; pc_type := FloatValue;
                     value := floats (take 4 data) |};
                storage (take 6 (drop 4 data));
                storage (take 6 (drop 10 data)) ];
         shader_ := shader_ self;
         debug_name := debug_name self |}.
Proof.
  unfold push_constant_float4x4, push_constant_offset.
  rewrite record_command_eq. cbn [mbind option_bind].
  rewrite record_command_eq. cbn [mbind option_bind].
  rewrite record_command_eq.
  cbn [headers_ commands_ shader_ debug_name].
  rewrite <- !app_assoc. unfold vec_size. rewrite !length_app.
  cbn [length app]. do 4 f_equal.
  do 3 f_equal; [f_equal; lia|]. do 3 f_equal. lia.
Qed.

End PassBaseFacts.

(** ** The matrix push constant *)

Lemma command_ref_lt (commands : list command.Undetermined) (i : Z) :
  0 ≤ i < vec_size commands →
  command_ref commands i = Some (drop (Z.to_nat i) commands).
Proof.
  intros Hi. unfold command_ref.
  by destruct (vec_at_lt _ _ Hi) as [c ->].
Qed.



(** ** Calls with a zero count *)

(** A dispatch of zero work groups is recorded like any other: it is not
    true that a dispatch with a zero count leaves the length of the
    streams unchanged. *)
Lemma dispatch_zero_count_recorded :
  ¬ (∀ (ndebug : bool) (group_len : Z * Z * Z) (self self' : PassBase),
       group_len = (0, 0, 0) →
       dispatch ndebug group_len self = Some self' →
       length (headers_ self') = length (headers_ self)
       ∧ length (commands_ self') = length (commands_ self)).
Proof.
  intros Hall.
  destruct (Hall false (0, 0, 0) sample_pass
              {| headers_ := [ {| command.type := command.Dispatch;
                                  command.index := 0 |} ];
                 commands_ := [ command.dispatch false (0, 0, 0) NULL ];
                 shader_ := 4096; debug_name := "sample" |}
              eq_refl eq_refl) as [Hheaders _].
  discriminate Hheaders.
Qed.

(** C2, as the code has it. A [draw] or [draw_procedural] call with an
    instance count of 0 or a vertex count of 0 leaves the whole pass tree,
    and so every header and command stream, unchanged.  [dispatch] has no
    such check: whenever it returns it has appended exactly one [Dispatch]
    header and one command, whatever the group counts. *)
Theorem draw_zero_count_not_recorded `{DrawCache} {B : Type} `{DrawCommandBufType B}
    (ndebug : bool) (batch : ptr) (instance_len vertex_len vertex_first handle : Z)
    (r : PassRef) (p : Pass B) :
  instance_len = 0 ∨ vertex_len = 0 →
  draw ndebug batch instance_len vertex_len vertex_first handle r p = Some p
  ∧ (∀ primitive p',
       draw_procedural ndebug primitive instance_len vertex_len vertex_first
         handle r p = Some p' → p' = p)
  ∧ (∀ group_len self self',
       dispatch ndebug group_len self = Some self' →
       headers_ self'
       = headers_ self
         ++ [ {| command.type := command.Dispatch;
                 command.index := uint (vec_size (commands_ self)) |} ]
       ∧ commands_ self'
         = commands_ self ++ [ command.dispatch false group_len NULL ]).
Proof.
  intros Hzero.
  assert (draw ndebug batch instance_len vertex_len vertex_first handle r p
          = Some p) as Hdraw.
  { unfold draw. destruct Hzero as [-> | ->].
    - by rewrite bool_decide_eq_true_2.
    - rewrite (bool_decide_eq_true_2 (0 = 0)) by done.
      by rewrite orb_true_r. }
  split_and!.
  - exact Hdraw.
  - intros primitive p'. unfold draw_procedural.
    destruct (procedural_batch_get ndebug primitive) as [b|]; simpl; [|done].
    unfold draw. destruct Hzero as [-> | ->].
    + rewrite bool_decide_eq_true_2 by done. simpl. congruence.
    + rewrite (bool_decide_eq_true_2 (0 = 0)) by done.
      rewrite orb_true_r. congruence.
  - intros group_len self self'. unfold dispatch.
    destruct (BLI_assert ndebug _); simpl; [|done].
    rewrite record_command_eq. by intros [= <-].
Qed.

Lemma draw_zero_count_not_recorded_witness :
  (0 = 0 ∨ 3 = 0)
  ∧ @draw DrawCommandBuf _ false 8192 0 3 0 0 Root
      (Pass_new "sample" DrawCommandBuf_new)
    = Some (Pass_new "sample" DrawCommandBuf_new).
Proof.
  split; [by left|].
  apply (@draw_zero_count_not_recorded sample_draw_cache DrawCommandBuf _
           false 8192 0 3 0 0 Root (Pass_new "sample" DrawCommandBuf_new)).
  by left.
Defined.

(** ** Recording preserves the invariants *)

Section LocalPreservation.
Context `{ShaderInterface} `{DrawCache}.
Variable ndebug : bool.

Lemma extends_refl (self : PassBase) : extends self self.
Proof. exists []. by rewrite app_nil_r. Qed.

Lemma extends_trans (a b c : PassBase) : extends a b → extends b c → extends a c.
Proof.
  intros (ab & Hh1 & Hc1 & Ha1) (bc & Hh2 & Hc2 & Ha2).
  exists (ab ++ bc). split_and!.
  - by rewrite Hh2, Hh1, app_assoc.
  - lia.
  - apply Forall_app. split; [|done].
    eapply Forall_impl; [exact Ha1|]. simpl. intros h [? ?]. split; [done|lia].
Qed.

Lemma header_in_bounds_mono (nc nc' ns ns' : Z) (h : command.Header) :
  nc ≤ nc' → ns ≤ ns' → header_in_bounds nc ns h → header_in_bounds nc' ns' h.
Proof. unfold header_in_bounds. case_decide; lia. Qed.

Lemma pass_in_bounds_mono (ns ns' : Z) (self : PassBase) :
  ns ≤ ns' → pass_in_bounds ns self → pass_in_bounds ns' self.
Proof.
  intros Hns. unfold pass_in_bounds. intros Hold.
  eapply Forall_impl; [exact Hold|].
  intros h. by apply header_in_bounds_mono.
Qed.

Lemma extends_in_bounds (ns : Z) (self self' : PassBase) :
  extends self self' → pass_in_bounds ns self → pass_in_bounds ns self'.
Proof.
  intros (added & Hh & Hc & Ha). unfold pass_in_bounds. rewrite Hh.
  intros Hold. apply Forall_app. split.
  - eapply Forall_impl; [exact Hold|]. intros h.
    by apply header_in_bounds_mono.
  - eapply Forall_impl; [exact Ha|]. simpl. intros h [Hty Hi].
    unfold header_in_bounds. by rewrite decide_False.
Qed.

Lemma extends_descends (i : Z) (self self' : PassBase) :
  extends self self' → pass_descends i self → pass_descends i self'.
Proof.
  intros (added & Hh & Hc & Ha). unfold pass_descends. rewrite Hh.
  intros Hold. apply Forall_app. split; [done|].
  eapply Forall_impl; [exact Ha|]. simpl. by intros h [Hty _] ?.
Qed.

(** Recording one command into a pass with the same streams. *)
Lemma record_command_extends (ty : command.Type_) (cmd : command.Undetermined)
    (self0 self self' : PassBase) :
  ty ≠ command.SubPass →
  headers_ self0 = headers_ self → commands_ self0 = commands_ self →
  record_command ty cmd self0 = Some self' →
  extends self self'.
Proof.
  intros Hty Hh Hc. rewrite record_command_eq. intros [= <-].
  eexists. simpl. rewrite Hh, Hc. split; [reflexivity|].
  unfold vec_size. rewrite length_app. simpl. split; [lia|].
  constructor; [|done]. simpl. split; [done|].
  pose proof (uint_range (Z.of_nat (length (commands_ self)))).
  pose proof (uint_le (Z.of_nat (length (commands_ self)))). lia.
Qed.

Local Ltac record_extends :=
  repeat match goal with
  | |- context [BLI_assert ?b ?c] => destruct (BLI_assert b c); simpl; [|done]
  | |- context [procedural_batch_get ?b ?p] =>
      destruct (procedural_batch_get b p); simpl; [|done]
  end;
  (eapply record_command_extends; [done|simpl; reflexivity..]).

Lemma record_local_extends (op : RecordOp)
    (f : PassBase → option PassBase) (self self' : PassBase) :
  record_local ndebug op = Some f → f self = Some self' → extends self self'.
Proof.
  destruct op; simpl; intros [= <-]; try done;
    unfold clear_color, clear_depth, clear_stencil, clear_depth_stencil,
      clear_color_depth_stencil, pass_clear, state_set, state_stencil,
      shader_set, draw_procedural_indirect, draw_indirect, dispatch,
      dispatch_ref, dispatch_indirect, barrier,
      bind_image, bind_texture, bind_ssbo, bind_ubo,
      bind_image_slot, bind_texture_slot, bind_ssbo_slot, bind_ubo_slot,
      push_constant_bool, push_constant_floats, push_constant_ints,
      push_constant_float4x4_ref, push_constant_float_ref, push_constant_int_ref;
    try record_extends.
  (* the matrix overload appends three headers *)
  rewrite push_constant_float4x4_eq. intros [= <-].
  eexists. simpl. split; [reflexivity|].
  unfold vec_size. rewrite length_app. simpl. split; [lia|].
  pose proof (uint_range (Z.of_nat (length (commands_ self)))).
  pose proof (uint_le (Z.of_nat (length (commands_ self)))).
  pose proof (uint_range (Z.of_nat (length (commands_ self)) + 1)).
  pose proof (uint_le (Z.of_nat (length (commands_ self)) + 1)).
  pose proof (uint_range (Z.of_nat (length (commands_ self)) + 2)).
  pose proof (uint_le (Z.of_nat (length (commands_ self)) + 2)).
  repeat constructor; simpl; try done; lia.
Qed.

End LocalPreservation.

Section MaterialPreservation.
Context `{ShaderInterface} `{DrawCache} {Manager : Type} `{MaterialServices Manager}.

Lemma bind_texture_extends by_ref name texture state (self self' : PassBase) :
  bind_texture by_ref name texture state self = Some self' → extends self self'.
Proof.
  unfold bind_texture, bind_texture_slot.
  by eapply record_command_extends.
Qed.

Lemma material_bind_texture_extends (tex : GPUMaterialTexture)
    (manager manager' : Manager) (self self' : PassBase) :
  material_bind_texture tex (manager, self) = Some (manager', self') →
  extends self self'.
Proof.
  unfold material_bind_texture.
  repeat case_bool_decide.
  - destruct (bind_texture _ _ _ _ self) as [s1|] eqn:Hrec1; simpl; [|done].
    destruct (bind_texture _ _ _ _ s1) as [s2|] eqn:Hrec2; simpl; [|done].
    intros [= _ <-].
    eapply extends_trans; by eapply bind_texture_extends.
  - destruct (bind_texture _ _ _ _ self) as [s1|] eqn:Hrec1; simpl; [|done].
    intros [= _ <-]. by eapply bind_texture_extends.
  - destruct (colorband tex) as [texture|].
    + destruct (bind_texture _ _ _ _ self) as [s1|] eqn:Hrec1; simpl; [|done].
      intros [= _ <-]. by eapply bind_texture_extends.
    + intros [= _ <-]. apply extends_refl.
Qed.

Lemma material_set_extends (manager manager' : Manager) (material : ptr)
    (self self' : PassBase) :
  material_set manager material self = Some (manager', self') →
  extends self self'.
Proof.
  unfold material_set.
  destruct (shader_set _ self) as [s1|] eqn:Hrec1; simpl; [|done].
  assert (extends self s1) as E1.
  { revert Hrec1. unfold shader_set. by eapply record_command_extends. }
  destruct (for_each _ _ _) as [[m2 s2]|] eqn:Hrec2; simpl; [|done].
  assert (extends s1 s2) as E2.
  { clear Hrec1 E1. revert manager s1 Hrec2.
    induction (GPU_material_textures material) as [|tex rest IH];
      intros manager s1; cbn [for_each].
    - intros [= _ <-]. apply extends_refl.
    - destruct (material_bind_texture tex (manager, s1)) as [[m s]|] eqn:Hb;
        cbn [mbind option_bind]; [|done].
      intros Hrest. eapply extends_trans.
      + by eapply material_bind_texture_extends.
      + by eapply IH. }
  case_bool_decide.
  - destruct (bind_ubo _ _ _ s2) as [s3|] eqn:Hrec3; simpl; [|done].
    intros [= _ <-]. eapply extends_trans; [exact E1|].
    eapply extends_trans; [exact E2|].
    revert Hrec3. unfold bind_ubo, bind_ubo_slot.
    by eapply record_command_extends.
  - intros [= _ <-]. by eapply extends_trans.
Qed.

End MaterialPreservation.

Section TreePreservation.
Context `{ShaderInterface} `{DrawCache} {B : Type} `{DrawCommandBufType B}.
Context `{!DrawCommandBufLawful B}.
Context {Manager : Type} `{MaterialServices Manager}.
Variable ndebug : bool.

Local Abbreviation subs p := (sub_passes_main_ p).
Local Abbreviation elems p := (SubPassVector.elements (sub_passes_main_ p)).
Local Abbreviation nsubs p := (SubPassVector.size (sub_passes_main_ p)).
Local Abbreviation shaped p :=
  (SubPassVector.shaped sub_pass_block_size (sub_passes_main_ p)).

Lemma block_size_ok : 1 ≤ sub_pass_block_size.
Proof. unfold sub_pass_block_size. lia. Qed.

Lemma get_pass_Sub (p : Pass B) (i : Z) (self : PassBase) :
  shaped p → get_pass p (Sub i) = Some self →
  0 ≤ i < nsubs p ∧ elems p !! Z.to_nat i = Some self.
Proof.
  intros Hs. simpl. rewrite (at_elements _ block_size_ok) by done.
  intros Hat. pose proof (vec_at_is_Some _ _ (mk_is_Some _ _ Hat)) as Hi.
  split; [done|]. by rewrite vec_at_nonneg in Hat by lia.
Qed.

(** What [set_pass] changes. *)
Lemma set_pass_spec (p p' : Pass B) (r : PassRef) (self' : PassBase) :
  shaped p → set_pass p r self' = Some p' →
  shaped p' ∧ nsubs p' = nsubs p
  ∧ match r with
    | Root => base p' = self' ∧ elems p' = elems p
    | Sub i =>
        base p' = base p ∧ 0 ≤ i < nsubs p
        ∧ elems p' = <[Z.to_nat i := self']> (elems p)
    end.
Proof.
  intros Hs. destruct r as [|i]; simpl.
  - by intros [= <-].
  - destruct (SubPassVector.update _ _ _ _) as [v|] eqn:Hup; simpl; [|done].
    intros [= <-]. simpl.
    destruct (update_spec _ block_size_ok _ _ _ _ Hs Hup) as (Hs' & He & Hi).
    assert (SubPassVector.size v = nsubs p) as Hn.
    { unfold SubPassVector.size, vec_size. by rewrite He, length_insert. }
    split_and!; try done; unfold SubPassVector.size; lia.
Qed.

(** Replacing a pass by an extension of itself keeps the invariants. *)
Lemma set_pass_extends (p p' : Pass B) (r : PassRef) (self self' : PassBase) :
  tree_in_bounds p → get_pass p r = Some self → extends self self' →
  set_pass p r self' = Some p' →
  tree_in_bounds p' ∧ nsubs p' = nsubs p
  ∧ (tree_descends p → tree_descends p').
Proof.
  intros (Hs & Hb & Hsubs) Hget Hext Hset.
  destruct (set_pass_spec _ _ _ _ Hs Hset) as (Hs' & Hn & Hr).
  destruct r as [|i].
  - destruct Hr as [Hbase He]. injection Hget as <-.
    split_and!; [|done|].
    + split_and!; [done|..]; rewrite ?Hn, ?Hbase, ?He; [|done].
      by eapply extends_in_bounds.
    + unfold tree_descends. by rewrite He.
  - destruct Hr as (Hbase & Hi & He).
    destruct (get_pass_Sub _ _ _ Hs Hget) as [_ Hlook].
    split_and!; [|done|].
    + split_and!; [done|..]; rewrite ?Hn, ?Hbase, ?He; [done|].
      apply Forall_insert; [done|].
      eapply extends_in_bounds; [done|].
      by eapply (Forall_lookup_1 _ _ _ _ Hsubs).
    + unfold tree_descends. rewrite He. intros Hd j s.
      destruct (decide (j = Z.to_nat i)) as [->|Hne].
      * rewrite list_lookup_insert_eq by (by eapply lookup_lt_Some).
        intros [= <-]. eapply extends_descends; [done|]. by apply Hd.
      * rewrite list_lookup_insert_ne by done. apply Hd.
Qed.

Lemma on_pass_extends (f : PassBase → option PassBase) (r : PassRef)
    (p p' : Pass B) :
  (∀ self self', f self = Some self' → extends self self') →
  tree_in_bounds p → on_pass f r p = Some p' →
  tree_in_bounds p' ∧ nsubs p' = nsubs p
  ∧ (tree_descends p → tree_descends p').
Proof.
  intros Hf Hin. unfold on_pass.
  destruct (get_pass p r) as [self|] eqn:Hget; simpl; [|done].
  destruct (f self) as [self'|] eqn:Hfs; simpl; [|done].
  intros Hset. eapply set_pass_extends; eauto.
Qed.

Lemma with_sub_header_in_bounds (n : Z) (self : PassBase) :
  0 ≤ n → pass_in_bounds n self →
  pass_in_bounds (n + 1) (with_sub_header self n).
Proof.
  intros Hn Hb. unfold pass_in_bounds, with_sub_header. simpl.
  apply Forall_app. split.
  - eapply Forall_impl; [exact Hb|]. intros h.
    apply header_in_bounds_mono; lia.
  - constructor; [|done]. unfold header_in_bounds. simpl.
    pose proof (uint_range n). pose proof (uint_le n). lia.
Qed.

Lemma with_sub_header_descends (i n : Z) (self : PassBase) :
  i < n < 2 ^ 32 → 0 ≤ n → pass_descends i self →
  pass_descends i (with_sub_header self n).
Proof.
  intros Hi Hn Hd. unfold pass_descends, with_sub_header. simpl.
  apply Forall_app. split; [done|].
  constructor; [|done]. simpl. intros _. rewrite uint_small; lia.
Qed.

(** [sub] appends one sub-pass, whose index it returns, and one header. *)
Lemma sub_spec (name : string) (r r' : PassRef) (p p' : Pass B) :
  tree_in_bounds p → sub name r p = Some (p', r') →
  tree_in_bounds p' ∧ nsubs p' = nsubs p + 1 ∧ r' = Sub (nsubs p)
  ∧ (nsubs p < 2 ^ 32 → tree_descends p → tree_descends p').
Proof.
  intros (Hs & Hb & Hsubs). unfold sub.
  destruct (get_pass p r) as [self|] eqn:Hget; cbn [mbind option_bind]; [|done].
  destruct (append_and_get_index_spec _ block_size_ok (subs p)
              (PassBase_new name (shader_ self)) Hs) as (Hs1 & He1 & Hi1).
  destruct (SubPassVector.append_and_get_index _ _ _) as [subs1 index].
  simpl in Hs1, He1, Hi1. subst index.
  set (p1 := {| base := base p; sub_passes_main_ := subs1;
                draw_commands_buf_main_ := draw_commands_buf_main_ p |}).
  assert (get_pass p1 r = Some self) as Hget1.
  { destruct r as [|i]; [done|].
    destruct (get_pass_Sub _ _ _ Hs Hget) as [Hi Hlook]. simpl.
    rewrite (at_elements _ block_size_ok) by done.
    rewrite vec_at_nonneg by lia. rewrite He1.
    by apply lookup_app_l_Some. }
  fold p1. rewrite Hget1. cbn [mbind option_bind].
  fold (with_sub_header self (vec_size (elems p))).
  destruct (set_pass p1 r _) as [p2|] eqn:Hset; cbn [mbind option_bind]; [|done].
  destruct (get_pass p2 _) as [new|]; cbn [mbind option_bind]; [|done].
  intros [= <- <-].
  destruct (set_pass_spec p1 p2 r _ Hs1 Hset) as (Hs2 & Hn2 & Hr).
  assert (nsubs p1 = nsubs p + 1) as Hn1.
  { unfold SubPassVector.size, vec_size. simpl. rewrite He1, length_app.
    simpl. lia. }
  assert (0 ≤ nsubs p) as Hn0 by (unfold SubPassVector.size, vec_size; lia).
  assert (Forall (pass_in_bounds (nsubs p + 1)) (elems p1)) as Hsubs1.
  { simpl. rewrite He1. apply Forall_app. split.
    - eapply Forall_impl; [exact Hsubs|]. intros s.
      apply pass_in_bounds_mono. lia.
    - constructor; [|done]. by constructor. }
  assert (tree_descends p → tree_descends p1) as Hd1.
  { unfold tree_descends. simpl. rewrite He1. intros Hd j s Hj.
    apply lookup_app_Some in Hj as [Hj|[_ Hj]]; [by apply Hd|].
    destruct (j - length (elems p))%nat; [|done].
    injection Hj as <-. by constructor. }
  split_and!; [|lia|done|].
  - split_and!; [done|..]; rewrite Hn2, Hn1.
    + destruct r as [|i].
      * destruct Hr as [-> _]. injection Hget as <-.
        by apply with_sub_header_in_bounds.
      * destruct Hr as (-> & _ & _). simpl.
        eapply pass_in_bounds_mono; [|exact Hb]. lia.
    + destruct r as [|i].
      * destruct Hr as [_ ->]. done.
      * destruct Hr as (_ & _ & ->).
        destruct (get_pass_Sub _ _ _ Hs Hget) as [Hi Hlook].
        apply Forall_insert; [done|].
        apply with_sub_header_in_bounds; [done|].
        by eapply (Forall_lookup_1 _ _ _ _ Hsubs).
  - intros Hlt Hd. specialize (Hd1 Hd). destruct r as [|i].
    + destruct Hr as [_ He]. unfold tree_descends. by rewrite He.
    + destruct Hr as (_ & _ & He). unfold tree_descends. rewrite He.
      destruct (get_pass_Sub _ _ _ Hs Hget) as [Hi Hlook].
      intros j s. destruct (decide (j = Z.to_nat i)) as [->|Hne].
      * rewrite list_lookup_insert_eq.
        2:{ simpl. rewrite He1, length_app.
            apply lookup_lt_Some in Hlook. lia. }
        intros [= <-]. apply with_sub_header_descends.
        -- unfold SubPassVector.size in *. lia.
        -- done.
        -- by apply Hd.
      * rewrite list_lookup_insert_ne by done. apply Hd1.
Qed.

(** [draw] extends the pass it is made on, or changes nothing. *)
Lemma draw_spec (batch : ptr) (il vl vf handle : Z) (r : PassRef) (p p' : Pass B) :
  tree_in_bounds p → draw ndebug batch il vl vf handle r p = Some p' →
  tree_in_bounds p' ∧ nsubs p' = nsubs p
  ∧ (tree_descends p → tree_descends p').
Proof.
  intros Hin. unfold draw.
  destruct (_ || _); [by intros [= <-]|].
  destruct (get_pass p r) as [self|] eqn:Hget; simpl; [|done].
  destruct (BLI_assert _ _); simpl; [|done].
  destruct (append_draw _ _ _ _ _ _ _ _) as [[buf headers] commands] eqn:Hap.
  apply append_draw_appends in Hap.
  set (p1 := {| base := base p; sub_passes_main_ := subs p;
                draw_commands_buf_main_ := buf |}).
  intros Hset.
  eapply (set_pass_extends p1 p' r self); [exact Hin|exact Hget| |exact Hset].
  exact Hap.
Qed.

Lemma record_spec (op : RecordOp) (r : PassRef) (st st' : Manager * Pass B) :
  tree_in_bounds st.2 → record ndebug op r st = Some st' →
  tree_in_bounds st'.2 ∧ nsubs st.2 ≤ nsubs st'.2
  ∧ (nsubs st'.2 ≤ 2 ^ 32 → tree_descends st.2 → tree_descends st'.2).
Proof.
  destruct st as [manager p]. simpl. intros Hin. unfold record.
  destruct (record_local ndebug op) as [f|] eqn:Hlocal.
  - destruct (on_pass f r p) as [p1|] eqn:Hon; simpl; [|done].
    intros [= <-]. simpl.
    destruct (on_pass_extends f r p p1) as (Hin' & Hn & Hd); [|done|done|].
    { intros self self'. by apply (record_local_extends ndebug op). }
    split_and!; [done|lia|auto].
  - destruct op; try done.
    + destruct (sub name r p) as [[p1 r1]|] eqn:Hsub; simpl; [|done].
      intros [= <-]. simpl.
      destruct (sub_spec _ _ _ _ _ Hin Hsub) as (Hin' & Hn & _ & Hd).
      split_and!; [done|lia|]. intros Hle. apply Hd. lia.
    + destruct (get_pass p r) as [self|] eqn:Hget; simpl; [|done].
      destruct (material_set manager material self) as [[m1 self1]|] eqn:Hm;
        simpl; [|done].
      destruct (set_pass p r self1) as [p1|] eqn:Hset; simpl; [|done].
      intros [= <-]. simpl.
      destruct (set_pass_extends p p1 r self self1) as (Hin' & Hn & Hd);
        [done|done| |done|].
      { by eapply material_set_extends. }
      split_and!; [done|lia|auto].
    + destruct (draw _ _ _ _ _ _ _ _) as [p1|] eqn:Hdraw; simpl; [|done].
      intros [= <-]. simpl.
      destruct (draw_spec _ _ _ _ _ _ _ _ Hin Hdraw) as (Hin' & Hn & Hd).
      split_and!; [done|lia|auto].
    + unfold draw_handle.
      destruct (draw _ _ _ _ _ _ _ _) as [p1|] eqn:Hdraw; simpl; [|done].
      intros [= <-]. simpl.
      destruct (draw_spec _ _ _ _ _ _ _ _ Hin Hdraw) as (Hin' & Hn & Hd).
      split_and!; [done|lia|auto].
    + unfold draw_procedural.
      destruct (procedural_batch_get _ _) as [batch|]; simpl; [|done].
      destruct (draw _ _ _ _ _ _ _ _) as [p1|] eqn:Hdraw; simpl; [|done].
      intros [= <-]. simpl.
      destruct (draw_spec _ _ _ _ _ _ _ _ Hin Hdraw) as (Hin' & Hn & Hd).
      split_and!; [done|lia|auto].
Qed.

Lemma record_all_spec (calls : list (PassRef * RecordOp))
    (st st' : Manager * Pass B) :
  tree_in_bounds st.2 → record_all ndebug calls st = Some st' →
  tree_in_bounds st'.2 ∧ nsubs st.2 ≤ nsubs st'.2
  ∧ (nsubs st'.2 ≤ 2 ^ 32 → tree_descends st.2 → tree_descends st'.2).
Proof.
  unfold record_all. revert st.
  induction calls as [|[r op] rest IH]; intros st Hin; cbn [for_each fst snd].
  - intros [= <-]. split_and!; [done|lia|done].
  - destruct (record ndebug op r st) as [st1|] eqn:Hrec;
      cbn [mbind option_bind]; [|done].
    simpl in Hrec. intros Hrest.
    destruct (record_spec _ _ _ _ Hin Hrec) as (Hin1 & Hn1 & Hd1).
    destruct (IH st1 Hin1 Hrest) as (Hin' & Hn' & Hd').
    split_and!; [done|lia|]. intros Hle Hd. apply Hd'; [done|].
    apply Hd1; [lia|done].
Qed.

Lemma Pass_init_invariants (p : Pass B) :
  tree_in_bounds (Pass_init p) ∧ tree_descends (Pass_init p)
  ∧ nsubs (Pass_init p) = 0.
Proof.
  split_and!.
  - split_and!; [by left|by constructor|by constructor].
  - by intros i self.
  - done.
Qed.


End TreePreservation.

(** The modelled [DrawCommandBuf] keeps the contract of the buffer. *)
Global Instance DrawCommandBuf_lawful : DrawCommandBufLawful DrawCommandBuf.
Proof.
  intros buf headers commands batch il vl vf handle buf' headers' commands'.
  simpl. unfold DrawCommandBuf_append_draw, Vector_append_and_get_index.
  intros Heq. injection Heq as <- <-. eexists. split; [reflexivity|].
  unfold vec_size. rewrite length_app. simpl. split; [lia|].
  constructor; [|done]. simpl. split; [done|].
  pose proof (uint_range (Z.of_nat (length commands))).
  pose proof (uint_le (Z.of_nat (length commands))). lia.
Qed.

Section HeaderBounds.
Context `{ShaderInterface} `{DrawCache} {B : Type} `{DrawCommandBufType B}.

Lemma PassSortable_sub_eq (name : string) (sorting_value : float)
    (ps : PassSortable B) :
  PassSortable_sub name sorting_value ps
  = '(p, r) ← sub name Root (pass_main ps);
    Some ({| pass_main := p;
             sorting_values_ := sorting_values_ ps ++ [sorting_value];
             sorted_ := sorted_ ps |}, r).
Proof.
  unfold PassSortable_sub, sub. cbn [get_pass mbind option_bind].
  destruct (SubPassVector.append_and_get_index _ _ _) as [subs1 index].
  cbn [get_pass set_pass mbind option_bind base sub_passes_main_
       draw_commands_buf_main_ pass_main].
  by destruct (SubPassVector.at_ _ _ _).
Qed.

(** In a tree within bounds every read made by [submit] and [serialize]
    for a header finds its element. *)
Lemma in_bounds_reads (p : Pass B) (r : PassRef) (self : PassBase)
    (h : command.Header) :
  tree_in_bounds p → get_pass p r = Some self → h ∈ headers_ self →
  if decide (command.type h = command.SubPass)
  then 0 ≤ command.index h < SubPassVector.size (sub_passes_main_ p)
       ∧ is_Some (SubPassVector.at_ sub_pass_block_size (sub_passes_main_ p)
                    (command.index h))
  else 0 ≤ command.index h < vec_size (commands_ self)
       ∧ is_Some (command_ref (commands_ self) (command.index h)).
Proof.
  intros (Hs & Hb & Hsubs) Hget Hh.
  assert (pass_in_bounds (SubPassVector.size (sub_passes_main_ p)) self) as Hself.
  { destruct r as [|i].
    - by injection Hget as <-.
    - destruct (get_pass_Sub _ _ _ Hs Hget) as [_ Hlook].
      by eapply (Forall_lookup_1 _ _ _ _ Hsubs). }
  unfold pass_in_bounds in Hself. rewrite Forall_forall in Hself.
  specialize (Hself h Hh). unfold header_in_bounds in Hself.
  case_decide; (split; [done|]).
  - rewrite (at_elements _ block_size_ok) by done. by apply vec_at_lt.
  - by rewrite command_ref_lt.
Qed.

End HeaderBounds.

(** C10. Every recording operation keeps every header of the tree inside
    the storage it indexes: a recording call on any pass of the tree and
    [PassSortable::sub] preserve the bounds, [init] establishes them, and
    within the bounds every read of [submit] and [serialize] succeeds
    (a command header reads below the length of the command vector, a
    sub-pass header below the size of the shared container). *)
Theorem recording_keeps_headers_in_bounds
    `{ShaderInterface} `{DrawCache} {B : Type} `{DrawCommandBufType B}
    `{!DrawCommandBufLawful B} {Manager : Type} `{MaterialServices Manager}
    (ndebug : bool) :
  (∀ (op : RecordOp) (r : PassRef) (st st' : Manager * Pass B),
     tree_in_bounds st.2 → record ndebug op r st = Some st' →
     tree_in_bounds st'.2)
  ∧ (∀ (name : string) (sorting_value : float) (ps ps' : PassSortable B)
       (r : PassRef),
       tree_in_bounds (pass_main ps) →
       PassSortable_sub name sorting_value ps = Some (ps', r) →
       tree_in_bounds (pass_main ps'))
  ∧ (∀ (p : Pass B), tree_in_bounds (Pass_init p))
  ∧ (∀ (p : Pass B) (r : PassRef) (self : PassBase) (h : command.Header),
       tree_in_bounds p → get_pass p r = Some self → h ∈ headers_ self →
       if decide (command.type h = command.SubPass)
       then 0 ≤ command.index h < SubPassVector.size (sub_passes_main_ p)
            ∧ is_Some (SubPassVector.at_ sub_pass_block_size
                         (sub_passes_main_ p) (command.index h))
       else 0 ≤ command.index h < vec_size (commands_ self)
            ∧ is_Some (command_ref (commands_ self) (command.index h))).
Proof.
  split_and!.
  - intros op r st st' Hin Hrec.
    by destruct (record_spec ndebug op r st st' Hin Hrec) as (Hin' & _).
  - intros name sorting_value ps ps' r Hin. rewrite PassSortable_sub_eq.
    destruct (sub name Root (pass_main ps)) as [[p1 r1]|] eqn:Hsub;
      cbn [mbind option_bind]; [|done].
    intros [= <- <-]. simpl.
    by destruct (sub_spec name Root r1 (pass_main ps) p1 Hin Hsub) as (Hin' & _).
  - intros p. apply (Pass_init_invariants (B:=B)).
  - apply @in_bounds_reads.
Qed.

Lemma recording_keeps_headers_in_bounds_witness :
  DrawCommandBufLawful DrawCommandBuf
  ∧ tree_in_bounds (Pass_init sample_root)
  ∧ ∃ st',
      @record sample_shader_interface sample_draw_cache DrawCommandBuf _
        (list ptr) sample_material_services false (op_sub "inner") Root
        ([], Pass_init sample_root) = Some st'
      ∧ tree_in_bounds st'.2.
Proof.
  destruct (@recording_keeps_headers_in_bounds sample_shader_interface
              sample_draw_cache DrawCommandBuf _ DrawCommandBuf_lawful
              (list ptr) sample_material_services false)
    as (Hrecord & _ & Hinit & _).
  split; [exact DrawCommandBuf_lawful|]. split; [exact (Hinit sample_root)|].
  destruct (@record sample_shader_interface sample_draw_cache DrawCommandBuf _
              (list ptr) sample_material_services false (op_sub "inner") Root
              ([], Pass_init sample_root)) as [st'|] eqn:Hrec;
    [|by vm_compute in Hrec].
  exists st'. split; [reflexivity|].
  eapply Hrecord; [|exact Hrec]. exact (Hinit sample_root).
Defined.

(** ** submit is a depth-first traversal in header order *)

Scheme visits_mut := Induction for visits Sort Prop
  with visits_headers_mut := Induction for visits_headers Sort Prop.

(** The traversal order of a pass is unique. *)
Lemma visits_deterministic (sub_passes : SubPassVector.t PassBase)
    (self : PassBase) (order order' : list DeviceCall) :
  visits sub_passes self order → visits sub_passes self order' →
  order = order'.
Proof.
  intros Hv. revert order'.
  induction Hv using visits_mut with
    (P0 := λ commands headers calls _,
             ∀ calls', visits_headers sub_passes commands headers calls' →
                       calls = calls').
  - intros order' Hv'. inversion Hv' as [self' body' Hb']; subst.
    by rewrite (IHHv _ Hb').
  - intros calls' Hv'. by inversion Hv'.
  - intros calls' Hv'. inversion Hv'; subst; try congruence. by apply IHHv.
  - intros calls' Hv'. inversion Hv'; subst; try congruence.
    assert (sub_pass0 = sub_pass) as -> by congruence.
    f_equal; [by apply IHHv|by apply IHHv0].
  - intros calls' Hv'. inversion Hv'; subst; try congruence.
    f_equal; [congruence|by apply IHHv].
Qed.

Section SubmitOrder.
Variable RecordingState : Type.
Variable execute :
  command.Type_ → list command.Undetermined → RecordingState → RecordingState.
Variable GPU_debug_group_begin : string → RecordingState → RecordingState.
Variable GPU_debug_group_end : RecordingState → RecordingState.

Local Abbreviation submit' :=
  (submit RecordingState execute GPU_debug_group_begin GPU_debug_group_end).
Local Abbreviation run :=
  (perform_all RecordingState execute GPU_debug_group_begin GPU_debug_group_end).

Lemma perform_all_app (a b : list DeviceCall) (state : RecordingState) :
  run (a ++ b) state = run b (run a state).
Proof. unfold perform_all. apply foldl_app. Qed.

Lemma perform_all_group (name : string) (body : list DeviceCall)
    (state : RecordingState) :
  run (call_group_begin name :: body ++ [call_group_end]) state
  = GPU_debug_group_end (run body (GPU_debug_group_begin name state)).
Proof. unfold perform_all. simpl. by rewrite foldl_app. Qed.

Lemma submit_header_placeholder submit_sub sub_passes commands h state :
  command.type h = command.None_ →
  submit_header RecordingState execute submit_sub sub_passes commands h state
  = Some state.
Proof. unfold submit_header. by intros ->. Qed.

Lemma submit_header_sub_pass submit_sub sub_passes commands h state :
  command.type h = command.SubPass →
  submit_header RecordingState execute submit_sub sub_passes commands h state
  = (sub_pass ← SubPassVector.at_ sub_pass_block_size sub_passes (command.index h);
     submit_sub sub_pass state).
Proof. unfold submit_header. by intros ->. Qed.

Lemma submit_header_command submit_sub sub_passes commands h state :
  command.type h ≠ command.None_ → command.type h ≠ command.SubPass →
  submit_header RecordingState execute submit_sub sub_passes commands h state
  = (cmd ← command_ref commands (command.index h);
     Some (execute (command.type h) cmd state)).
Proof. unfold submit_header. by destruct (command.type h). Qed.

(** The loop of [submit] over a header list, given what the recursive
    calls it makes return. *)
Lemma submit_headers_run (K : nat) (sub_passes : SubPassVector.t PassBase)
    (commands : list command.Undetermined) (headers : list command.Header) :
  (∀ h, h ∈ headers → command.type h = command.SubPass →
     ∃ sub_pass inner,
       SubPassVector.at_ sub_pass_block_size sub_passes (command.index h)
       = Some sub_pass
       ∧ visits sub_passes sub_pass inner
       ∧ ∀ fuel state, (K ≤ fuel)%nat →
           submit' fuel sub_passes sub_pass state = Some (run inner state)) →
  (∀ h, h ∈ headers → command.type h ≠ command.SubPass →
     0 ≤ command.index h < vec_size commands) →
  ∃ body,
    visits_headers sub_passes commands headers body
    ∧ ∀ fuel state, (K ≤ fuel)%nat →
        for_each (submit_header RecordingState execute
                    (submit' fuel sub_passes) sub_passes commands)
          headers state
        = Some (run body state).
Proof.
  induction headers as [|h rest IH]; intros Hsub Hcmd.
  - exists []. split; [constructor|done].
  - destruct IH as (calls & Hvisit & Hrun).
    { intros h' Hh'. apply Hsub. by right. }
    { intros h' Hh'. apply Hcmd. by right. }
    destruct (decide (command.type h = command.SubPass)) as [Hty|Hty].
    + destruct (Hsub h) as (sub_pass & inner & Hat & Hin & Hinner);
        [by left|done|].
      exists (inner ++ calls). split; [by eapply visits_sub_pass|].
      intros fuel state Hfuel. cbn [for_each].
      rewrite submit_header_sub_pass, Hat by done. cbn [mbind option_bind].
      rewrite Hinner by done. cbn [mbind option_bind].
      rewrite Hrun by done. by rewrite perform_all_app.
    + destruct (decide (command.type h = command.None_)) as [Hnone|Hnone].
      * exists calls. split; [by apply visits_placeholder|].
        intros fuel state Hfuel. cbn [for_each].
        rewrite submit_header_placeholder by done. cbn [mbind option_bind].
        by apply Hrun.
      * pose proof (command_ref_lt commands (command.index h)
                      (Hcmd h ltac:(by left) Hty)) as Href.
        eexists (call_execute (command.type h) _ :: calls).
        split; [by apply visits_command|].
        intros fuel state Hfuel. cbn [for_each].
        rewrite submit_header_command, Href by done. cbn [mbind option_bind].
        by rewrite Hrun.
Qed.

(** A pass whose sub-pass headers all point above [bound], in a tree with
    at most [bound + 1 + k] sub-passes, is submitted with any fuel above
    [k]. *)
Lemma submit_run {B : Type} (p : Pass B) (k : nat) :
  tree_in_bounds p → tree_descends p →
  ∀ (self : PassBase) (bound : Z),
    pass_in_bounds (SubPassVector.size (sub_passes_main_ p)) self →
    pass_descends bound self →
    -1 ≤ bound →
    SubPassVector.size (sub_passes_main_ p) ≤ bound + 1 + Z.of_nat k →
    ∃ order,
      visits (sub_passes_main_ p) self order
      ∧ ∀ fuel state, (k < fuel)%nat →
          submit' fuel (sub_passes_main_ p) self state = Some (run order state).
Proof.
  intros (Hs & Hb & Hsubs) Hd.
  induction k as [|k IH]; intros self bound Hself Hbound Hm1 Hsize.
  - destruct (submit_headers_run 0 (sub_passes_main_ p) (commands_ self)
                (headers_ self)) as (body & Hvisit & Hrun).
    { intros h Hh Hty. exfalso.
      unfold pass_in_bounds, pass_descends in *.
      rewrite Forall_forall in Hself, Hbound.
      specialize (Hself h Hh). specialize (Hbound h Hh Hty).
      unfold header_in_bounds in Hself. rewrite decide_True in Hself by done.
      lia. }
    { intros h Hh Hty. unfold pass_in_bounds in Hself.
      rewrite Forall_forall in Hself. specialize (Hself h Hh).
      unfold header_in_bounds in Hself. by rewrite decide_False in Hself. }
    eexists. split; [by constructor|].
    intros [|fuel] state Hfuel; [lia|]. cbn [submit].
    rewrite Hrun by lia. cbn [mbind option_bind].
    by rewrite perform_all_group.
  - destruct (submit_headers_run (S k) (sub_passes_main_ p) (commands_ self)
                (headers_ self)) as (body & Hvisit & Hrun).
    { intros h Hh Hty.
      unfold pass_in_bounds, pass_descends in Hself, Hbound.
      rewrite Forall_forall in Hself, Hbound.
      specialize (Hself h Hh). specialize (Hbound h Hh Hty).
      unfold header_in_bounds in Hself. rewrite decide_True in Hself by done.
      destruct (vec_at_lt (SubPassVector.elements (sub_passes_main_ p))
                  (command.index h)) as [sub_pass Hat]; [done|].
      assert (SubPassVector.elements (sub_passes_main_ p)
                !! Z.to_nat (command.index h) = Some sub_pass) as Hlook
        by (by rewrite vec_at_nonneg in Hat by lia).
      destruct (IH sub_pass (command.index h)) as (inner & Hin & Hinner).
      - by eapply (Forall_lookup_1 _ _ _ _ Hsubs).
      - specialize (Hd _ _ Hlook). by rewrite Z2Nat.id in Hd by lia.
      - lia.
      - lia.
      - exists sub_pass, inner. split_and!; [|done|].
        + by rewrite (at_elements _ block_size_ok).
        + intros fuel state Hfuel. apply Hinner. lia. }
    { intros h Hh Hty. unfold pass_in_bounds in Hself.
      rewrite Forall_forall in Hself. specialize (Hself h Hh).
      unfold header_in_bounds in Hself. by rewrite decide_False in Hself. }
    eexists. split; [by constructor|].
    intros [|fuel] state Hfuel; [lia|]. cbn [submit].
    rewrite Hrun by lia. cbn [mbind option_bind].
    by rewrite perform_all_group.
Qed.

End SubmitOrder.

Section RecordingOrder.
Context `{ShaderInterface} `{DrawCache} {B : Type} `{DrawCommandBufType B}.
Context `{!DrawCommandBufLawful B}.
Context {Manager : Type} `{MaterialServices Manager}.
Variable ndebug : bool.

Lemma get_pass_elements (p : Pass B) (i : Z) :
  SubPassVector.shaped sub_pass_block_size (sub_passes_main_ p) →
  get_pass p (Sub i) = vec_at (SubPassVector.elements (sub_passes_main_ p)) i.
Proof. intros Hs. simpl. by rewrite (at_elements _ block_size_ok). Qed.

(** [set_pass] stores the pass and leaves the other passes alone. *)
Lemma set_pass_frame (p p' : Pass B) (r : PassRef) (self' : PassBase) :
  SubPassVector.shaped sub_pass_block_size (sub_passes_main_ p) →
  set_pass p r self' = Some p' →
  get_pass p' r = Some self'
  ∧ ∀ r', r' ≠ r → get_pass p' r' = get_pass p r'.
Proof.
  intros Hs Hset.
  destruct (set_pass_spec _ _ _ _ Hs Hset) as (Hs' & Hn & Hr).
  destruct r as [|i].
  - destruct Hr as [Hbase He]. split; [by rewrite <- Hbase|].
    intros [|j] Hne; [done|]. by rewrite !get_pass_elements, He.
  - destruct Hr as (Hbase & Hi & He). rewrite !get_pass_elements by done.
    unfold SubPassVector.size, vec_size in Hi. split.
    + rewrite He, vec_at_nonneg by lia. apply list_lookup_insert_eq. lia.
    + intros [|j] Hne; [by simpl; rewrite Hbase|].
      rewrite !get_pass_elements, He by done. unfold vec_at.
      case_bool_decide; [done|]. apply list_lookup_insert_ne.
      intros Heq. apply Hne. f_equal. lia.
Qed.

(** A recording call appends to the headers of the pass it is made on and
    leaves the streams of every other pass as they are. *)
Lemma record_appends (op : RecordOp) (r : PassRef) (st st' : Manager * Pass B) :
  tree_in_bounds st.2 → record ndebug op r st = Some st' →
  (st'.2 = st.2
   ∨ ∃ self self' added,
       get_pass st.2 r = Some self ∧ get_pass st'.2 r = Some self'
       ∧ headers_ self' = headers_ self ++ added)
  ∧ ∀ r' other, r' ≠ r → get_pass st.2 r' = Some other →
      get_pass st'.2 r' = Some other.
Proof.
  destruct st as [manager p]. simpl. intros Hin.
  pose proof Hin as (Hs & _ & _).
  assert (∀ (p0 p1 : Pass B) self self',
    sub_passes_main_ p0 = sub_passes_main_ p → base p0 = base p →
    get_pass p r = Some self → extends self self' →
    set_pass p0 r self' = Some p1 →
    (p1 = p
     ∨ ∃ self self' added,
         get_pass p r = Some self ∧ get_pass p1 r = Some self'
         ∧ headers_ self' = headers_ self ++ added)
    ∧ ∀ r' other, r' ≠ r → get_pass p r' = Some other →
        get_pass p1 r' = Some other) as Hstep.
  { intros p0 p1 self self' Hsubs Hbase Hget (added & Hadd & _) Hset.
    destruct (set_pass_frame p0 p1 r self') as [Hnew Hframe];
      [by rewrite Hsubs|done|].
    split.
    - right. by exists self, self', added.
    - intros r' other Hne Hother. rewrite Hframe by done.
      destruct r'; simpl in *; by rewrite ?Hsubs, ?Hbase. }
  unfold record.
  destruct (record_local ndebug op) as [f|] eqn:Hlocal.
  - unfold on_pass.
    destruct (get_pass p r) as [self|] eqn:Hget; cbn [mbind option_bind]; [|done].
    destruct (f self) as [self'|] eqn:Hf; cbn [mbind option_bind]; [|done].
    destruct (set_pass p r self') as [p1|] eqn:Hset;
      cbn [mbind option_bind]; [|done].
    intros [= <-]. simpl. eapply (Hstep p); eauto.
    by eapply (record_local_extends ndebug op).
  - destruct op; try done.
    + unfold sub.
      destruct (get_pass p r) as [self|] eqn:Hget;
        cbn [mbind option_bind]; [|done].
      destruct (append_and_get_index_spec _ block_size_ok (sub_passes_main_ p)
                  (PassBase_new name (shader_ self)) Hs) as (Hs1 & He1 & Hi1).
      destruct (SubPassVector.append_and_get_index _ _ _) as [subs1 index].
      simpl in Hs1, He1, Hi1.
      set (p1 := {| base := base p; sub_passes_main_ := subs1;
                    draw_commands_buf_main_ := draw_commands_buf_main_ p |}).
      assert (∀ r' other, get_pass p r' = Some other →
                get_pass p1 r' = Some other) as Hkeep.
      { intros [|j] other; [done|]. rewrite !get_pass_elements by done.
        simpl. rewrite He1. unfold vec_at. case_bool_decide; [done|].
        apply lookup_app_l_Some. }
      rewrite (Hkeep _ _ Hget). cbn [mbind option_bind].
      destruct (set_pass p1 r _) as [p2|] eqn:Hset;
        cbn [mbind option_bind]; [|done].
      destruct (get_pass p2 _) as [new|]; cbn [mbind option_bind]; [|done].
      intros [= <-]. simpl.
      destruct (set_pass_frame p1 p2 r _ Hs1 Hset) as [Hnew Hframe].
      split.
      * right. eexists self, _, _. split_and!; [done|exact Hnew|done].
      * intros r' other Hne Hother. rewrite Hframe by done. by apply Hkeep.
    + destruct (get_pass p r) as [self|] eqn:Hget;
        cbn [mbind option_bind]; [|done].
      destruct (material_set manager material self) as [[m1 self1]|] eqn:Hm;
        cbn [mbind option_bind]; [|done].
      destruct (set_pass p r self1) as [p1|] eqn:Hset;
        cbn [mbind option_bind]; [|done].
      intros [= <-]. simpl. eapply (Hstep p); eauto.
      by eapply material_set_extends.
    + destruct (draw _ _ _ _ _ _ _ _) as [p1|] eqn:Hdraw;
        cbn [mbind option_bind]; [|done].
      intros [= <-]. simpl. revert Hdraw. unfold draw.
      destruct (_ || _); [intros [= <-]; by split; [left|]|].
      destruct (get_pass p r) as [self|] eqn:Hget;
        cbn [mbind option_bind]; [|done].
      destruct (BLI_assert _ _); cbn [mbind option_bind]; [|done].
      destruct (append_draw _ _ _ _ _ _ _ _) as [[buf headers] commands] eqn:Hap.
      apply append_draw_appends in Hap. intros Hset.
      eapply Hstep; [| | | |exact Hset]; [done|done|reflexivity|exact Hap].
    + unfold draw_handle.
      destruct (draw _ _ _ _ _ _ _ _) as [p1|] eqn:Hdraw;
        cbn [mbind option_bind]; [|done].
      intros [= <-]. simpl. revert Hdraw. unfold draw.
      destruct (_ || _); [intros [= <-]; by split; [left|]|].
      destruct (get_pass p r) as [self|] eqn:Hget;
        cbn [mbind option_bind]; [|done].
      destruct (BLI_assert _ _); cbn [mbind option_bind]; [|done].
      destruct (append_draw _ _ _ _ _ _ _ _) as [[buf headers] commands] eqn:Hap.
      apply append_draw_appends in Hap. intros Hset.
      eapply Hstep; [| | | |exact Hset]; [done|done|reflexivity|exact Hap].
    + unfold draw_procedural.
      destruct (procedural_batch_get _ _) as [batch|];
        cbn [mbind option_bind]; [|done].
      destruct (draw _ _ _ _ _ _ _ _) as [p1|] eqn:Hdraw;
        cbn [mbind option_bind]; [|done].
      intros [= <-]. simpl. revert Hdraw. unfold draw.
      destruct (_ || _); [intros [= <-]; by split; [left|]|].
      destruct (get_pass p r) as [self|] eqn:Hget;
        cbn [mbind option_bind]; [|done].
      destruct (BLI_assert _ _); cbn [mbind option_bind]; [|done].
      destruct (append_draw _ _ _ _ _ _ _ _) as [[buf headers] commands] eqn:Hap.
      apply append_draw_appends in Hap. intros Hset.
      eapply Hstep; [| | | |exact Hset]; [done|done|reflexivity|exact Hap].
Qed.

End RecordingOrder.

(** C1. For a pass tree recorded after [init] (with at most 2^32
    sub-passes, so that the 32-bit header indices name the sub-passes they
    were created for), [submit] on the root returns, for every device and
    every state, and what it does is a depth-first traversal in header
    order: the calls of [visits], where a sub-pass header stands for all
    the calls of its sub-pass at that position.  Header order is recording
    order: each recording call appends to the headers of the pass it is
    made on and leaves the other passes untouched. *)
Theorem submit_depth_first_in_recorded_order
    `{ShaderInterface} `{DrawCache} {B : Type} `{DrawCommandBufType B}
    `{!DrawCommandBufLawful B} {Manager : Type} `{MaterialServices Manager}
    (ndebug : bool) (calls : list (PassRef * RecordOp))
    (manager : Manager) (p0 : Pass B) (st : Manager * Pass B) :
  record_all ndebug calls (manager, Pass_init p0) = Some st →
  SubPassVector.size (sub_passes_main_ st.2) ≤ 2 ^ 32 →
  (∃ order : list DeviceCall,
     visits (sub_passes_main_ st.2) (base st.2) order
     ∧ ∀ (RecordingState : Type) execute GPU_debug_group_begin
         GPU_debug_group_end (state : RecordingState) (fuel : nat),
         (Z.to_nat (SubPassVector.size (sub_passes_main_ st.2)) < fuel)%nat →
         submit RecordingState execute GPU_debug_group_begin
           GPU_debug_group_end fuel (sub_passes_main_ st.2) (base st.2) state
         = Some (perform_all RecordingState execute GPU_debug_group_begin
                   GPU_debug_group_end order state))
  ∧ (∀ (op : RecordOp) (r : PassRef) (st' : Manager * Pass B),
       record ndebug op r st = Some st' →
       (st'.2 = st.2
        ∨ ∃ self self' added,
            get_pass st.2 r = Some self ∧ get_pass st'.2 r = Some self'
            ∧ headers_ self' = headers_ self ++ added)
       ∧ ∀ r' other, r' ≠ r → get_pass st.2 r' = Some other →
           get_pass st'.2 r' = Some other).
Proof.
  intros Hrec Hsize.
  destruct (Pass_init_invariants p0) as (Hin0 & Hd0 & Hn0).
  destruct (record_all_spec ndebug calls (manager, Pass_init p0) st Hin0 Hrec)
    as (Hin & _ & Hd).
  specialize (Hd Hsize Hd0). split.
  - assert (0 ≤ SubPassVector.size (sub_passes_main_ st.2)) as Hnn
      by (unfold SubPassVector.size, vec_size; lia).
    pose proof Hin as (_ & Hb & _).
    assert (pass_descends (-1) (base st.2)) as Hroot.
    { unfold pass_descends, pass_in_bounds in *.
      eapply Forall_impl; [exact Hb|]. simpl. intros h Hh Hty.
      unfold header_in_bounds in Hh. rewrite decide_True in Hh by done. lia. }
    assert (∃ order, visits (sub_passes_main_ st.2) (base st.2) order)
      as [order Hvisit].
    { destruct (submit_run unit (λ _ _ s, s) (λ _ s, s) (λ s, s) st.2
                  (Z.to_nat (SubPassVector.size (sub_passes_main_ st.2)))
                  Hin Hd (base st.2) (-1) Hb Hroot) as (order & Hv & _);
        [lia|lia|]. by exists order. }
    exists order. split; [done|].
    intros RecordingState execute gbegin gend state fuel Hfuel.
    destruct (submit_run RecordingState execute gbegin gend st.2
                (Z.to_nat (SubPassVector.size (sub_passes_main_ st.2)))
                Hin Hd (base st.2) (-1) Hb Hroot) as (order' & Hv' & Hrun);
      [lia|lia|].
    rewrite Hrun by done. f_equal. f_equal.
    by eapply visits_deterministic.
  - intros op r st' Hop. by eapply record_appends.
Qed.

Lemma submit_depth_first_in_recorded_order_witness :
  @record_all sample_shader_interface sample_draw_cache DrawCommandBuf _
    (list ptr) sample_material_services false scenario_calls
    ([], Pass_init sample_root) = Some scenario_state
  ∧ SubPassVector.size (sub_passes_main_ scenario_state.2) ≤ 2 ^ 32
  ∧ ∃ order,
      visits (sub_passes_main_ scenario_state.2) (base scenario_state.2) order
      ∧ submit (list command.Type_) log_execute (λ _ log, log) (λ log, log) 2
          (sub_passes_main_ scenario_state.2) (base scenario_state.2) []
        = Some (perform_all (list command.Type_) log_execute (λ _ log, log)
                  (λ log, log) order []).
Proof.
  assert (@record_all sample_shader_interface sample_draw_cache DrawCommandBuf
            _ (list ptr) sample_material_services false scenario_calls
            ([], Pass_init sample_root) = Some scenario_state) as Hrec
    by reflexivity.
  split; [exact Hrec|]. split; [by vm_compute|].
  destruct (@submit_depth_first_in_recorded_order sample_shader_interface
              sample_draw_cache DrawCommandBuf _ _ (list ptr)
              sample_material_services false scenario_calls []
              sample_root scenario_state Hrec)
    as [(order & Hvisit & Hsubmit) _]; [by vm_compute|].
  exists order. split; [exact Hvisit|].
  apply Hsubmit. vm_compute. lia.
Defined.

(** The scenario executes exactly three commands, in recording order, and
    nothing for the inner sub-pass. *)
Example scenario_submit :
  submit (list command.Type_) log_execute (λ _ log, log) (λ log, log) 2
    (sub_passes_main_ scenario_state.2) (base scenario_state.2) []
  = Some [command.ShaderBind; command.ResourceBind; command.Draw].
Proof. reflexivity. Qed.

(** ** Sorting values *)

Section FloatOrder.

Local Ltac compare_cases :=
  repeat match goal with
  | |- context [Z.compare ?a ?b] => destruct (Z.compare_spec a b)
  | |- context [Pos.compare_cont Eq ?a ?b] =>
      change (Pos.compare_cont Eq a b) with (Pos.compare a b);
      destruct (Pos.compare_spec a b)
  end.

Lemma SFltb_key (a b : float) :
  a ≠ S754_nan → b ≠ S754_nan →
  SFltb a b = true ↔ key_lt (float_key a) (float_key b).
Proof.
  intros Ha Hb. unfold SFltb, key_lt.
  destruct a as [[]|[]| |[] ma ea], b as [[]|[]| |[] mb eb]; try done;
    simpl; compare_cases; simpl; split; intros; try done; lia.
Qed.

Lemma SFeqb_key (a b : float) :
  a ≠ S754_nan → b ≠ S754_nan →
  SFeqb a b = true ↔ float_key a = float_key b.
Proof.
  intros Ha Hb. unfold SFeqb.
  destruct a as [[]|[]| |[] ma ea], b as [[]|[]| |[] mb eb]; try done;
    simpl; compare_cases; simpl; split; intros Heq; try done;
    try (injection Heq; intros); try (repeat f_equal; lia); try lia.
Qed.

Lemma SFleb_key (a b : float) :
  a ≠ S754_nan → b ≠ S754_nan →
  SFleb a b = true ↔ ¬ key_lt (float_key b) (float_key a).
Proof.
  intros Ha Hb. unfold SFleb, key_lt.
  destruct a as [[]|[]| |[] ma ea], b as [[]|[]| |[] mb eb]; try done;
    simpl; compare_cases; simpl; split; intros; try done; lia.
Qed.

End FloatOrder.

Section SortOrder.
Variable ndebug : bool.
Variable sorting_values : list float.

Local Abbreviation less := (sort_less ndebug sorting_values).

Lemma sort_compare_keyed (a b : command.Header) a_val b_val :
  command.type a = command.SubPass → command.type b = command.SubPass →
  vec_at sorting_values (command.index a) = Some a_val →
  vec_at sorting_values (command.index b) = Some b_val →
  sort_compare ndebug sorting_values a b
  = Some (SFltb a_val b_val
          || (SFeqb a_val b_val
              && bool_decide (command.index a < command.index b))).
Proof.
  intros Ha Hb Hva Hvb. unfold sort_compare, BLI_assert.
  rewrite (bool_decide_eq_true_2 _ Ha), (bool_decide_eq_true_2 _ Hb).
  rewrite orb_true_r. cbn [mbind option_bind].
  rewrite Hva, Hvb. reflexivity.
Qed.

Lemma sort_less_spec (a b : command.Header) a_val b_val :
  command.type a = command.SubPass → command.type b = command.SubPass →
  vec_at sorting_values (command.index a) = Some a_val →
  vec_at sorting_values (command.index b) = Some b_val →
  a_val ≠ S754_nan → b_val ≠ S754_nan →
  less a b = true
  ↔ key_lt (float_key a_val) (float_key b_val)
    ∨ (float_key a_val = float_key b_val
       ∧ command.index a < command.index b).
Proof.
  intros Ha Hb Hva Hvb Hna Hnb. unfold sort_less.
  rewrite (sort_compare_keyed a b a_val b_val) by done. simpl.
  rewrite orb_true_iff, andb_true_iff, bool_decide_eq_true.
  by rewrite SFltb_key, SFeqb_key.
Qed.

Local Ltac use_keys :=
  repeat match goal with
  | H : has_sort_key _ _ |- _ => destruct H as (? & ? & ? & ?)
  end.

Lemma key_eq (x y : Z * Z * Z) :
  x = y ↔ x.1.1 = y.1.1 ∧ x.1.2 = y.1.2 ∧ x.2 = y.2.
Proof.
  destruct x as [[? ?] ?], y as [[? ?] ?]. simpl.
  split; [by intros [= -> -> ->]|]. by intros (-> & -> & ->).
Qed.

Lemma rank_irrefl (k : Z * Z * Z) (i : Z) : ¬ (key_lt k k ∨ (k = k ∧ i < i)).
Proof. unfold key_lt. lia. Qed.

Lemma rank_trans (ka kb kc : Z * Z * Z) (ia ib ic : Z) :
  key_lt ka kb ∨ (ka = kb ∧ ia < ib) →
  key_lt kb kc ∨ (kb = kc ∧ ib < ic) →
  key_lt ka kc ∨ (ka = kc ∧ ia < ic).
Proof. rewrite !key_eq. unfold key_lt. lia. Qed.

Lemma rank_incomparable (ka kb : Z * Z * Z) (ia ib : Z) :
  ¬ (key_lt ka kb ∨ (ka = kb ∧ ia < ib)) →
  ¬ (key_lt kb ka ∨ (kb = ka ∧ ib < ia)) →
  ka = kb ∧ ia = ib.
Proof. rewrite !key_eq. unfold key_lt. lia. Qed.

Lemma sort_less_strict_weak_ordering (headers : list command.Header) :
  Forall (has_sort_key sorting_values) headers →
  strict_weak_ordering less headers.
Proof.
  rewrite Forall_forall. intros Hkeys. split_and!.
  - intros a Ha. specialize (Hkeys a Ha). use_keys.
    apply not_true_is_false. erewrite sort_less_spec by done.
    apply rank_irrefl.
  - intros a b c Ha Hb Hc.
    pose proof (Hkeys a Ha). pose proof (Hkeys b Hb). pose proof (Hkeys c Hc).
    use_keys.
    erewrite !sort_less_spec by done. apply rank_trans.
  - intros a b c Ha Hb Hc.
    pose proof (Hkeys a Ha). pose proof (Hkeys b Hb). pose proof (Hkeys c Hc).
    use_keys.
    rewrite <- !not_true_iff_false.
    erewrite !sort_less_spec by done.
    intros Hab Hba Hbc Hcb.
    destruct (rank_incomparable _ _ _ _ Hab Hba) as [Hk Hi].
    rewrite Hk, Hi. by split.
Qed.

End SortOrder.

(** ** The insertion sort keeps the contract of std::sort *)

Section InsertionSort.
Context {A : Type}.
Variable comp : A → A → bool.
Variable range : list A.
Hypothesis ordering : strict_weak_ordering comp range.

Local Abbreviation not_less := (λ a b : A, comp a b = false).

Lemma comp_asym (a b : A) :
  a ∈ range → b ∈ range → comp a b = true → comp b a = false.
Proof.
  destruct ordering as (Hirr & Htrans & _). intros Ha Hb Hab.
  apply not_true_is_false. intros Hba.
  pose proof (Htrans a b a Ha Hb Ha Hab Hba) as Haa.
  by rewrite Hirr in Haa.
Qed.

(** If [a] is less than [c], any [b] is above [a] or below [c]. *)
Lemma comp_between (a b c : A) :
  a ∈ range → b ∈ range → c ∈ range →
  comp a c = true → comp a b = false → comp b c = true.
Proof.
  destruct ordering as (Hirr & Htrans & Hinc). intros Ha Hb Hc Hac Hab.
  destruct (comp b c) eqn:Hbc; [done|].
  destruct (comp b a) eqn:Hba.
  { by rewrite (Htrans b a c Hb Ha Hc Hba Hac) in Hbc. }
  destruct (comp c b) eqn:Hcb.
  { by rewrite (Htrans a c b Ha Hc Hb Hac Hcb) in Hab. }
  destruct (Hinc a b c Ha Hb Hc Hab Hba Hbc Hcb) as [Hac' _]. congruence.
Qed.

Lemma linear_insert_perm (val : A) (rev_prefix : list A) :
  linear_insert comp val rev_prefix ≡ₚ val :: rev_prefix.
Proof.
  induction rev_prefix as [|next rest IH]; simpl; [done|].
  destruct (comp val next); [|done]. rewrite IH. apply Permutation_swap.
Qed.

Lemma insertion_step_perm (val : A) (rev_prefix : list A) :
  insertion_step comp rev_prefix val ≡ₚ val :: rev_prefix.
Proof.
  unfold insertion_step. destruct (last rev_prefix) as [first|] eqn:Hlast.
  - destruct (comp val first).
    + by rewrite Permutation_app_comm.
    + apply linear_insert_perm.
  - apply last_None in Hlast. by subst.
Qed.

Lemma linear_insert_sorted (val : A) (rev_prefix : list A) :
  val ∈ range → rev_prefix ⊆ range →
  StronglySorted not_less rev_prefix →
  StronglySorted not_less (linear_insert comp val rev_prefix).
Proof.
  intros Hval. induction rev_prefix as [|next rest IH]; intros Hsub Hsorted.
  - simpl. repeat constructor.
  - apply StronglySorted_cons in Hsorted as [Hnext Hrest].
    assert (next ∈ range) as Hn by (apply Hsub; by left).
    assert (rest ⊆ range) as Hr by (intros x Hx; apply Hsub; by right).
    simpl. destruct (comp val next) eqn:Hless.
    + apply StronglySorted_cons. split; [|by apply IH].
      rewrite (linear_insert_perm val rest). constructor; [|done].
      by apply comp_asym.
    + apply StronglySorted_cons. split; [|by apply StronglySorted_cons].
      constructor; [done|].
      rewrite Forall_forall in Hnext |- *. intros b Hb.
      destruct (comp val b) eqn:Hvb; [|done].
      specialize (Hnext b Hb). simpl in Hnext.
      by rewrite (comp_between val next b) in Hnext by auto.
Qed.

Lemma insertion_step_sorted (val : A) (rev_prefix : list A) :
  val ∈ range → rev_prefix ⊆ range →
  StronglySorted not_less rev_prefix →
  StronglySorted not_less (insertion_step comp rev_prefix val).
Proof.
  intros Hval Hsub Hsorted. unfold insertion_step.
  destruct (last rev_prefix) as [first|] eqn:Hlast; [|repeat constructor].
  destruct (comp val first) eqn:Hless; [|by apply linear_insert_sorted].
  destruct ordering as (Hirr & Htrans & _).
  apply last_Some in Hlast as [init ->].
  apply StronglySorted_app. split_and!; [|done|repeat constructor].
  intros a b Ha Hb. apply list_elem_of_singleton in Hb as ->.
  assert (first ∈ range) as Hf by (apply Hsub, elem_of_app; right; by left).
  assert (a ∈ range) as Har by by apply Hsub.
  destruct (comp a val) eqn:Hav; [|done].
  pose proof (Htrans a val first Har Hval Hf Hav Hless) as Haf.
  apply elem_of_app in Ha as [Ha|Ha].
  - apply StronglySorted_app in Hsorted as (Hcross & _ & _).
    rewrite (Hcross a first Ha) in Haf; [done|by left].
  - apply list_elem_of_singleton in Ha as ->. by rewrite Hirr in Haf.
Qed.

Lemma StronglySorted_reverse (R : A → A → Prop) (l : list A) :
  StronglySorted R l → StronglySorted (flip R) (reverse l).
Proof.
  induction 1 as [|x l Hl IH Hx]; [constructor|].
  rewrite reverse_cons. apply StronglySorted_app.
  split_and!; [|done|repeat constructor].
  intros a b Ha Hb. apply list_elem_of_singleton in Hb as ->.
  rewrite Forall_forall in Hx. unfold flip. apply Hx.
  by apply elem_of_reverse.
Qed.

Lemma insertion_fold (l acc : list A) :
  l ⊆ range → acc ⊆ range → StronglySorted not_less acc →
  foldl (insertion_step comp) acc l ≡ₚ l ++ acc
  ∧ StronglySorted not_less (foldl (insertion_step comp) acc l).
Proof.
  revert acc. induction l as [|x l IH]; intros acc Hl Hacc Hsorted; [done|].
  simpl.
  assert (x ∈ range) as Hx by (apply Hl; by left).
  destruct (IH (insertion_step comp acc x)) as [Hperm Hs].
  - intros y Hy. apply Hl. by right.
  - intros y Hy. rewrite insertion_step_perm in Hy.
    apply elem_of_cons in Hy as [->|Hy]; [done|by apply Hacc].
  - by apply insertion_step_sorted.
  - split; [|done]. rewrite Hperm, insertion_step_perm.
    by rewrite Permutation_middle.
Qed.

End InsertionSort.

Lemma insertion_sort_contract {A : Type} : std_sort_contract (@insertion_sort A).
Proof.
  intros comp l Hswo. unfold insertion_sort.
  destruct (insertion_fold comp l Hswo l []) as [Hperm Hsorted];
    [done|by intros x Hx; apply elem_of_nil in Hx|constructor|].
  split.
  - by rewrite reverse_Permutation, Hperm, app_nil_r.
  - by apply (StronglySorted_reverse (λ a b, comp a b = false)).
Qed.

(** ** The sortable pass *)

Section SortableFacts.
Context `{ShaderInterface} `{DrawCache} {B : Type} `{DrawCommandBufType B}.
Variable ndebug : bool.
Variable std_sort :
  (command.Header → command.Header → bool) → list command.Header
  → list command.Header.

Local Abbreviation nsubs p := (SubPassVector.size (sub_passes_main_ p)).
Local Abbreviation elems p := (SubPassVector.elements (sub_passes_main_ p)).

(** [sub] on the root always returns: the new sub-pass takes the next
    index, the root one more header. *)
Lemma sub_root (name : string) (p : Pass B) :
  SubPassVector.shaped sub_pass_block_size (sub_passes_main_ p) →
  ∃ p', sub name Root p = Some (p', Sub (nsubs p))
        ∧ base p' = with_sub_header (base p) (nsubs p)
        ∧ elems p' = elems p ++ [PassBase_new name (shader_ (base p))]
        ∧ SubPassVector.shaped sub_pass_block_size (sub_passes_main_ p').
Proof.
  intros Hs. unfold sub. cbn [get_pass mbind option_bind].
  destruct (append_and_get_index_spec _ block_size_ok (sub_passes_main_ p)
              (PassBase_new name (shader_ (base p))) Hs) as (Hs1 & He1 & Hi1).
  destruct (SubPassVector.append_and_get_index _ _ _) as [subs1 index].
  simpl in Hs1, He1, Hi1. subst index.
  cbn [get_pass set_pass mbind option_bind base sub_passes_main_].
  rewrite (at_elements _ block_size_ok) by done.
  rewrite He1. unfold SubPassVector.size, vec_size.
  rewrite vec_at_nonneg, Nat2Z.id by lia.
  rewrite lookup_app_r, Nat.sub_diag by lia. cbn [lookup list_lookup mbind option_bind].
  eexists. split; [reflexivity|]. by simpl.
Qed.




(** The check [PassSortable_sort] makes before sorting succeeds on headers
    that have sorting values. *)
Lemma sort_check (values : list float) (headers : list command.Header) :
  Forall (has_sort_key values) headers →
  for_each (λ h (_ : ()), _ ← sort_compare ndebug values h h; Some ())
    headers () = Some ().
Proof.
  induction 1 as [|h headers (Hty & val & Hval & _) _ IH]; [done|].
  cbn [for_each]. rewrite (sort_compare_keyed _ _ h h val val) by done.
  cbn [mbind option_bind]. exact IH.
Qed.

Lemma in_sort_order_of_less (values : list float) (a b : command.Header) :
  has_sort_key values a → has_sort_key values b →
  sort_less ndebug values b a = false → in_sort_order values a b.
Proof.
  intros (Ha & a_val & Hva & Hna) (Hb & b_val & Hvb & Hnb) Hless.
  exists a_val, b_val. split_and!; [done|done|..].
  - apply SFleb_key; [done|done|]. intros Hlt.
    apply not_true_iff_false in Hless. apply Hless.
    rewrite (sort_less_spec ndebug values b a b_val a_val) by done. by left.
  - intros Heq. apply SFeqb_key in Heq; [|done|done].
    apply Z.le_ngt. intros Hlt.
    apply not_true_iff_false in Hless. apply Hless.
    rewrite (sort_less_spec ndebug values b a b_val a_val) by done.
    by right.
Qed.

Lemma StronglySorted_impl_elem_of {A} (R R' : A → A → Prop) (l : list A) :
  (∀ a b, a ∈ l → b ∈ l → R a b → R' a b) →
  StronglySorted R l → StronglySorted R' l.
Proof.
  intros Himpl Hsorted. induction Hsorted as [|x l Hl IH Hx]; [constructor|].
  constructor.
  - apply IH. intros a b Ha Hb. apply Himpl; by right.
  - rewrite Forall_forall in Hx |- *. intros b Hb.
    apply Himpl; [by left|by right|by apply Hx].
Qed.


Lemma PassSortable_sort_sorted (ps : PassSortable B) :
  sorted_ ps = true → PassSortable_sort ndebug std_sort ps = Some ps.
Proof. unfold PassSortable_sort. by intros ->. Qed.

End SortableFacts.




(** The three sample sub-passes are submitted near first, then the two
    far ones in the order they were added. *)
Example sort_keyed_adds :
  (λ ps, command.index <$> headers_ (base (pass_main ps)))
  <$> (PassSortable_sub_all keyed_adds (PassSortable_init sample_sortable)
       ≫= PassSortable_sort false insertion_sort)
  = Some [1; 0; 2].
Proof. reflexivity. Qed.

(** ** serialize prints the outline *)

Lemma append_String (ch : ascii) (a b : string) :
  String ch a +:+ b = String ch (a +:+ b).
Proof. reflexivity. Qed.

Lemma append_empty_l (a : string) : "" +:+ a = a.
Proof. reflexivity. Qed.

Lemma append_assoc (a b c : string) : (a +:+ b) +:+ c = a +:+ (b +:+ c).
Proof.
  induction a as [|ch a IH]; [done|]. rewrite !append_String. by f_equal.
Qed.

Lemma append_empty_r (a : string) : a +:+ "" = a.
Proof.
  induction a as [|ch a IH]; [done|]. rewrite append_String. by f_equal.
Qed.

Scheme outlines_mut := Induction for outlines Sort Prop
  with outlines_headers_mut := Induction for outlines_headers Sort Prop.

Section SerializeOutline.
Variable cmd_serialize : command.Type_ → list command.Undetermined → string.
Variable draw_multi_serialize : list command.Undetermined → string → string.

Local Abbreviation serialize' := (serialize cmd_serialize draw_multi_serialize).
Local Abbreviation serialize_header' :=
  (serialize_header cmd_serialize draw_multi_serialize).
Local Abbreviation render_all' := (render_all draw_multi_serialize).
Local Abbreviation outlines' := (outlines cmd_serialize).
Local Abbreviation outlines_headers' := (outlines_headers cmd_serialize).

Lemma render_all_app (line_prefix : string) (a b : list OutlineItem) :
  render_all' line_prefix (a ++ b)
  = render_all' line_prefix a +:+ render_all' line_prefix b.
Proof.
  unfold render_all. induction a as [|item a IH]; [done|].
  cbn [app foldr]. by rewrite IH, append_assoc.
Qed.

(** The outline of a pass is unique. *)
Lemma outlines_deterministic (sub_passes : SubPassVector.t PassBase)
    (depth : nat) (self : PassBase) (items items' : list OutlineItem) :
  outlines' sub_passes depth self items →
  outlines' sub_passes depth self items' →
  items = items'.
Proof.
  intros Ho. revert items'.
  induction Ho using outlines_mut with
    (P0 := λ commands depth headers items _,
             ∀ items', outlines_headers' sub_passes commands depth headers items'
                       → items = items').
  - intros items' Ho'. inversion Ho'; subst. f_equal. by apply IHHo.
  - intros items' Ho'. by inversion Ho'.
  - intros items' Ho'. inversion Ho'; subst; try congruence. by apply IHHo.
  - intros items' Ho'. inversion Ho'; subst; try congruence.
    assert (sub_pass0 = sub_pass) as -> by congruence.
    f_equal; [by apply IHHo|by apply IHHo0].
  - intros items' Ho'. inversion Ho'; subst; try congruence.
    f_equal; [congruence|by apply IHHo].
  - intros items' Ho'. inversion Ho'; subst; try congruence.
    f_equal; [congruence|by apply IHHo].
Qed.

Lemma serialize_header_placeholder serialize_sub sub_passes commands lp h ss :
  command.type h = command.None_ →
  serialize_header' serialize_sub sub_passes commands lp h ss = Some ss.
Proof. unfold serialize_header. by intros ->. Qed.

Lemma serialize_header_sub_pass serialize_sub sub_passes commands lp h ss :
  command.type h = command.SubPass →
  serialize_header' serialize_sub sub_passes commands lp h ss
  = (sub_pass ← SubPassVector.at_ sub_pass_block_size sub_passes (command.index h);
     text ← serialize_sub sub_pass lp;
     Some (ss +:+ text)).
Proof. unfold serialize_header. by intros ->. Qed.

Lemma serialize_header_draw_multi serialize_sub sub_passes commands lp h ss :
  command.type h = command.DrawMulti →
  serialize_header' serialize_sub sub_passes commands lp h ss
  = (cmd ← command_ref commands (command.index h);
     Some (ss +:+ draw_multi_serialize cmd lp)).
Proof. unfold serialize_header. by intros ->. Qed.

Lemma serialize_header_command serialize_sub sub_passes commands lp h ss :
  command.type h ≠ command.None_ → command.type h ≠ command.SubPass →
  command.type h ≠ command.DrawMulti →
  serialize_header' serialize_sub sub_passes commands lp h ss
  = (cmd ← command_ref commands (command.index h);
     Some (ss +:+ lp +:+ cmd_serialize (command.type h) cmd +:+ endl)).
Proof. unfold serialize_header. by destruct (command.type h). Qed.

(** The loop of [serialize] over a header list, given what the recursive
    calls it makes return. *)
Lemma serialize_headers_run (K : nat) (sub_passes : SubPassVector.t PassBase)
    (commands : list command.Undetermined) (depth : nat)
    (headers : list command.Header) :
  (∀ h, h ∈ headers → command.type h = command.SubPass →
     ∃ sub_pass inner,
       SubPassVector.at_ sub_pass_block_size sub_passes (command.index h)
       = Some sub_pass
       ∧ outlines' sub_passes depth sub_pass inner
       ∧ ∀ fuel lp, (K ≤ fuel)%nat →
           serialize' fuel sub_passes sub_pass (lp +:+ indent depth)
           = Some (render_all' lp inner)) →
  (∀ h, h ∈ headers → command.type h ≠ command.SubPass →
     0 ≤ command.index h < vec_size commands) →
  ∃ body,
    outlines_headers' sub_passes commands depth headers body
    ∧ ∀ fuel lp ss, (K ≤ fuel)%nat →
        for_each (serialize_header' (serialize' fuel sub_passes) sub_passes
                    commands (lp +:+ indent depth))
          headers ss
        = Some (ss +:+ render_all' lp body).
Proof.
  induction headers as [|h rest IH]; intros Hsub Hcmd.
  - exists []. split; [constructor|]. intros. simpl. by rewrite append_empty_r.
  - destruct IH as (items & Houtline & Hrun).
    { intros h' Hh'. apply Hsub. by right. }
    { intros h' Hh'. apply Hcmd. by right. }
    destruct (decide (command.type h = command.SubPass)) as [Hty|Hty].
    { destruct (Hsub h) as (sub_pass & inner & Hat & Hin & Hinner);
        [by left|done|].
      exists (inner ++ items). split; [by eapply outlines_sub_pass|].
      intros fuel lp ss Hfuel. cbn [for_each].
      rewrite serialize_header_sub_pass, Hat by done. cbn [mbind option_bind].
      rewrite Hinner by done. cbn [mbind option_bind].
      rewrite Hrun by done. by rewrite render_all_app, append_assoc. }
    destruct (decide (command.type h = command.None_)) as [Hnone|Hnone].
    { exists items. split; [by apply outlines_placeholder|].
      intros fuel lp ss Hfuel. cbn [for_each].
      rewrite serialize_header_placeholder by done. cbn [mbind option_bind].
      by apply Hrun. }
    pose proof (command_ref_lt commands (command.index h)
                  (Hcmd h ltac:(by left) Hty)) as Href.
    destruct (decide (command.type h = command.DrawMulti)) as [Hmulti|Hmulti].
    { eexists (draw_multi_block depth _ :: items).
      split; [by apply outlines_draw_multi|].
      intros fuel lp ss Hfuel. cbn [for_each].
      rewrite serialize_header_draw_multi, Href by done.
      cbn [mbind option_bind]. rewrite Hrun by done.
      simpl. by rewrite append_assoc. }
    eexists (text_line depth (cmd_serialize (command.type h) _) :: items).
    split; [by apply outlines_command|].
    intros fuel lp ss Hfuel. cbn [for_each].
    rewrite serialize_header_command, Href by done.
    cbn [mbind option_bind]. rewrite Hrun by done.
    simpl. by rewrite !append_assoc.
Qed.

Lemma serialize_run {B : Type} (p : Pass B) (k : nat) :
  tree_in_bounds p → tree_descends p →
  ∀ (self : PassBase) (bound : Z) (depth : nat),
    pass_in_bounds (SubPassVector.size (sub_passes_main_ p)) self →
    pass_descends bound self →
    -1 ≤ bound →
    SubPassVector.size (sub_passes_main_ p) ≤ bound + 1 + Z.of_nat k →
    ∃ items,
      outlines' (sub_passes_main_ p) depth self items
      ∧ ∀ fuel lp, (k < fuel)%nat →
          serialize' fuel (sub_passes_main_ p) self (lp +:+ indent depth)
          = Some (render_all' lp items).
Proof.
  intros (Hs & Hb & Hsubs) Hd.
  assert (∀ self depth (K : nat),
    (∃ body,
       outlines_headers' (sub_passes_main_ p) (commands_ self) (S depth)
         (headers_ self) body
       ∧ ∀ fuel lp ss, (K ≤ fuel)%nat →
           for_each (serialize_header' (serialize' fuel (sub_passes_main_ p))
                       (sub_passes_main_ p) (commands_ self)
                       (lp +:+ indent (S depth)))
             (headers_ self) ss
           = Some (ss +:+ render_all' lp body)) →
    ∃ items,
      outlines' (sub_passes_main_ p) depth self items
      ∧ ∀ fuel lp, (K < fuel)%nat →
          serialize' fuel (sub_passes_main_ p) self (lp +:+ indent depth)
          = Some (render_all' lp items)) as Hwrap.
  { intros self depth K (body & Houtline & Hrun).
    eexists. split; [by constructor|].
    intros [|fuel] lp Hfuel; [lia|]. cbn [serialize].
    rewrite (append_assoc lp (indent depth) "  ").
    change (indent depth +:+ "  ") with (indent (S depth)).
    rewrite Hrun by lia. simpl. by rewrite !append_assoc. }
  assert (∀ self, pass_in_bounds (SubPassVector.size (sub_passes_main_ p)) self →
    ∀ h, h ∈ headers_ self → command.type h ≠ command.SubPass →
         0 ≤ command.index h < vec_size (commands_ self)) as Hcmds.
  { intros self Hself h Hh Hty. unfold pass_in_bounds in Hself.
    rewrite Forall_forall in Hself. specialize (Hself h Hh).
    unfold header_in_bounds in Hself. by rewrite decide_False in Hself. }
  induction k as [|k IH]; intros self bound depth Hself Hbound Hm1 Hsize;
    apply (Hwrap self); apply serialize_headers_run; try by apply Hcmds.
  - intros h Hh Hty. exfalso.
    unfold pass_in_bounds, pass_descends in *.
    rewrite Forall_forall in Hself, Hbound.
    specialize (Hself h Hh). specialize (Hbound h Hh Hty).
    unfold header_in_bounds in Hself. rewrite decide_True in Hself by done.
    lia.
  - intros h Hh Hty.
    unfold pass_in_bounds, pass_descends in Hself, Hbound.
    rewrite Forall_forall in Hself, Hbound.
    specialize (Hself h Hh). specialize (Hbound h Hh Hty).
    unfold header_in_bounds in Hself. rewrite decide_True in Hself by done.
    destruct (vec_at_lt (SubPassVector.elements (sub_passes_main_ p))
                (command.index h)) as [sub_pass Hat]; [done|].
    assert (SubPassVector.elements (sub_passes_main_ p)
              !! Z.to_nat (command.index h) = Some sub_pass) as Hlook
      by (by rewrite vec_at_nonneg in Hat by lia).
    destruct (IH sub_pass (command.index h) (S depth)) as (inner & Hin & Hinner).
    + by eapply (Forall_lookup_1 _ _ _ _ Hsubs).
    + specialize (Hd _ _ Hlook). by rewrite Z2Nat.id in Hd by lia.
    + lia.
    + lia.
    + exists sub_pass, inner. split_and!; [|done|].
      * by rewrite (at_elements _ block_size_ok).
      * intros fuel lp Hfuel. apply Hinner. lia.
Qed.

End SerializeOutline.

(** ** Recordings do not depend on the manager *)

Section ManagerIndependence.
Context `{ShaderInterface} `{DrawCache} {B : Type} `{DrawCommandBufType B}.
Context {Manager : Type} `{MaterialServices Manager}.
Variable ndebug : bool.





End ManagerIndependence.

(** The scenario serialized: the sub-pass name lies one step below the
    root name, level with the commands of the root. *)
Example scenario_serialize :
  serialize sample_cmd_serialize sample_draw_multi_serialize 2
    (sub_passes_main_ scenario_state.2) (base scenario_state.2) "> "
  = Some ("> .root" +:+ endl
          +:+ ">   .shader_bind" +:+ endl
          +:+ ">   .bind" +:+ endl
          +:+ ">   .draw" +:+ endl
          +:+ ">   .inner" +:+ endl).
Proof. reflexivity. Qed.

(** Outside such sequences: a sub-pass created with [PassBase::sub] inside
    a keyed sub-pass takes an index of the shared container without adding
    a sorting value, so the next keyed sub-pass gets index 2 while
    [sorting_values_] holds two values, and [sort] reads it out of
    bounds. *)
Example sort_after_nested_sub_pass :
  (ps ← PassSortable_sub_all [("a", float_three)]
          (PassSortable_init sample_sortable);
   '(p, _) ← sub "nested" (Sub 0) (pass_main ps);
   ps ← PassSortable_sub_all [("b", float_one)]
          {| pass_main := p; sorting_values_ := sorting_values_ ps;
             sorted_ := sorted_ ps |};
   PassSortable_sort false insertion_sort ps)
  = None.
Proof. reflexivity. Qed.

(** ** SubPassVector: bounds and blocks *)

(** X1. After any sequence of appends to a cleared [SubPassVector],
    [operator[]] reads inside the container exactly for the indices
    [0 <= i < n], [n] the number of appended elements, and there it
    returns the element appended [i]-th; every other index, negative ones
    included, is a read outside the blocks. *)
Theorem SubPassVector_reads_in_bounds {T : Type} (block_size : Z)
    (v0 : SubPassVector.t T) (elems : list T) :
  1 ≤ block_size →
  let v := (SubPassVector.append_all block_size (SubPassVector.clear v0) elems).1 in
  SubPassVector.size v = vec_size elems
  ∧ ∀ i : Z,
      SubPassVector.at_ block_size v i = vec_at elems i
      ∧ (is_Some (SubPassVector.at_ block_size v i) ↔ 0 ≤ i < vec_size elems).
Proof.
  intros Hbs v.
  destruct (append_all_spec block_size Hbs (SubPassVector.clear v0) elems)
    as (Hs & He & _); [by left|].
  fold v in Hs, He. simpl in He.
  split; [unfold SubPassVector.size; by rewrite He|].
  intros i. rewrite (at_elements block_size Hbs) by done. rewrite He.
  split; [done|]. split; [apply vec_at_is_Some|apply vec_at_lt].
Qed.

Lemma SubPassVector_reads_in_bounds_witness :
  1 ≤ 2
  ∧ SubPassVector.at_ 2
      (SubPassVector.append_all 2 (SubPassVector.clear (SubPassVector.Build []))
         [10%nat; 11%nat; 12%nat]).1 3
    = None.
Proof.
  split; [lia|].
  destruct (SubPassVector_reads_in_bounds 2 (SubPassVector.Build [])
              [10%nat; 11%nat; 12%nat]) as [_ Hat]; [lia|].
  destruct (Hat 3) as [-> _]. reflexivity.
Defined.

(** The blocks of a vector of the shape the appends keep. *)
Lemma shaped_blocks {T : Type} (block_size : Z) (v : SubPassVector.t T) :
  1 ≤ block_size → SubPassVector.shaped block_size v →
  Forall (λ b, 1 ≤ vec_size b ≤ block_size) (SubPassVector.blocks_ v)
  ∧ vec_size (SubPassVector.blocks_ v)
    = (SubPassVector.size v + block_size - 1) / block_size.
Proof.
  intros Hbs [Hnil|(full & lastb & Hv & Hfull & Hlast)].
  - unfold SubPassVector.size, SubPassVector.elements. rewrite Hnil. simpl.
    split; [constructor|]. unfold vec_size. simpl.
    symmetry. apply Z.div_small. lia.
  - unfold SubPassVector.size, SubPassVector.elements. rewrite Hv. split.
    + apply Forall_app. split.
      * eapply Forall_impl; [exact Hfull|]. simpl. lia.
      * by constructor.
    + rewrite concat_app. simpl. rewrite app_nil_r.
      pose proof (full_blocks_length block_size full Hfull) as Hlen.
      assert (vec_size (concat full ++ lastb)
              = vec_size full * block_size + vec_size lastb) as ->.
      { unfold vec_size in *. rewrite length_app. lia. }
      assert (vec_size (full ++ [lastb]) = vec_size full + 1) as ->.
      { unfold vec_size. rewrite length_app. simpl. lia. }
      apply (Z.div_unique _ _ _ (vec_size lastb - 1)); lia.
Qed.

(** X2. [append_and_get_index] never lets a block grow over [block_size],
    the inline capacity of a block, so no element is ever moved: after any
    sequence of appends every block holds between 1 and [block_size]
    elements, the blocks hold the elements in append order, and there are
    as many blocks as the elements need. *)
Theorem SubPassVector_blocks_never_overflow {T : Type} (block_size : Z)
    (v0 : SubPassVector.t T) (elems : list T) :
  1 ≤ block_size →
  let v := (SubPassVector.append_all block_size (SubPassVector.clear v0) elems).1 in
  Forall (λ b, 1 ≤ vec_size b ≤ block_size) (SubPassVector.blocks_ v)
  ∧ concat (SubPassVector.blocks_ v) = elems
  ∧ vec_size (SubPassVector.blocks_ v)
    = (vec_size elems + block_size - 1) / block_size.
Proof.
  intros Hbs v.
  destruct (append_all_spec block_size Hbs (SubPassVector.clear v0) elems)
    as (Hs & He & _); [by left|].
  fold v in Hs, He. simpl in He.
  destruct (shaped_blocks block_size v Hbs Hs) as [Hblocks Hcount].
  split_and!; [done|done|].
  rewrite Hcount. unfold SubPassVector.size. by rewrite He.
Qed.

Lemma SubPassVector_blocks_never_overflow_witness :
  1 ≤ 2
  ∧ vec_size
      (SubPassVector.blocks_
         (SubPassVector.append_all 2 (SubPassVector.clear (SubPassVector.Build []))
            [10%nat; 11%nat; 12%nat]).1)
    = (vec_size [10%nat; 11%nat; 12%nat] + 2 - 1) / 2.
Proof.
  split; [lia|].
  apply (SubPassVector_blocks_never_overflow 2 (SubPassVector.Build [])
           [10%nat; 11%nat; 12%nat]). lia.
Defined.

(** X3. A write through the reference [operator[]] returns replaces the
    element at the index and nothing else: the size and every other
    element stay as they are; outside [0 <= i < size] the write is outside
    the container. *)
Theorem SubPassVector_write_through_reference {T : Type} (block_size : Z)
    (v : SubPassVector.t T) (i : Z) (x : T) :
  1 ≤ block_size → SubPassVector.shaped block_size v →
  (0 ≤ i < SubPassVector.size v →
   ∃ v', SubPassVector.update block_size v i x = Some v'
         ∧ SubPassVector.shaped block_size v'
         ∧ SubPassVector.size v' = SubPassVector.size v
         ∧ SubPassVector.at_ block_size v' i = Some x
         ∧ ∀ j, j ≠ i →
             SubPassVector.at_ block_size v' j = SubPassVector.at_ block_size v j)
  ∧ (¬ 0 ≤ i < SubPassVector.size v →
     SubPassVector.update block_size v i x = None).
Proof.
  intros Hbs Hs. split.
  - intros Hi.
    destruct (update_is_Some block_size Hbs v i x Hs Hi) as [v' Hup].
    destruct (update_spec block_size Hbs v v' i x Hs Hup) as (Hs' & He & _).
    exists v'. split; [done|]. split; [done|].
    unfold SubPassVector.size, vec_size in *.
    split; [by rewrite He, length_insert|].
    rewrite !(at_elements block_size Hbs) by done. rewrite He. split.
    + rewrite vec_at_nonneg by lia. apply list_lookup_insert_eq. lia.
    + intros j Hj. rewrite !(at_elements block_size Hbs) by done.
      rewrite He. unfold vec_at. case_bool_decide; [done|].
      apply list_lookup_insert_ne. lia.
  - intros Hi.
    destruct (SubPassVector.update block_size v i x) as [v'|] eqn:Hup; [|done].
    destruct (update_spec block_size Hbs v v' i x Hs Hup) as (_ & _ & Hr).
    by destruct Hi.
Qed.

Lemma SubPassVector_write_through_reference_witness :
  ∃ v', SubPassVector.update 2 (SubPassVector.Build [[10%nat; 11%nat]; [12%nat]]) 2 7%nat
        = Some v'
        ∧ SubPassVector.at_ 2 v' 2 = Some 7%nat.
Proof.
  destruct (SubPassVector_write_through_reference 2
              (SubPassVector.Build [[10%nat; 11%nat]; [12%nat]]) 2 7%nat)
    as [Hin _]; [lia| |].
  { right. exists [[10%nat; 11%nat]], [12%nat].
    split; [done|]. split; [by repeat constructor|]. unfold vec_size. simpl. lia. }
  destruct Hin as (v' & Hup & _ & _ & Hat & _).
  { unfold SubPassVector.size, vec_size. simpl. lia. }
  by exists v'.
Defined.

(** ** The id map: every id *)

(** X4. [BM_idmap_lookup] by range of the id, for a map whose array holds
    [map_size] entries: a negative id is answered with [NULL]; an id in
    [0, map_size) with the entry stored for it; an id of [map_size] or
    more is read from outside the array. *)
Theorem BM_idmap_lookup_by_range (idmap : bmesh_idmap.BMIdMap) (id : Z) :
  bmesh_idmap.allocated idmap →
  (id < 0 → bmesh_idmap.BM_idmap_lookup idmap id = Some NULL)
  ∧ (0 ≤ id < bmesh_idmap.map_size idmap →
     ∃ elem, bmesh_idmap.map idmap !! Z.to_nat id = Some elem
             ∧ bmesh_idmap.BM_idmap_lookup idmap id = Some elem)
  ∧ (bmesh_idmap.map_size idmap ≤ id →
     bmesh_idmap.BM_idmap_lookup idmap id = None).
Proof.
  intros Ha. split_and!.
  - apply BM_idmap_lookup_negative.
  - intros Hid.
    destruct (BM_idmap_lookup_in_range idmap id Ha Hid) as [Heq [elem Hsome]].
    exists elem. split; [by rewrite <- Heq|done].
  - intros Hid. apply BM_idmap_lookup_past_end; [done|done|].
    unfold bmesh_idmap.allocated, vec_size in Ha. lia.
Qed.

Lemma BM_idmap_lookup_by_range_witness :
  bmesh_idmap.allocated idmap_two_entries
  ∧ ∃ elem, bmesh_idmap.BM_idmap_lookup idmap_two_entries 1 = Some elem.
Proof.
  split; [reflexivity|].
  destruct (BM_idmap_lookup_by_range idmap_two_entries 1) as (_ & Hin & _);
    [reflexivity|].
  destruct Hin as (elem & _ & Hlook); [simpl; lia|].
  by exists elem.
Defined.

(** X5. [BM_idmap_on_elem_moved] never writes outside the array: for
    whatever id the moved element stores it returns, the array keeps its
    [map_size] entries, no other field of the map changes, and an id
    outside [0, map_size) leaves the map exactly as it was. *)
Theorem BM_idmap_on_elem_moved_writes_in_bounds (mesh : bmesh_idmap.BMesh)
    (idmap : bmesh_idmap.BMIdMap) (old_elem new_elem : ptr) (id : Z) :
  bmesh_idmap.allocated idmap →
  bmesh_idmap.BM_idmap_get_id mesh idmap new_elem = Some id →
  ∃ idmap',
    bmesh_idmap.BM_idmap_on_elem_moved mesh idmap old_elem new_elem = Some idmap'
    ∧ bmesh_idmap.allocated idmap'
    ∧ bmesh_idmap.map_size idmap' = bmesh_idmap.map_size idmap
    ∧ bmesh_idmap.cd_id_off idmap' = bmesh_idmap.cd_id_off idmap
    ∧ bmesh_idmap.maxid idmap' = bmesh_idmap.maxid idmap
    ∧ bmesh_idmap.freelist idmap' = bmesh_idmap.freelist idmap
    ∧ bmesh_idmap.free_idx_map idmap' = bmesh_idmap.free_idx_map idmap
    ∧ (¬ 0 ≤ id < bmesh_idmap.map_size idmap → idmap' = idmap).
Proof.
  intros Ha Hid. unfold bmesh_idmap.BM_idmap_on_elem_moved.
  rewrite Hid. cbn [mbind option_bind].
  destruct (decide (0 ≤ id < bmesh_idmap.map_size idmap)) as [Hin|Hout].
  - rewrite !bool_decide_eq_true_2 by lia. cbn [andb].
    destruct (vec_set (bmesh_idmap.map idmap) id new_elem) as [map'|] eqn:Hset.
    2:{ unfold vec_set in Hset. unfold bmesh_idmap.allocated in Ha.
        rewrite bool_decide_eq_true_2 in Hset by lia. done. }
    destruct (vec_set_lookup _ _ _ _ Hset) as (Hlen & _ & _).
    cbn [mbind option_bind]. eexists. split; [reflexivity|].
    unfold bmesh_idmap.allocated in *. simpl. split_and!; try done; lia.
  - exists idmap. split_and!; try done.
    destruct (bool_decide (0 ≤ id)) eqn:H0; [|done].
    apply bool_decide_eq_true in H0.
    by rewrite bool_decide_eq_false_2 by lia.
Qed.

Lemma BM_idmap_on_elem_moved_writes_in_bounds_witness :
  ∃ idmap',
    bmesh_idmap.BM_idmap_on_elem_moved mesh_one_vert idmap_two_entries 8192 12288
    = Some idmap'
    ∧ bmesh_idmap.allocated idmap'.
Proof.
  destruct (BM_idmap_on_elem_moved_writes_in_bounds mesh_one_vert
              idmap_two_entries 8192 12288 1)
    as (idmap' & Hmove & Ha & _); [reflexivity|reflexivity|].
  by exists idmap'.
Defined.

(** Writing the same value to the same place again changes nothing. *)
Lemma vec_set_again {A} (l l' : list A) (i : Z) (x : A) :
  vec_set l i x = Some l' → vec_set l' i x = Some l'.
Proof.
  unfold vec_set, vec_size. case_bool_decide as Hi; [|done]. intros [= <-].
  rewrite bool_decide_eq_true_2 by (rewrite length_insert; lia).
  by rewrite list_insert_insert_eq.
Qed.

(** X6. [BM_idmap_on_elem_moved] does not look at [old_elem] (its check
    has an empty body), and it is idempotent: with any other old element
    it gives the same map, and applied again to its result it changes
    nothing. *)
Theorem BM_idmap_on_elem_moved_idempotent (mesh : bmesh_idmap.BMesh)
    (idmap idmap' : bmesh_idmap.BMIdMap) (old_elem new_elem : ptr) :
  bmesh_idmap.BM_idmap_on_elem_moved mesh idmap old_elem new_elem = Some idmap' →
  ∀ other_elem,
    bmesh_idmap.BM_idmap_on_elem_moved mesh idmap other_elem new_elem = Some idmap'
    ∧ bmesh_idmap.BM_idmap_on_elem_moved mesh idmap' other_elem new_elem
      = Some idmap'.
Proof.
  unfold bmesh_idmap.BM_idmap_on_elem_moved, bmesh_idmap.BM_idmap_get_id.
  destruct (mesh new_elem) as [e|]; cbn [mbind option_bind]; [|done].
  destruct (vec_at (bmesh_idmap.cd_id_off idmap) (bmesh_idmap.htype e))
    as [off|] eqn:Hoff; cbn [mbind option_bind]; [|done].
  destruct (bool_decide _ && bool_decide _) eqn:Hin.
  - destruct (vec_set (bmesh_idmap.map idmap) _ new_elem) as [map'|] eqn:Hset;
      cbn [mbind option_bind]; [|done].
    intros [= <-] other_elem. split; [done|]. simpl.
    rewrite Hoff. cbn [mbind option_bind]. rewrite Hin.
    by rewrite (vec_set_again _ _ _ _ Hset).
  - intros [= <-] other_elem. split; [done|].
    rewrite Hoff. cbn [mbind option_bind]. by rewrite Hin.
Qed.

Lemma BM_idmap_on_elem_moved_idempotent_witness :
  ∃ idmap',
    bmesh_idmap.BM_idmap_on_elem_moved mesh_one_vert idmap_two_entries 8192 12288
    = Some idmap'
    ∧ bmesh_idmap.BM_idmap_on_elem_moved mesh_one_vert idmap' 0 12288
      = Some idmap'.
Proof.
  destruct (bmesh_idmap.BM_idmap_on_elem_moved mesh_one_vert idmap_two_entries
              8192 12288) as [idmap'|] eqn:Hmove; [|by vm_compute in Hmove].
  exists idmap'. split; [done|].
  by destruct (BM_idmap_on_elem_moved_idempotent mesh_one_vert
                 idmap_two_entries idmap' 8192 12288 Hmove 0).
Defined.

(** X7. Moving an element and moving it back restores the map: when the
    entry of the id holds [elem], and the element stores the same id at
    both addresses, [on_elem_moved(elem, moved)] followed by
    [on_elem_moved(moved, elem)] gives the map started from. *)
Theorem BM_idmap_on_elem_moved_round_trip (mesh : bmesh_idmap.BMesh)
    (idmap : bmesh_idmap.BMIdMap) (elem moved : ptr) (id : Z) :
  bmesh_idmap.allocated idmap →
  bmesh_idmap.BM_idmap_get_id mesh idmap elem = Some id →
  bmesh_idmap.BM_idmap_get_id mesh idmap moved = Some id →
  bmesh_idmap.BM_idmap_lookup idmap id = Some elem →
  ∃ idmap',
    bmesh_idmap.BM_idmap_on_elem_moved mesh idmap elem moved = Some idmap'
    ∧ bmesh_idmap.BM_idmap_on_elem_moved mesh idmap' moved elem = Some idmap.
Proof.
  intros Ha Helem Hmoved Hlook.
  unfold bmesh_idmap.BM_idmap_on_elem_moved. rewrite Hmoved.
  cbn [mbind option_bind].
  destruct (decide (0 ≤ id < bmesh_idmap.map_size idmap)) as [Hin|Hout].
  - rewrite !bool_decide_eq_true_2 by lia. cbn [andb].
    unfold bmesh_idmap.BM_idmap_lookup in Hlook.
    rewrite bool_decide_eq_true_2 in Hlook by lia.
    rewrite vec_at_nonneg in Hlook by lia.
    unfold bmesh_idmap.allocated, vec_size in Ha.
    unfold vec_set, vec_size.
    rewrite bool_decide_eq_true_2 by lia. cbn [mbind option_bind].
    eexists. split; [reflexivity|].
    unfold bmesh_idmap.BM_idmap_get_id in *. simpl. rewrite Helem.
    cbn [mbind option_bind]. rewrite !bool_decide_eq_true_2 by lia. cbn [andb].
    rewrite bool_decide_eq_true_2 by (rewrite length_insert; lia).
    cbn [mbind option_bind].
    rewrite list_insert_insert_eq, list_insert_id by done.
    by destruct idmap.
  - assert (bool_decide (0 ≤ id) && bool_decide (id < bmesh_idmap.map_size idmap)
            = false) as Hno.
    { destruct (bool_decide (0 ≤ id)) eqn:H0; [|done].
      apply bool_decide_eq_true in H0.
      by rewrite bool_decide_eq_false_2 by lia. }
    rewrite Hno. exists idmap. split; [done|].
    rewrite Helem. cbn [mbind option_bind]. by rewrite Hno.
Qed.

Lemma BM_idmap_on_elem_moved_round_trip_witness :
  ∃ idmap',
    bmesh_idmap.BM_idmap_on_elem_moved mesh_moved_vert idmap_two_entries
      8192 12288 = Some idmap'
    ∧ bmesh_idmap.BM_idmap_on_elem_moved mesh_moved_vert idmap' 12288 8192
      = Some idmap_two_entries.
Proof.
  apply (BM_idmap_on_elem_moved_round_trip mesh_moved_vert idmap_two_entries
           8192 12288 1); reflexivity.
Defined.

(** ** The recording calls in closed form *)


Lemma with_commands_app (self : PassBase)
    (a b : list (command.Type_ * command.Undetermined)) :
  with_commands (with_commands self a) b = with_commands self (a ++ b).
Proof.
  unfold with_commands. simpl. rewrite fmap_app, imap_app, <- !app_assoc.
  f_equal. do 2 f_equal. apply imap_ext. intros k cmd _. simpl. do 2 f_equal.
  unfold vec_size. rewrite length_app, length_fmap. lia.
Qed.


(** [create_command] followed by the assignment records one command. *)
Lemma record_command_with_commands (ty : command.Type_)
    (cmd : command.Undetermined) (self : PassBase) :
  record_command ty cmd self = Some (with_commands self [(ty, cmd)]).
Proof.
  rewrite record_command_eq. unfold with_commands. simpl.
  by rewrite Z.add_0_r.
Qed.

Section LocalCalls.
Context `{ShaderInterface} `{DrawCache}.
Variable ndebug : bool.

Local Ltac unfold_local :=
  unfold clear_color, clear_depth, clear_stencil, clear_depth_stencil,
    clear_color_depth_stencil, pass_clear, state_set, state_stencil,
    shader_set, draw_procedural_indirect, draw_indirect, dispatch,
    dispatch_ref, dispatch_indirect, barrier,
    bind_image, bind_texture, bind_ssbo, bind_ubo,
    bind_image_slot, bind_texture_slot, bind_ssbo_slot, bind_ubo_slot,
    push_constant_bool, push_constant_floats, push_constant_ints,
    push_constant_float4x4_ref, push_constant_float_ref, push_constant_int_ref.

(** X8. Headers and commands grow in lockstep.  Every recording call that
    only touches its own pass appends one command slot and one header
    indexing it, or three of each for the matrix push constant; it creates
    no sub-pass header, leaves the headers and commands recorded before
    and the name as they are, and only [shader_set] changes the bound
    shader. *)
Theorem record_local_lockstep (op : RecordOp) (f : PassBase → option PassBase)
    (self self' : PassBase) :
  record_local ndebug op = Some f → f self = Some self' →
  ∃ cmds,
    self'
    = with_commands
        {| headers_ := headers_ self; commands_ := commands_ self;
           shader_ := (if op is op_shader_set shader then shader
                       else shader_ self);
           debug_name := debug_name self |}
        cmds
    ∧ length cmds = (if op is op_push_constant_float4x4 _ _ then 3 else 1)%nat
    ∧ Forall (λ cmd, cmd.1 ≠ command.SubPass) cmds.
Proof.
  destruct self as [headers commands shader name].
  destruct op; simpl; intros [= <-]; try done; unfold_local;
    unfold push_constant_float4x4;
    repeat match goal with
    | |- context [BLI_assert ?b ?c] =>
        destruct (BLI_assert b c); cbn [mbind option_bind]; [|done]
    | |- context [procedural_batch_get ?b ?p] =>
        destruct (procedural_batch_get b p); cbn [mbind option_bind]; [|done]
    end;
    repeat (rewrite record_command_with_commands; cbn [mbind option_bind]);
    rewrite ?with_commands_app; cbn [app];
    intros [= <-]; eexists; (split; [reflexivity|]);
    (split; [reflexivity|]); by repeat constructor.
Qed.

(** X9. [dispatch] (all three overloads) and [draw_indirect] assert a
    bound shader: they abort exactly in a debug build on a pass with no
    shader bound, and record in every other case. *)
Theorem recording_asserts_bound_shader (self : PassBase) :
  (∀ group_len,
     dispatch ndebug group_len self = None
     ↔ ndebug = false ∧ shader_ self = NULL)
  ∧ (∀ group_len,
       dispatch_ref ndebug group_len self = None
       ↔ ndebug = false ∧ shader_ self = NULL)
  ∧ (∀ indirect_buffer,
       dispatch_indirect ndebug indirect_buffer self = None
       ↔ ndebug = false ∧ shader_ self = NULL)
  ∧ (∀ batch indirect_buffer handle,
       draw_indirect ndebug batch indirect_buffer handle self = None
       ↔ ndebug = false ∧ shader_ self = NULL).
Proof.
  assert (∀ ty cmd,
    (_ ← BLI_assert ndebug (bool_decide (shader_ self ≠ NULL));
     record_command ty cmd self) = None
    ↔ ndebug = false ∧ shader_ self = NULL) as Hassert.
  { intros ty cmd. rewrite record_command_eq. unfold BLI_assert.
    destruct ndebug; simpl; [by split; [|intros [? _]]|].
    case_bool_decide as Hshader; simpl; [by split; [|intros [_ ?]]|].
    split; [|done]. intros _. split; [done|].
    by destruct (decide (shader_ self = NULL)). }
  split_and!; intros; apply Hassert.
Qed.

(** A command recorded behind the assertion of a bound shader. *)
Lemma asserted_command_fails (ty : command.Type_) (cmd : command.Undetermined)
    (self : PassBase) :
  (_ ← BLI_assert ndebug (bool_decide (shader_ self ≠ NULL));
   record_command ty cmd self) = None
  ↔ ndebug = false ∧ shader_ self = NULL.
Proof.
  rewrite record_command_eq. unfold BLI_assert.
  destruct ndebug; simpl; [by split; [|intros [? _]]|].
  case_bool_decide as Hshader; simpl; [by split; [|intros [_ ?]]|].
  split; [|done]. intros _. split; [done|].
  by destruct (decide (shader_ self = NULL)).
Qed.

(** X10. When a recording call that only touches its own pass fails.  A
    call by name hands the bound shader to the shader interface, so it is
    considered on a pass with a shader bound.  Then the call returns in
    every release build; in a debug build it fails exactly when it asserts
    a bound shader and there is none, or when it is a procedural indirect
    draw of a primitive that has no procedural batch. *)
Theorem record_local_returns (op : RecordOp) (f : PassBase → option PassBase)
    (self : PassBase) :
  record_local ndebug op = Some f →
  (queries_shader op = true → shader_ self ≠ NULL) →
  f self = None
  ↔ ndebug = false
    ∧ ((asserts_shader op = true ∧ shader_ self = NULL)
       ∨ ∃ code indirect_buffer handle,
           op = op_draw_procedural_indirect (GPU_PRIM_OTHER code)
                  indirect_buffer handle).
Proof.
  intros Hop _.
  destruct op; simpl in Hop; try done; injection Hop as <-;
    cbn [asserts_shader]; unfold_local;
    try (rewrite ?record_command_eq, ?push_constant_float4x4_eq;
         split; [done|by intros [_ [[? _]|(? & ? & ? & ?)]]]).
  all: try (rewrite asserted_command_fails;
            split; [intros [? ?]; split; [done|by left]
                   |by intros [? [[_ ?]|(? & ? & ? & ?)]]]).
  destruct primitive; cbn [procedural_batch_get mbind option_bind];
    try (rewrite asserted_command_fails;
         split; [intros [? ?]; split; [done|by left]
                |by intros [? [[_ ?]|(? & ? & ? & ?)]]]).
  destruct ndebug; unfold BLI_assert; cbn [orb mbind option_bind].
  - rewrite record_command_eq. split; [done|by intros [? _]].
  - split; [|done]. intros _. split; [done|]. right. by do 3 eexists.
Qed.

(** X11. Names are resolved when the call is recorded, against the shader
    bound last: after [shader_set(shader)] a bind by name records the slot
    the interface of [shader] gives for the name, and a push constant the
    location it gives, whatever shader was bound before. *)
Theorem names_resolve_against_bound_shader (shader : ptr) (self : PassBase) :
  let recorded (call : PassBase → option PassBase) (cmd : command.Undetermined) :=
    ∃ self', (shader_set shader self ≫= call) = Some self'
             ∧ shader_ self' = shader
             ∧ commands_ self'
               = commands_ self ++ [command.shader_bind shader; cmd] in
  (∀ by_ref name texture state,
     recorded (bind_texture by_ref name texture state)
       (command.resource_bind (GPU_shader_get_texture_binding shader name)
          by_ref command.Sampler texture state))
  ∧ (∀ by_ref name image,
       recorded (bind_image by_ref name image)
         (command.resource_bind (GPU_shader_get_texture_binding shader name)
            by_ref command.Image image 0))
  ∧ (∀ by_ref name buffer,
       recorded (bind_ssbo by_ref name buffer)
         (command.resource_bind (GPU_shader_get_ssbo shader name)
            by_ref command.StorageBuf buffer 0))
  ∧ (∀ by_ref name buffer,
       recorded (bind_ubo by_ref name buffer)
         (command.resource_bind
            (GPU_shader_get_uniform_block_binding shader name)
            by_ref command.UniformBuf buffer 0))
  ∧ (∀ name data,
       recorded (push_constant_floats name data)
         (command.push_constant
            {| command.location := GPU_shader_get_uniform shader name;
               command.array_len := 1;
               command.comp_len := vec_size data;
               command.pc_type := command.FloatValue;
               command.value := command.floats data |})).
Proof.
  intros recorded. subst recorded. cbv beta.
  unfold shader_set. rewrite record_command_eq. cbn [mbind option_bind].
  unfold bind_texture, bind_image, bind_ssbo, bind_ubo, push_constant_floats,
    bind_texture_slot, bind_image_slot, bind_ssbo_slot, bind_ubo_slot,
    push_constant_offset.
  split_and!; intros; rewrite record_command_eq; eexists;
    (split; [reflexivity|]); cbn [shader_ commands_];
    by rewrite <- app_assoc.
Qed.

End LocalCalls.

Lemma record_local_lockstep_witness :
  ∃ cmds,
    @push_constant_float4x4 sample_shader_interface "model" identity_matrix
      sample_pass
    = Some (with_commands sample_pass cmds)
    ∧ length cmds = 3%nat.
Proof.
  destruct (@push_constant_float4x4 sample_shader_interface "model"
              identity_matrix sample_pass) as [self'|] eqn:Hrec;
    [|by vm_compute in Hrec].
  destruct (@record_local_lockstep sample_shader_interface sample_draw_cache
              false (op_push_constant_float4x4 "model" identity_matrix)
              _ sample_pass self' eq_refl Hrec) as (cmds & -> & Hlen & _).
  by exists cmds.
Defined.

Lemma record_local_returns_witness :
  @bind_texture sample_shader_interface false "tex" 8192 0 sample_pass ≠ None
  ∧ dispatch false (1, 1, 1) (PassBase_new "unbound" NULL) = None.
Proof.
  split.
  - intros Hfail.
    apply (@record_local_returns sample_shader_interface sample_draw_cache
             false (op_bind_texture false "tex" 8192 0) _ sample_pass eq_refl)
      in Hfail as [_ [[? _]|(? & ? & ? & ?)]]; done.
  - apply (@record_local_returns sample_shader_interface sample_draw_cache
             false (op_dispatch (1, 1, 1)) _ (PassBase_new "unbound" NULL)
             eq_refl); [done|].
    split; [done|]. by left.
Defined.

(** ** material_set *)

Section MaterialFacts.
Context `{ShaderInterface} `{DrawCache} {Manager : Type} `{MaterialServices Manager}.

Local Abbreviation texture_command shader :=
  (λ b : string * ptr * Z,
     (command.ResourceBind,
      command.resource_bind (GPU_shader_get_texture_binding shader b.1.1)
        false command.Sampler b.1.2 b.2)).




End MaterialFacts.

(** ** Calls on the pass tree *)

Section TreeCalls.
Context `{ShaderInterface} `{DrawCache} {B : Type} `{DrawCommandBufType B}.
Context {Manager : Type} `{MaterialServices Manager}.
Variable ndebug : bool.

Local Abbreviation nsubs p := (SubPassVector.size (sub_passes_main_ p)).
Local Abbreviation shaped p :=
  (SubPassVector.shaped sub_pass_block_size (sub_passes_main_ p)).

(** Storing into a pass that can be read succeeds. *)
Lemma set_pass_is_Some (p : Pass B) (r : PassRef) (self self' : PassBase) :
  shaped p → get_pass p r = Some self → is_Some (set_pass p r self').
Proof.
  intros Hs Hget. destruct r as [|i]; simpl; [done|].
  destruct (get_pass_Sub _ _ _ Hs Hget) as [Hi _].
  destruct (update_is_Some _ block_size_ok (sub_passes_main_ p) i self' Hs Hi)
    as [v ->].
  done.
Qed.

(** [set_pass] leaves the draw command buffer alone. *)
Lemma set_pass_buf (p p' : Pass B) (r : PassRef) (self : PassBase) :
  set_pass p r self = Some p' →
  draw_commands_buf_main_ p' = draw_commands_buf_main_ p.
Proof.
  destruct r; simpl.
  - by intros [= <-].
  - destruct (SubPassVector.update _ _ _ _); simpl; [|done]. by intros [= <-].
Qed.

(** X13. [sub] on a valid pass always returns.  The new sub-pass takes
    the next index of the shared container; it starts with no header and
    no command, under its name, with the shader bound in the parent at
    that moment.  The parent gains one sub-pass header carrying that
    index, and no other pass nor the draw command buffer changes. *)
Theorem sub_creates_empty_sub_pass (name : string) (r : PassRef) (p : Pass B)
    (self : PassBase) :
  shaped p → get_pass p r = Some self →
  ∃ p',
    sub name r p = Some (p', Sub (nsubs p))
    ∧ shaped p'
    ∧ nsubs p' = nsubs p + 1
    ∧ get_pass p' (Sub (nsubs p)) = Some (PassBase_new name (shader_ self))
    ∧ get_pass p' r = Some (with_sub_header self (nsubs p))
    ∧ (∀ r', r' ≠ r → r' ≠ Sub (nsubs p) → get_pass p' r' = get_pass p r')
    ∧ draw_commands_buf_main_ p' = draw_commands_buf_main_ p.
Proof.
  intros Hs Hget. unfold sub. rewrite Hget. cbn [mbind option_bind].
  destruct (append_and_get_index_spec _ block_size_ok (sub_passes_main_ p)
              (PassBase_new name (shader_ self)) Hs) as (Hs1 & He1 & Hi1).
  destruct (SubPassVector.append_and_get_index _ _ _) as [subs1 index].
  simpl in Hs1, He1, Hi1. subst index.
  fold (nsubs p).
  set (p1 := {| base := base p; sub_passes_main_ := subs1;
                draw_commands_buf_main_ := draw_commands_buf_main_ p |}).
  assert (0 ≤ nsubs p) as Hn0 by (unfold SubPassVector.size, vec_size; lia).
  assert (∀ r', r' ≠ Sub (nsubs p) → get_pass p1 r' = get_pass p r') as Hkeep.
  { intros [|j] Hne; [done|]. rewrite !get_pass_elements by done.
    simpl. rewrite He1. unfold vec_at. case_bool_decide; [done|].
    destruct (decide (Z.to_nat j < length (SubPassVector.elements
                                             (sub_passes_main_ p)))%nat).
    - by rewrite lookup_app_l.
    - rewrite lookup_app_r by lia.
      rewrite (lookup_ge_None_2 (SubPassVector.elements _)) by lia.
      destruct (Z.to_nat j - _)%nat eqn:Hd; [|done].
      exfalso. apply Hne. f_equal.
      unfold SubPassVector.size, vec_size. lia. }
  assert (get_pass p1 (Sub (nsubs p))
          = Some (PassBase_new name (shader_ self))) as Hnew.
  { rewrite get_pass_elements by done. simpl. rewrite He1.
    rewrite vec_at_nonneg by done. unfold SubPassVector.size, vec_size.
    rewrite Nat2Z.id, lookup_app_r, Nat.sub_diag by lia. done. }
  assert (r ≠ Sub (nsubs p)) as Hr.
  { intros ->. rewrite get_pass_elements in Hget by done.
    apply mk_is_Some, vec_at_is_Some in Hget.
    unfold SubPassVector.size in *. lia. }
  rewrite Hkeep, Hget by done. cbn [mbind option_bind].
  fold (with_sub_header self (nsubs p)).
  destruct (set_pass_is_Some p1 r self (with_sub_header self (nsubs p)))
    as [p2 Hset]; [done|by rewrite Hkeep|].
  rewrite Hset. cbn [mbind option_bind].
  destruct (set_pass_frame p1 p2 r _ Hs1 Hset) as [Hstored Hframe].
  destruct (set_pass_spec p1 p2 r _ Hs1 Hset) as (Hs2 & Hn2 & _).
  rewrite Hframe, Hnew by done. cbn [mbind option_bind].
  exists p2. split_and!; try done.
  - rewrite Hn2. unfold SubPassVector.size, vec_size. simpl.
    rewrite He1, length_app. simpl. lia.
  - by rewrite Hframe.
  - intros r' Hne1 Hne2. rewrite Hframe by done. by apply Hkeep.
  - destruct r; simpl in Hset.
    + by injection Hset as <-.
    + destruct (SubPassVector.update _ _ _ _); simpl in Hset; [|done].
      by injection Hset as <-.
Qed.

(** X14. [Pass::init] discards the recording and keeps the rest: no
    header, no command and no sub-pass is left, so every reference to a
    sub-pass dangles, while the bound shader and the name stay.  A
    submission then only opens and closes the debug group, and
    [serialize] prints the name line alone. *)
Theorem Pass_init_discards_recording (p : Pass B) :
  headers_ (base (Pass_init p)) = []
  ∧ commands_ (base (Pass_init p)) = []
  ∧ shader_ (base (Pass_init p)) = shader_ (base p)
  ∧ debug_name (base (Pass_init p)) = debug_name (base p)
  ∧ (∀ index, get_pass (Pass_init p) (Sub index) = None)
  ∧ (∀ (RecordingState : Type) execute GPU_debug_group_begin
       GPU_debug_group_end (state : RecordingState) (fuel : nat),
       submit RecordingState execute GPU_debug_group_begin GPU_debug_group_end
         (S fuel) (sub_passes_main_ (Pass_init p)) (base (Pass_init p)) state
       = Some (GPU_debug_group_end
                 (GPU_debug_group_begin (debug_name (base p)) state)))
  ∧ (∀ cmd_serialize draw_multi_serialize (fuel : nat) (line_prefix : string),
       serialize cmd_serialize draw_multi_serialize (S fuel)
         (sub_passes_main_ (Pass_init p)) (base (Pass_init p)) line_prefix
       = Some (line_prefix +:+ "." +:+ debug_name (base p) +:+ endl)).
Proof.
  split_and!; try done.
  intros index. simpl. unfold SubPassVector.at_. simpl.
  by rewrite vec_at_nil.
Qed.

(** X15. A recording call through a reference that no longer names a pass
    of the tree reads outside the container and records nothing.  The one
    exception are the draws with a zero count, which return before they
    touch the pass. *)
Theorem dangling_reference_fails (op : RecordOp) (r : PassRef)
    (manager : Manager) (p : Pass B) :
  get_pass p r = None →
  match op with
  | op_draw _ instance_len vertex_len _ _
  | op_draw_procedural _ instance_len vertex_len _ _ =>
      instance_len ≠ 0 ∧ vertex_len ≠ 0
  | _ => True
  end →
  record ndebug op r (manager, p) = None.
Proof.
  intros Hget Hop. unfold record.
  destruct (record_local ndebug op) as [f|] eqn:Hlocal.
  { unfold on_pass. by rewrite Hget. }
  assert (∀ batch il vl vf handle, il ≠ 0 → vl ≠ 0 →
            draw ndebug batch il vl vf handle r p = None) as Hdraw.
  { intros batch il vl vf handle Hil Hvl. unfold draw.
    rewrite !bool_decide_eq_false_2 by done. cbn [orb]. by rewrite Hget. }
  destruct op; try done.
  - unfold sub. by rewrite Hget.
  - by rewrite Hget.
  - destruct Hop. by rewrite Hdraw.
  - unfold draw_handle. by rewrite Hdraw.
  - destruct Hop. unfold draw_procedural.
    destruct (procedural_batch_get ndebug primitive); [|done].
    cbn [mbind option_bind]. by rewrite Hdraw.
Qed.

(** X16. When [draw] fails.  A draw with a zero instance or vertex count
    never fails.  Any other draw fails exactly when its pass reference
    dangles, or in a debug build when no shader is bound.
    [draw_procedural] fails in these cases and, in a debug build, for a
    primitive without a procedural batch, there whatever the counts. *)
Theorem draw_failure_cases (batch : ptr)
    (instance_len vertex_len vertex_first handle : Z) (r : PassRef)
    (p : Pass B) :
  shaped p →
  let aborts :=
    instance_len ≠ 0 ∧ vertex_len ≠ 0
    ∧ (get_pass p r = None
       ∨ (ndebug = false
          ∧ ∃ self, get_pass p r = Some self ∧ shader_ self = NULL)) in
  (draw ndebug batch instance_len vertex_len vertex_first handle r p = None
   ↔ aborts)
  ∧ ∀ primitive,
      draw_procedural ndebug primitive instance_len vertex_len vertex_first
        handle r p = None
      ↔ (ndebug = false ∧ ∃ code, primitive = GPU_PRIM_OTHER code) ∨ aborts.
Proof.
  intros Hs aborts.
  assert (∀ b, draw ndebug b instance_len vertex_len vertex_first handle r p
               = None ↔ aborts) as Hdraw.
  { intros b. unfold draw, aborts.
    destruct (decide (instance_len = 0)) as [->|Hil].
    { rewrite bool_decide_eq_true_2 by done. cbn [orb].
      split; [done|]. by intros [? _]. }
    destruct (decide (vertex_len = 0)) as [->|Hvl].
    { rewrite (bool_decide_eq_true_2 (0 = 0)) by done. rewrite orb_true_r.
      split; [done|]. by intros (_ & ? & _). }
    rewrite !bool_decide_eq_false_2 by done. cbn [orb].
    destruct (get_pass p r) as [self|] eqn:Hget; cbn [mbind option_bind].
    2:{ split; [|done]. intros _. split_and!; [done|done|by left]. }
    unfold BLI_assert.
    destruct ndebug; cbn [orb mbind option_bind].
    { destruct (append_draw _ _ _ _ _ _ _ _) as [[buf headers] commands].
      destruct (set_pass_is_Some
                  {| base := base p; sub_passes_main_ := sub_passes_main_ p;
                     draw_commands_buf_main_ := buf |} r self
                  {| headers_ := headers; commands_ := commands;
                     shader_ := shader_ self; debug_name := debug_name self |})
        as [p' ->]; [done|done|].
      split; [done|]. intros (_ & _ & [?|[? _]]); done. }
    case_bool_decide as Hshader; cbn [mbind option_bind].
    { destruct (append_draw _ _ _ _ _ _ _ _) as [[buf headers] commands].
      destruct (set_pass_is_Some
                  {| base := base p; sub_passes_main_ := sub_passes_main_ p;
                     draw_commands_buf_main_ := buf |} r self
                  {| headers_ := headers; commands_ := commands;
                     shader_ := shader_ self; debug_name := debug_name self |})
        as [p' ->]; [done|done|].
      split; [done|]. intros (_ & _ & [?|(_ & self' & [= <-] & ?)]); done. }
    split; [|done]. intros _. split_and!; [done|done|]. right.
    split; [done|]. exists self. split; [done|].
    by destruct (decide (shader_ self = NULL)). }
  split; [apply Hdraw|].
  intros primitive. unfold draw_procedural.
  destruct primitive; cbn [procedural_batch_get mbind option_bind];
    try (rewrite Hdraw; split; [by right|]; by intros [[_ [code ?]]|?]).
  unfold BLI_assert. destruct ndebug; cbn [orb mbind option_bind].
  - rewrite Hdraw. split; [by right|]. by intros [[? _]|?].
  - split; [|done]. intros _. left. split; [done|]. by exists code.
Qed.

(** X17. The short form [draw(batch, handle)] is never dropped: when it
    returns, the pass holds what [append_draw] of the command buffer left
    for the instance count, vertex count and first vertex [(uint)-1], the
    buffer is the one [append_draw] returned, and no other pass
    changed. *)
Theorem draw_handle_reaches_the_buffer (batch : ptr) (handle : Z)
    (r : PassRef) (p p' : Pass B) :
  shaped p →
  draw_handle ndebug batch handle r p = Some p' →
  ∃ self,
    get_pass p r = Some self
    ∧ let appended :=
        append_draw (draw_commands_buf_main_ p) (headers_ self) (commands_ self)
          batch (2 ^ 32 - 1) (2 ^ 32 - 1) (2 ^ 32 - 1) handle in
      draw_commands_buf_main_ p' = appended.1.1
      ∧ get_pass p' r
        = Some {| headers_ := appended.1.2; commands_ := appended.2;
                  shader_ := shader_ self; debug_name := debug_name self |}
      ∧ ∀ r', r' ≠ r → get_pass p' r' = get_pass p r'.
Proof.
  intros Hs. unfold draw_handle, draw, uint_minus_1.
  rewrite !bool_decide_eq_false_2 by done. cbn [orb].
  destruct (get_pass p r) as [self|] eqn:Hget; cbn [mbind option_bind]; [|done].
  destruct (BLI_assert _ _); cbn [mbind option_bind]; [|done].
  destruct (append_draw _ _ _ _ _ _ _ _) as [[buf headers] commands] eqn:Hap.
  intros Hset. exists self. split; [done|]. rewrite Hap. cbn [fst snd].
  set (p1 := {| base := base p; sub_passes_main_ := sub_passes_main_ p;
                draw_commands_buf_main_ := buf |}) in Hset.
  destruct (set_pass_frame p1 p' r _ Hs Hset) as [Hstored Hframe].
  split_and!; [|done|].
  - destruct r; simpl in Hset.
    + by injection Hset as <-.
    + destruct (SubPassVector.update _ _ _ _); simpl in Hset; [|done].
      by injection Hset as <-.
  - intros r' Hne. rewrite Hframe by done. by destruct r'.
Qed.

End TreeCalls.

Lemma sub_creates_empty_sub_pass_witness :
  ∃ p',
    sub "inner" Root (Pass_init sample_root) = Some (p', Sub 0)
    ∧ get_pass p' (Sub 0) = Some (PassBase_new "inner" NULL).
Proof.
  destruct (sub_creates_empty_sub_pass "inner" Root (Pass_init sample_root)
              (base (Pass_init sample_root)))
    as (p' & Hsub & _ & _ & Hnew & _); [by left|reflexivity|].
  by exists p'.
Defined.

Lemma dangling_reference_fails_witness :
  @record sample_shader_interface sample_draw_cache DrawCommandBuf _
    (list ptr) sample_material_services false (op_state_set 1) (Sub 0)
    ([], Pass_init sample_root)
  = None.
Proof.
  by apply (@dangling_reference_fails sample_shader_interface
              sample_draw_cache DrawCommandBuf _ (list ptr)
              sample_material_services false (op_state_set 1) (Sub 0) []
              (Pass_init sample_root)).
Defined.

Lemma draw_failure_cases_witness :
  @draw DrawCommandBuf _ false 12288 1 3 0 0 Root (Pass_init sample_root) = None.
Proof.
  destruct (@draw_failure_cases sample_draw_cache DrawCommandBuf
              _ false 12288 1 3 0 0 Root (Pass_init sample_root))
    as [Hdraw _]; [by left|].
  apply Hdraw. split_and!; [done|done|]. right. split; [done|].
  by eexists.
Defined.

Lemma draw_handle_reaches_the_buffer_witness :
  ∃ p' self,
    @draw_handle DrawCommandBuf _ false 12288 0 Root sample_bound_root = Some p'
    ∧ get_pass sample_bound_root Root = Some self
    ∧ ∀ r', r' ≠ Root → get_pass p' r' = get_pass sample_bound_root r'.
Proof.
  destruct (@draw_handle DrawCommandBuf _ false 12288 0 Root sample_bound_root)
    as [p'|] eqn:Hdraw; [|by vm_compute in Hdraw].
  destruct (@draw_handle_reaches_the_buffer DrawCommandBuf _ false 12288 0
              Root sample_bound_root p') as (self & Hget & _ & _ & Hframe);
    [by left|done|].
  by exists p', self.
Defined.

Section Frames.
Context `{ShaderInterface} `{DrawCache} {B : Type} `{DrawCommandBufType B}.
Context `{!DrawCommandBufLawful B}.
Context {Manager : Type} `{MaterialServices Manager}.
Variable ndebug : bool.

Local Abbreviation nsubs p := (SubPassVector.size (sub_passes_main_ p)).

(** Only [sub] creates a sub-pass, and exactly one. *)
Lemma record_sub_pass_count (op : RecordOp) (r : PassRef)
    (st st' : Manager * Pass B) :
  tree_in_bounds st.2 → record ndebug op r st = Some st' →
  nsubs st'.2 = nsubs st.2 + (if op is op_sub _ then 1 else 0).
Proof.
  destruct st as [manager p]. cbn [snd]. intros Hin. unfold record.
  destruct (record_local ndebug op) as [f|] eqn:Hlocal.
  - destruct (on_pass f r p) as [p1|] eqn:Hon; cbn [mbind option_bind]; [|done].
    intros [= <-]. cbn [snd].
    destruct (on_pass_extends f r p p1) as (_ & Hn & _); [|done|done|].
    { intros self self'. by apply (record_local_extends ndebug op). }
    destruct op; try done; lia.
  - destruct op; try done.
    + destruct (sub name r p) as [[p1 r1]|] eqn:Hsub;
        cbn [mbind option_bind]; [|done].
      intros [= <-]. by destruct (sub_spec _ _ _ _ _ Hin Hsub) as (_ & Hn & _).
    + destruct (get_pass p r) as [self|] eqn:Hget;
        cbn [mbind option_bind]; [|done].
      destruct (material_set manager material self) as [[m1 self1]|] eqn:Hm;
        cbn [mbind option_bind]; [|done].
      destruct (set_pass p r self1) as [p1|] eqn:Hset;
        cbn [mbind option_bind]; [|done].
      intros [= <-]. cbn [snd].
      destruct (set_pass_extends p p1 r self self1) as (_ & Hn & _);
        [done|done|by eapply material_set_extends|done|]. lia.
    + destruct (draw _ _ _ _ _ _ _ _) as [p1|] eqn:Hdraw;
        cbn [mbind option_bind]; [|done].
      intros [= <-]. cbn [snd].
      destruct (draw_spec _ _ _ _ _ _ _ _ _ Hin Hdraw) as (_ & Hn & _). lia.
    + unfold draw_handle.
      destruct (draw _ _ _ _ _ _ _ _) as [p1|] eqn:Hdraw;
        cbn [mbind option_bind]; [|done].
      intros [= <-]. cbn [snd].
      destruct (draw_spec _ _ _ _ _ _ _ _ _ Hin Hdraw) as (_ & Hn & _). lia.
    + unfold draw_procedural.
      destruct (procedural_batch_get _ _) as [batch|];
        cbn [mbind option_bind]; [|done].
      destruct (draw _ _ _ _ _ _ _ _) as [p1|] eqn:Hdraw;
        cbn [mbind option_bind]; [|done].
      intros [= <-]. cbn [snd].
      destruct (draw_spec _ _ _ _ _ _ _ _ _ Hin Hdraw) as (_ & Hn & _). lia.
Qed.

(** X18. What a recording call leaves alone.  Only [sub] creates a
    sub-pass, and exactly one; only [material_set] touches the manager;
    only the draw calls touch the draw command buffer. *)
Theorem record_touches_only_its_part (op : RecordOp) (r : PassRef)
    (manager manager' : Manager) (p p' : Pass B) :
  tree_in_bounds p →
  record ndebug op r (manager, p) = Some (manager', p') →
  nsubs p' = nsubs p + (if op is op_sub _ then 1 else 0)
  ∧ (if op is op_material_set _ then True else manager' = manager)
  ∧ match op with
    | op_draw _ _ _ _ _ | op_draw_handle _ _ | op_draw_procedural _ _ _ _ _ =>
        True
    | _ => draw_commands_buf_main_ p' = draw_commands_buf_main_ p
    end.
Proof.
  intros Hin Hrec.
  split; [exact (record_sub_pass_count op r (manager, p) (manager', p') Hin Hrec)|].
  revert Hrec. unfold record.
  destruct (record_local ndebug op) as [f|] eqn:Hlocal.
  - destruct (on_pass f r p) as [p1|] eqn:Hon; cbn [mbind option_bind]; [|done].
    intros [= <- <-].
    assert (draw_commands_buf_main_ p1 = draw_commands_buf_main_ p) as Hbuf.
    { revert Hon. unfold on_pass.
      destruct (get_pass p r) as [self|]; cbn [mbind option_bind]; [|done].
      destruct (f self) as [self'|]; cbn [mbind option_bind]; [|done].
      apply set_pass_buf. }
    by destruct op.
  - destruct op; try done.
    + unfold sub.
      destruct (get_pass p r) as [self|]; cbn [mbind option_bind]; [|done].
      destruct (SubPassVector.append_and_get_index _ _ _) as [subs1 index].
      destruct (get_pass _ r) as [self1|]; cbn [mbind option_bind]; [|done].
      destruct (set_pass _ r _) as [p2|] eqn:Hset;
        cbn [mbind option_bind]; [|done].
      destruct (get_pass p2 _); cbn [mbind option_bind]; [|done].
      intros [= <- <-]. split; [done|]. by rewrite (set_pass_buf _ _ _ _ Hset).
    + destruct (get_pass p r) as [self|]; cbn [mbind option_bind]; [|done].
      destruct (material_set manager material self) as [[m1 self1]|];
        cbn [mbind option_bind]; [|done].
      destruct (set_pass p r self1) as [p1|] eqn:Hset;
        cbn [mbind option_bind]; [|done].
      intros [= <- <-]. split; [done|]. by eapply set_pass_buf.
    + destruct (draw _ _ _ _ _ _ _ _); cbn [mbind option_bind]; [|done].
      by intros [= <- <-].
    + destruct (draw_handle _ _ _ _ _); cbn [mbind option_bind]; [|done].
      by intros [= <- <-].
    + destruct (draw_procedural _ _ _ _ _ _ _ _); cbn [mbind option_bind];
        [|done].
      by intros [= <- <-].
Qed.

(** X19. References stay valid while recording.  Whatever calls are
    recorded on whatever passes of the tree, a reference that named a pass
    before still names one after, and the headers that pass held are a
    prefix of the ones it holds then. *)
Theorem references_stay_valid (calls : list (PassRef * RecordOp))
    (st st' : Manager * Pass B) (r : PassRef) (self : PassBase) :
  tree_in_bounds st.2 →
  record_all ndebug calls st = Some st' →
  get_pass st.2 r = Some self →
  ∃ self' added,
    get_pass st'.2 r = Some self'
    ∧ headers_ self' = headers_ self ++ added.
Proof.
  unfold record_all. revert st self.
  induction calls as [|[r1 op] rest IH]; intros st self Hin;
    cbn [for_each fst snd].
  - intros [= <-] Hget. exists self, []. by rewrite app_nil_r.
  - destruct (record ndebug op r1 st) as [st1|] eqn:Hrec;
      cbn [mbind option_bind]; [|done].
    intros Hrest Hget.
    destruct (record_spec _ _ _ _ _ Hin Hrec) as (Hin1 & _ & _).
    destruct (record_appends ndebug op r1 st st1 Hin Hrec) as [Hsame Hframe].
    assert (∃ self1 added1,
              get_pass st1.2 r = Some self1
              ∧ headers_ self1 = headers_ self ++ added1)
      as (self1 & added1 & Hget1 & Hh1).
    { destruct (decide (r = r1)) as [->|Hne].
      - destruct Hsame as [Heq|(self0 & self1 & added1 & Hget0 & Hget1 & Hh1)].
        + exists self, []. by rewrite app_nil_r, Heq.
        + exists self1, added1. split; [done|]. congruence.
      - exists self, []. rewrite app_nil_r. split; [|done]. by apply Hframe. }
    destruct (IH st1 self1 Hin1 Hrest Hget1) as (self' & added & Hget' & Hh').
    exists self', (added1 ++ added). split; [done|].
    by rewrite Hh', Hh1, app_assoc.
Qed.

End Frames.

Lemma record_touches_only_its_part_witness :
  ∃ manager' p',
    @record sample_shader_interface sample_draw_cache DrawCommandBuf _
      (list ptr) sample_material_services false (op_sub "inner") Root
      ([], Pass_init sample_root) = Some (manager', p')
    ∧ SubPassVector.size (sub_passes_main_ p') = 1
    ∧ manager' = [].
Proof.
  destruct (@record sample_shader_interface sample_draw_cache DrawCommandBuf _
              (list ptr) sample_material_services false (op_sub "inner") Root
              ([], Pass_init sample_root)) as [[manager' p']|] eqn:Hrec;
    [|by vm_compute in Hrec].
  destruct (@record_touches_only_its_part sample_shader_interface
              sample_draw_cache DrawCommandBuf _ _ (list ptr)
              sample_material_services false (op_sub "inner") Root
              [] manager' (Pass_init sample_root) p')
    as (Hn & Hm & _); [apply Pass_init_invariants|done|].
  by exists manager', p'.
Defined.

Lemma references_stay_valid_witness :
  ∃ st' self' added,
    @record_all sample_shader_interface sample_draw_cache DrawCommandBuf _
      (list ptr) sample_material_services false sample_later_calls
      sample_tree_state = Some st'
    ∧ get_pass st'.2 (Sub 0) = Some self'
    ∧ headers_ self'
      = {| command.type := command.StateSet; command.index := 0 |} :: added.
Proof.
  destruct (@record_all sample_shader_interface sample_draw_cache
              DrawCommandBuf _ (list ptr) sample_material_services false
              sample_later_calls sample_tree_state) as [st'|] eqn:Hrec;
    [|by vm_compute in Hrec].
  destruct (@references_stay_valid sample_shader_interface sample_draw_cache
              DrawCommandBuf _ _ (list ptr) sample_material_services false
              sample_later_calls sample_tree_state st' (Sub 0)
              {| headers_ := [{| command.type := command.StateSet;
                                 command.index := 0 |}];
                 commands_ := [command.state_set 1];
                 shader_ := NULL;
                 debug_name := "first" |})
    as (self' & added & Hget & Hheaders).
  - apply (@record_all_spec sample_shader_interface sample_draw_cache
             DrawCommandBuf _ _ (list ptr) sample_material_services false
             [ (Root, op_sub "first"); (Sub 0, op_state_set 1) ]
             ([], Pass_init sample_root) sample_tree_state);
      [apply Pass_init_invariants|reflexivity].
  - exact Hrec.
  - reflexivity.
  - exists st', self', added.
    split; [reflexivity|]. split; [exact Hget|exact Hheaders].
Defined.

(** ** What is recorded is what is executed and printed *)

Section FlatSubmit.
Variable RecordingState : Type.
Variable execute :
  command.Type_ → list command.Undetermined → RecordingState → RecordingState.
Variable GPU_debug_group_begin : string → RecordingState → RecordingState.
Variable GPU_debug_group_end : RecordingState → RecordingState.

Local Abbreviation run :=
  (perform_all RecordingState execute GPU_debug_group_begin GPU_debug_group_end).

(** The loop of [submit] over the headers of commands recorded one after
    the other, from any position of the command stream on. *)
Lemma submit_recorded_headers submit_sub sub_passes
    (before : list command.Undetermined)
    (cmds : list (command.Type_ * command.Undetermined)) (state : RecordingState) :
  Forall (λ cmd, cmd.1 ≠ command.SubPass) cmds →
  vec_size before + vec_size cmds ≤ 2 ^ 32 →
  for_each (submit_header RecordingState execute submit_sub sub_passes
              (before ++ cmds.*2))
    (imap (λ (k : nat) cmd,
             {| command.type := cmd.1;
                command.index := uint (vec_size before + Z.of_nat k) |}) cmds)
    state
  = Some (run (executed_calls (length before) (before ++ cmds.*2) cmds) state).
Proof.
  revert before state. induction cmds as [|[ty cmd] cmds IH];
    intros before state Hty Hfit; [done|].
  apply Forall_cons in Hty as [Hty Hrest]. simpl in Hty.
  unfold executed_calls. rewrite !imap_cons. cbn [for_each concat fst].
  assert (vec_size (before ++ [cmd]) = vec_size before + 1) as Hlen.
  { unfold vec_size. rewrite length_app. simpl. lia. }
  assert (vec_size ((ty, cmd) :: cmds) = vec_size cmds + 1) as Hlen'.
  { unfold vec_size. simpl. lia. }
  assert (0 ≤ vec_size before ∧ 0 ≤ vec_size cmds) as [? ?]
    by (unfold vec_size; lia).
  specialize (IH (before ++ [cmd])).
  rewrite <- app_assoc in IH. cbn [app] in IH. cbn [fmap list_fmap snd].
  assert (∀ state',
    for_each (submit_header RecordingState execute submit_sub sub_passes
                (before ++ cmd :: cmds.*2))
      (imap ((λ (k : nat) c,
                {| command.type := c.1;
                   command.index := uint (vec_size before + Z.of_nat k) |}) ∘ S)
         cmds) state'
    = Some (run (concat
                   (imap ((λ (k : nat) c,
                             if decide (c.1 = command.None_) then []
                             else [call_execute c.1
                                     (drop (length before + k)
                                        (before ++ cmd :: cmds.*2))]) ∘ S)
                      cmds)) state')) as Hrest'.
  { intros state'.
    etrans; [|etrans; [exact (IH state' Hrest ltac:(lia))|]].
    - f_equal. apply imap_ext. intros k c _. simpl. do 2 f_equal. lia.
    - unfold executed_calls. do 3 f_equal. apply imap_ext. intros k c _.
      simpl. rewrite length_app. simpl.
      by replace (length before + 1 + k)%nat with (length before + S k)%nat by lia. }
  rewrite Z.add_0_r, Nat.add_0_r.
  destruct (decide (ty = command.None_)) as [->|Hnone].
  - rewrite submit_header_placeholder by done. cbn [mbind option_bind app].
    apply Hrest'.
  - rewrite submit_header_command by done. cbn [command.index command.type].
    rewrite uint_small by lia.
    rewrite command_ref_lt.
    2:{ unfold vec_size. rewrite length_app. simpl. unfold vec_size in *. lia. }
    cbn [mbind option_bind]. unfold vec_size. rewrite Nat2Z.id.
    rewrite Hrest'. by rewrite perform_all_app.
Qed.

End FlatSubmit.

(** X20. What is recorded is what is executed.  For a pass that holds at
    most 2^32 commands recorded one after the other, none of them a
    sub-pass, [submit] opens the debug group, executes every command that
    is no placeholder exactly once, in recording order and on the slot it
    was recorded to, and closes the group; placeholders are skipped. *)
Theorem submit_executes_recorded_commands (name : string) (shader : ptr)
    (cmds : list (command.Type_ * command.Undetermined))
    (sub_passes : SubPassVector.t PassBase) :
  Forall (λ cmd, cmd.1 ≠ command.SubPass) cmds →
  vec_size cmds ≤ 2 ^ 32 →
  ∀ (RecordingState : Type) execute GPU_debug_group_begin GPU_debug_group_end
    (state : RecordingState) (fuel : nat),
    submit RecordingState execute GPU_debug_group_begin GPU_debug_group_end
      (S fuel) sub_passes (with_commands (PassBase_new name shader) cmds) state
    = Some (perform_all RecordingState execute GPU_debug_group_begin
              GPU_debug_group_end
              (call_group_begin name
               :: executed_calls 0 (cmds.*2) cmds ++ [call_group_end])
              state).
Proof.
  intros Hty Hfit RecordingState execute gbegin gend state fuel.
  cbn [submit with_commands PassBase_new headers_ commands_ debug_name app].
  pose proof (submit_recorded_headers RecordingState execute gbegin gend
                (submit RecordingState execute gbegin gend fuel sub_passes)
                sub_passes [] cmds (gbegin name state) Hty) as Hrun.
  cbn [app length] in Hrun.
  rewrite Hrun by (unfold vec_size in *; simpl; lia). cbn [mbind option_bind].
  by rewrite perform_all_group.
Qed.

Lemma submit_executes_recorded_commands_witness :
  submit (list command.Type_) log_execute (λ _ log, log) (λ log, log) 1
    (SubPassVector.Build [])
    (with_commands (PassBase_new "flat" 4096)
       [ (command.StateSet, command.state_set 1);
         (command.None_, command.storage []);
         (command.Barrier, command.barrier 2) ]) []
  = Some [command.StateSet; command.Barrier].
Proof.
  rewrite (submit_executes_recorded_commands "flat" 4096
             [ (command.StateSet, command.state_set 1);
               (command.None_, command.storage []);
               (command.Barrier, command.barrier 2) ]
             (SubPassVector.Build [])).
  - reflexivity.
  - by repeat constructor.
  - by vm_compute.
Defined.

Section FlatSerialize.
Variable cmd_serialize : command.Type_ → list command.Undetermined → string.
Variable draw_multi_serialize : list command.Undetermined → string → string.

(** The outline of the headers of commands recorded one after the other,
    from any position of the command stream on. *)
Lemma outlines_recorded_headers (sub_passes : SubPassVector.t PassBase)
    (depth : nat) (before : list command.Undetermined)
    (cmds : list (command.Type_ * command.Undetermined))
    (items : list OutlineItem) :
  Forall (λ cmd, cmd.1 ≠ command.SubPass) cmds →
  vec_size before + vec_size cmds ≤ 2 ^ 32 →
  outlines_headers cmd_serialize sub_passes (before ++ cmds.*2) depth
    (imap (λ (k : nat) cmd,
             {| command.type := cmd.1;
                command.index := uint (vec_size before + Z.of_nat k) |}) cmds)
    items →
  items = printed_items cmd_serialize depth (length before) (before ++ cmds.*2)
            cmds.
Proof.
  revert before items. induction cmds as [|[ty cmd] cmds IH];
    intros before items Hty Hfit Hout.
  { by inversion Hout. }
  apply Forall_cons in Hty as [Hty Hrest]. simpl in Hty.
  assert (vec_size (before ++ [cmd]) = vec_size before + 1) as Hlen.
  { unfold vec_size. rewrite length_app. simpl. lia. }
  assert (vec_size ((ty, cmd) :: cmds) = vec_size cmds + 1) as Hlen'.
  { unfold vec_size. simpl. lia. }
  assert (0 ≤ vec_size before ∧ 0 ≤ vec_size cmds) as [? ?]
    by (unfold vec_size; lia).
  specialize (IH (before ++ [cmd])).
  rewrite <- app_assoc in IH. cbn [app] in IH.
  unfold printed_items. rewrite imap_cons in Hout. rewrite imap_cons.
  cbn [fmap list_fmap snd fst concat] in Hout |- *.
  rewrite Z.add_0_r in Hout. rewrite Nat.add_0_r.
  assert (∀ rest,
    outlines_headers cmd_serialize sub_passes (before ++ cmd :: cmds.*2) depth
      (imap ((λ (k : nat) c,
                {| command.type := c.1;
                   command.index := uint (vec_size before + Z.of_nat k) |}) ∘ S)
         cmds) rest →
    rest = concat
             (imap ((λ (k : nat) c,
                       if decide (c.1 = command.None_) then []
                       else if decide (c.1 = command.DrawMulti)
                            then [draw_multi_block depth
                                    (drop (length before + k)
                                       (before ++ cmd :: cmds.*2))]
                            else [text_line depth
                                    (cmd_serialize c.1
                                       (drop (length before + k)
                                          (before ++ cmd :: cmds.*2)))]) ∘ S)
                cmds)) as Hrest'.
  { intros rest Hr. etrans; [apply (IH rest Hrest); [lia|]|].
    - erewrite imap_ext; [exact Hr|]. intros k c _. simpl. do 2 f_equal. lia.
    - unfold printed_items. f_equal. apply imap_ext. intros k c _.
      simpl. rewrite length_app. simpl.
      by replace (length before + 1 + k)%nat with (length before + S k)%nat
        by lia. }
  assert (command_ref (before ++ cmd :: cmds.*2) (uint (vec_size before))
          = Some (drop (length before) (before ++ cmd :: cmds.*2))) as Href.
  { rewrite uint_small by lia. rewrite command_ref_lt.
    - unfold vec_size. by rewrite Nat2Z.id.
    - unfold vec_size in *. rewrite length_app. simpl. lia. }
  inversion Hout
    as [ | ? ? ? ? ? Hnone Hr
         | ? ? ? ? sub_pass inner items0 Hsub _ _ _
         | ? ? ? ? c ? Hmulti Hc Hr
         | ? ? ? ? c ? Hn1 Hn2 Hn3 Hc Hr ]; subst; cbn [command.type] in *.
  - rewrite decide_True by done. cbn [app]. by apply Hrest'.
  - done.
  - rewrite decide_False by congruence. rewrite decide_True by done.
    cbn [command.index] in Hc. rewrite Href in Hc. injection Hc as <-.
    cbn [app]. f_equal. by apply Hrest'.
  - rewrite !decide_False by done.
    cbn [command.index] in Hc. rewrite Href in Hc. injection Hc as <-.
    cbn [app]. f_equal. by apply Hrest'.
Qed.

(** X21. What is recorded is what is printed.  For such a pass
    [serialize] prints the name line and then, one level deeper and in
    recording order, one line per command read from the slot it was
    recorded to, the block of a [DrawMulti] as that command prints it, and
    nothing for a placeholder. *)
Theorem serialize_prints_recorded_commands (name : string) (shader : ptr)
    (cmds : list (command.Type_ * command.Undetermined))
    (sub_passes : SubPassVector.t PassBase) (fuel : nat) (line_prefix : string) :
  Forall (λ cmd, cmd.1 ≠ command.SubPass) cmds →
  vec_size cmds ≤ 2 ^ 32 →
  serialize cmd_serialize draw_multi_serialize (S fuel) sub_passes
    (with_commands (PassBase_new name shader) cmds) line_prefix
  = Some (render_all draw_multi_serialize line_prefix
            (text_line 0 ("." +:+ name)
             :: printed_items cmd_serialize 1 0 (cmds.*2) cmds)).
Proof.
  intros Hty Hfit.
  cbn [serialize with_commands PassBase_new headers_ commands_ debug_name app].
  destruct (serialize_headers_run cmd_serialize draw_multi_serialize 0
              sub_passes (cmds.*2) 1
              (imap (λ (k : nat) cmd,
                       {| command.type := cmd.1;
                          command.index :=
                            uint (vec_size (@nil command.Undetermined)
                                  + Z.of_nat k) |})
                 cmds)) as (body & Houtline & Hrun).
  { intros h Hh Hsub. exfalso. apply elem_of_lookup_imap in Hh
      as (k & cmd & -> & Hk). rewrite Forall_forall in Hty.
    apply (Hty cmd); [by eapply list_elem_of_lookup_2|done]. }
  { intros h Hh _. apply elem_of_lookup_imap in Hh as (k & cmd & -> & Hk).
    apply lookup_lt_Some in Hk. cbn [command.index].
    unfold vec_size in *. simpl. rewrite length_fmap.
    rewrite uint_small by lia. lia. }
  apply (outlines_recorded_headers sub_passes 1 [] cmds body Hty) in Houtline;
    [|unfold vec_size in *; simpl; lia].
  cbn [app length] in Houtline. subst body.
  change (line_prefix +:+ "  ") with (line_prefix +:+ indent 1).
  rewrite Hrun by lia. simpl. by rewrite !append_assoc.
Qed.

End FlatSerialize.

Lemma serialize_prints_recorded_commands_witness :
  serialize sample_cmd_serialize sample_draw_multi_serialize 1
    (SubPassVector.Build [])
    (with_commands (PassBase_new "flat" 4096)
       [ (command.ShaderBind, command.shader_bind 4096);
         (command.None_, command.storage []);
         (command.Draw, command.draw 12288 1 3 0 0) ]) "> "
  = Some ("> .flat" +:+ endl
          +:+ ">   .shader_bind" +:+ endl
          +:+ ">   .draw" +:+ endl).
Proof.
  rewrite (serialize_prints_recorded_commands sample_cmd_serialize
             sample_draw_multi_serialize "flat" 4096
             [ (command.ShaderBind, command.shader_bind 4096);
               (command.None_, command.storage []);
               (command.Draw, command.draw 12288 1 3 0 0) ]
             (SubPassVector.Build []) 0 "> ").
  - reflexivity.
  - by repeat constructor.
  - by vm_compute.
Defined.

(** ** The sortable pass: what the sort reads and orders *)

Section SortableSub.
Context `{ShaderInterface} `{DrawCache} {B : Type} `{DrawCommandBufType B}.

(** X22. [PassSortable::sub] is [PassBase::sub] on the root together with
    one more sorting value: it returns exactly when [sub] does, with the
    same reference and the same tree, and appends the value to
    [sorting_values_] without touching the sorted flag. *)
Theorem PassSortable_sub_is_sub_on_root (name : string) (sorting_value : float)
    (ps ps' : PassSortable B) (r : PassRef) :
  PassSortable_sub name sorting_value ps = Some (ps', r)
  ↔ ∃ p', sub name Root (pass_main ps) = Some (p', r)
          ∧ ps' = {| pass_main := p';
                     sorting_values_ := sorting_values_ ps ++ [sorting_value];
                     sorted_ := sorted_ ps |}.
Proof.
  rewrite PassSortable_sub_eq.
  destruct (sub name Root (pass_main ps)) as [[p1 r1]|];
    cbn [mbind option_bind].
  - split.
    + intros [= <- <-]. by exists p1.
    + by intros (p' & [= <- <-] & ->).
  - split; [done|]. by intros (p' & ? & _).
Qed.

End SortableSub.

(** A loop that checks each element fails when one check does. *)
Lemma for_each_check_fails {A C} (check : A → option C) (l : list A) (x : A) :
  x ∈ l → check x = None →
  for_each (λ a (_ : ()), _ ← check a; Some ()) l () = None.
Proof.
  intros Hx Hcheck. induction l as [|a l IH]; [by apply elem_of_nil in Hx|].
  cbn [for_each]. destruct (check a) as [c|] eqn:Ha; cbn [mbind option_bind];
    [|done].
  apply elem_of_cons in Hx as [->|Hx]; [congruence|by apply IH].
Qed.

Section KeyedSubPass.
Context {B : Type}.
Variable ndebug : bool.
Variable std_sort :
  (command.Header → command.Header → bool) → list command.Header
  → list command.Header.

Local Abbreviation nsubs p := (SubPassVector.size (sub_passes_main_ p)).

(** X23. While there is one sorting value per sub-pass (and fewer than
    2^32 of them), [PassSortable::sub] always returns, the sub-pass it
    creates and the header it appends carry the index under which the
    given value is stored in [sorting_values_], no other sorting value
    moves, and there is again one value per sub-pass. *)
Theorem keyed_sub_pass_value_at_its_index (name : string) (sorting_value : float)
    (ps : PassSortable B) :
  SubPassVector.shaped sub_pass_block_size (sub_passes_main_ (pass_main ps)) →
  vec_size (sorting_values_ ps) = nsubs (pass_main ps) →
  nsubs (pass_main ps) < 2 ^ 32 →
  ∃ ps',
    PassSortable_sub name sorting_value ps
    = Some (ps', Sub (nsubs (pass_main ps)))
    ∧ last (headers_ (base (pass_main ps')))
      = Some {| command.type := command.SubPass;
                command.index := nsubs (pass_main ps) |}
    ∧ vec_at (sorting_values_ ps') (nsubs (pass_main ps)) = Some sorting_value
    ∧ (∀ i, i ≠ nsubs (pass_main ps) →
         vec_at (sorting_values_ ps') i = vec_at (sorting_values_ ps) i)
    ∧ vec_size (sorting_values_ ps') = nsubs (pass_main ps').
Proof.
  intros Hs Hlen Hfit. rewrite PassSortable_sub_eq.
  destruct (sub_root name (pass_main ps) Hs) as (p1 & -> & Hb1 & He1 & _).
  cbn [mbind option_bind]. eexists. split; [reflexivity|].
  cbn [pass_main sorting_values_].
  assert (0 ≤ nsubs (pass_main ps)) as Hnn
    by (unfold SubPassVector.size, vec_size; lia).
  split_and!.
  - rewrite Hb1. cbn [with_sub_header headers_].
    by rewrite last_snoc, uint_small by lia.
  - rewrite vec_at_nonneg by done. rewrite <- Hlen. unfold vec_size.
    rewrite Nat2Z.id. by rewrite lookup_app_r, Nat.sub_diag by lia.
  - intros i Hi. unfold vec_at. case_bool_decide; [done|].
    unfold vec_size in Hlen.
    destruct (decide (Z.to_nat i < length (sorting_values_ ps))%nat).
    + by rewrite lookup_app_l.
    + rewrite lookup_app_r by lia.
      rewrite (lookup_ge_None_2 (sorting_values_ ps)) by lia.
      destruct (Z.to_nat i - _)%nat eqn:Hd; [|done]. lia.
  - unfold SubPassVector.size, vec_size in *. rewrite He1, !length_app.
    simpl. lia.
Qed.

(** X24. The sort reads [sorting_values_] at the index of each sub-pass.
    Once the tree holds more sub-passes than sorting values, as it does
    after a [PassBase::sub] anywhere in it, the next keyed sub-pass gets
    an index that has no sorting value, and [sort] of the two or more
    headers then reads [sorting_values_] past its end. *)
Theorem sort_reads_missing_sorting_value (name : string) (sorting_value : float)
    (ps ps1 : PassSortable B) (r : PassRef) :
  SubPassVector.shaped sub_pass_block_size (sub_passes_main_ (pass_main ps)) →
  sorted_ ps = false →
  headers_ (base (pass_main ps)) ≠ [] →
  vec_size (sorting_values_ ps) < nsubs (pass_main ps) < 2 ^ 32 →
  PassSortable_sub name sorting_value ps = Some (ps1, r) →
  vec_at (sorting_values_ ps1) (nsubs (pass_main ps)) = None
  ∧ PassSortable_sort ndebug std_sort ps1 = None.
Proof.
  intros Hs Hunsorted Hheaders Hvalues. rewrite PassSortable_sub_eq.
  destruct (sub_root name (pass_main ps) Hs) as (p1 & -> & Hb1 & _ & _).
  cbn [mbind option_bind]. intros [= <- <-].
  assert (0 ≤ vec_size (sorting_values_ ps)) as Hnn by (unfold vec_size; lia).
  assert (vec_at (sorting_values_ ps ++ [sorting_value]) (nsubs (pass_main ps))
          = None) as Hread.
  { rewrite vec_at_nonneg by lia. apply lookup_ge_None.
    rewrite length_app. unfold vec_size in *. simpl. lia. }
  split; [done|].
  unfold PassSortable_sort. cbn [sorted_ pass_main sorting_values_].
  rewrite Hunsorted, Hb1. cbn [with_sub_header headers_].
  rewrite bool_decide_eq_false_2.
  2:{ unfold vec_size. rewrite length_app. simpl.
      destruct (headers_ (base (pass_main ps))); [done|]. simpl. lia. }
  rewrite (for_each_check_fails
             (λ h, sort_compare ndebug (sorting_values_ ps ++ [sorting_value]) h h)
             _ {| command.type := command.SubPass;
                  command.index := uint (nsubs (pass_main ps)) |}); [done| |].
  - apply elem_of_app. right. by left.
  - unfold sort_compare. cbn [command.type command.index].
    rewrite uint_small, Hread by lia.
    by destruct (BLI_assert _ _).
Qed.

End KeyedSubPass.

Section KeyedRecording.
Context `{ShaderInterface} `{DrawCache} {B : Type} `{DrawCommandBufType B}.
Context `{!DrawCommandBufLawful B}.
Context {Manager : Type} `{MaterialServices Manager}.
Variable ndebug : bool.

Local Abbreviation nsubs p := (SubPassVector.size (sub_passes_main_ p)).

(** One call of a keyed recording keeps the invariant and every
    sub-pass. *)
Lemma record_sortable_keeps (call : SortableCall)
    (st st' : Manager * PassSortable B) :
  keyed_call call → keyed_invariant st.2 →
  record_sortable ndebug call st = Some st' →
  keyed_invariant st'.2 ∧ nsubs (pass_main st.2) ≤ nsubs (pass_main st'.2).
Proof.
  destruct st as [manager ps]. cbn [snd].
  intros Hcall (Hin & Hd & Hflag & Hroot & Hnan & Hlen).
  destruct call as [name val|index op]; cbn [record_sortable keyed_call] in *.
  - rewrite PassSortable_sub_eq.
    destruct (sub name Root (pass_main ps)) as [[p1 r1]|] eqn:Hsub;
      cbn [mbind option_bind]; [|done].
    intros [= <-]. unfold keyed_invariant.
    cbn [snd pass_main sorting_values_ sorted_].
    destruct (sub_spec name Root r1 (pass_main ps) p1 Hin Hsub)
      as (Hin1 & Hn1 & _ & Hd1).
    pose proof Hin as (Hs & _ & _).
    destruct (sub_root name (pass_main ps) Hs) as (p1' & Hsub' & Hb1 & _ & _).
    rewrite Hsub in Hsub'. injection Hsub' as <- _.
    split; [|lia]. split_and!; try done.
    + intros Hle. apply Hd1; [lia|]. apply Hd. lia.
    + rewrite Hb1. cbn [with_sub_header headers_].
      apply Forall_app. split; [done|]. by constructor.
    + apply Forall_app. split; [done|]. by constructor.
    + rewrite Hn1, <- Hlen. unfold vec_size. rewrite length_app. simpl. lia.
  - destruct (record ndebug op (Sub index) (manager, pass_main ps))
      as [[m1 p1]|] eqn:Hrec; cbn [mbind option_bind]; [|done].
    intros [= <-]. unfold keyed_invariant.
    cbn [snd pass_main sorting_values_ sorted_].
    destruct (record_spec ndebug op (Sub index) (manager, pass_main ps)
                (m1, p1) Hin Hrec) as (Hin1 & Hle1 & Hd1).
    pose proof (record_sub_pass_count ndebug op (Sub index) (manager, pass_main ps)
                  (m1, p1) Hin Hrec) as Hn1.
    destruct (record_appends ndebug op (Sub index) (manager, pass_main ps)
                (m1, p1) Hin Hrec) as [_ Hframe].
    cbn [snd] in *.
    assert (base p1 = base (pass_main ps)) as Hbase.
    { specialize (Hframe Root (base (pass_main ps))). simpl in Hframe.
      by injection (Hframe ltac:(done) eq_refl). }
    assert (nsubs p1 = nsubs (pass_main ps)) as Hn.
    { rewrite Hn1. destruct op; try done; lia. }
    split; [|lia]. split_and!; try done.
    + intros Hle. apply Hd1; [done|]. apply Hd. lia.
    + by rewrite Hbase.
    + by rewrite Hn.
Qed.

(** [PassSortable::init] establishes the invariant of a keyed
    recording. *)
Lemma PassSortable_init_keyed (ps0 : PassSortable B) :
  keyed_invariant (PassSortable_init ps0).
Proof.
  destruct (Pass_init_invariants (pass_main ps0)) as (Hin0 & Hd0 & Hn0).
  split_and!; try done; by constructor.
Qed.

(** A keyed recording keeps it. *)
Lemma record_sortable_all_keeps (calls : list SortableCall)
    (st st' : Manager * PassSortable B) :
  Forall keyed_call calls → keyed_invariant st.2 →
  record_sortable_all ndebug calls st = Some st' →
  keyed_invariant st'.2.
Proof.
  intros Hcalls. revert st. unfold record_sortable_all.
  induction Hcalls as [|call calls Hcall _ IH]; intros st Hinv; cbn [for_each].
  - by intros [= <-].
  - destruct (record_sortable ndebug call st) as [st1|] eqn:Hstep;
      cbn [mbind option_bind]; [|done].
    apply IH.
    by destruct (record_sortable_keeps call st st1 Hcall Hinv Hstep).
Qed.

(** Under the invariant every root header has a sorting value of its
    own. *)
Lemma keyed_invariant_sort_keys (ps : PassSortable B) :
  keyed_invariant ps →
  Forall (has_sort_key (sorting_values_ ps)) (headers_ (base (pass_main ps))).
Proof.
  intros (Hin & _ & _ & Hroot & Hnan & Hlen).
  destruct Hin as (_ & Hb & _). unfold pass_in_bounds in Hb.
  rewrite Forall_forall in Hb. rewrite Forall_forall in Hroot.
  rewrite Forall_forall in Hnan. rewrite Forall_forall. intros h Hh.
  split; [by apply Hroot|].
  specialize (Hb h Hh). unfold header_in_bounds in Hb.
  rewrite decide_True in Hb by by apply Hroot.
  destruct (vec_at_lt (sorting_values_ ps) (command.index h)) as [val Hval];
    [lia|].
  exists val. split; [done|]. apply Hnan.
  rewrite vec_at_nonneg in Hval by lia. by eapply list_elem_of_lookup_2.
Qed.


(** X25. A keyed recording gives the sort what it needs.  After [init],
    whatever keyed sub-passes are added (no sorting value a NaN) and
    whatever calls other than [PassBase::sub] are recorded into the
    sub-passes, with at most 2^32 sub-passes: the tree is within bounds,
    the root holds sub-pass headers only, each with a sorting value of its
    own that is not a NaN, there is one sorting value per sub-pass, and
    the pass is not sorted yet. *)
Theorem keyed_recording_keeps_sort_keys (calls : list SortableCall)
    (manager : Manager) (ps0 : PassSortable B) (st : Manager * PassSortable B) :
  Forall keyed_call calls →
  record_sortable_all ndebug calls (manager, PassSortable_init ps0) = Some st →
  nsubs (pass_main st.2) ≤ 2 ^ 32 →
  tree_in_bounds (pass_main st.2)
  ∧ tree_descends (pass_main st.2)
  ∧ sorted_ st.2 = false
  ∧ Forall (has_sort_key (sorting_values_ st.2))
      (headers_ (base (pass_main st.2)))
  ∧ vec_size (sorting_values_ st.2) = nsubs (pass_main st.2).
Proof.
  intros Hcalls Hrec Hfit.
  pose proof (record_sortable_all_keeps calls (manager, PassSortable_init ps0)
                st Hcalls (PassSortable_init_keyed ps0) Hrec) as Hinv.
  pose proof (keyed_invariant_sort_keys st.2 Hinv) as Hkeyed.
  destruct Hinv as (Hin & Hd & Hflag & _ & _ & Hlen).
  split_and!; [done|by apply Hd|done|done|done].
Qed.

End KeyedRecording.

(** The calls of a list of sub-pass headers are those of the sub-passes,
    one after the other. *)
Lemma visits_headers_sub_passes (sub_passes : SubPassVector.t PassBase)
    (commands : list command.Undetermined) (headers : list command.Header)
    (calls : list DeviceCall) :
  Forall (λ h, command.type h = command.SubPass) headers →
  visits_headers sub_passes commands headers calls →
  ∃ inners,
    Forall2 (λ h inner,
               ∃ sub_pass,
                 SubPassVector.at_ sub_pass_block_size sub_passes
                   (command.index h) = Some sub_pass
                 ∧ visits sub_passes sub_pass inner)
      headers inners
    ∧ calls = concat inners.
Proof.
  intros Hty. revert calls.
  induction Hty as [|h rest Hh _ IH]; intros calls Hv.
  - inversion Hv; subst. by exists [].
  - inversion Hv
      as [ | ? ? ? ? Hnone _
           | ? ? ? sub_pass inner calls0 _ Hat Hinner Hrest
           | ? ? ? ? ? _ Hnot _ _ ]; subst; try congruence.
    destruct (IH _ Hrest) as (inners & Hall & ->).
    exists (inner :: inners). split; [|done].
    constructor; [|done]. by exists sub_pass.
Qed.

(** The items of a list of sub-pass headers are the outlines of the
    sub-passes, one after the other. *)
Lemma outlines_headers_sub_passes cmd_serialize
    (sub_passes : SubPassVector.t PassBase)
    (commands : list command.Undetermined) (depth : nat)
    (headers : list command.Header) (items : list OutlineItem) :
  Forall (λ h, command.type h = command.SubPass) headers →
  outlines_headers cmd_serialize sub_passes commands depth headers items →
  ∃ blocks,
    Forall2 (λ h block,
               ∃ sub_pass,
                 SubPassVector.at_ sub_pass_block_size sub_passes
                   (command.index h) = Some sub_pass
                 ∧ outlines cmd_serialize sub_passes depth sub_pass block)
      headers blocks
    ∧ items = concat blocks.
Proof.
  intros Hty. revert items.
  induction Hty as [|h rest Hh _ IH]; intros items Hv.
  - inversion Hv; subst. by exists [].
  - inversion Hv
      as [ | ? ? ? ? ? Hnone _
           | ? ? ? ? sub_pass inner items0 _ Hat Hinner Hrest
           | ? ? ? ? ? ? Hmulti _ _
           | ? ? ? ? ? ? _ Hnot _ _ _ ]; subst; try congruence.
    destruct (IH _ Hrest) as (blocks & Hall & ->).
    exists (inner :: blocks). split; [|done].
    constructor; [|done]. by exists sub_pass.
Qed.

Section SortedPass.
Context {B : Type}.
Variable ndebug : bool.
Variable std_sort :
  (command.Header → command.Header → bool) → list command.Header
  → list command.Header.

Local Abbreviation nsubs p := (SubPassVector.size (sub_passes_main_ p)).

(** The sort of a pass whose root headers all have a sorting value. *)
Lemma PassSortable_sort_keyed (ps : PassSortable B) :
  std_sort_contract std_sort →
  tree_in_bounds (pass_main ps) →
  sorted_ ps = false →
  Forall (has_sort_key (sorting_values_ ps)) (headers_ (base (pass_main ps))) →
  ∃ sorted,
    PassSortable_sort ndebug std_sort ps = Some (with_sorted_headers ps sorted)
    ∧ sorted ≡ₚ headers_ (base (pass_main ps))
    ∧ StronglySorted (in_sort_order (sorting_values_ ps)) sorted
    ∧ Forall (λ h, command.type h = command.SubPass) sorted
    ∧ tree_in_bounds (pass_main (with_sorted_headers ps sorted))
    ∧ pass_descends (-1) (base (pass_main (with_sorted_headers ps sorted))).
Proof.
  intros Hcontract Hin Hunsorted Hkeyed.
  destruct (Hcontract (sort_less ndebug (sorting_values_ ps))
              (headers_ (base (pass_main ps)))) as [Hperm Hsorted].
  { by apply sort_less_strict_weak_ordering. }
  exists (std_sort (sort_less ndebug (sorting_values_ ps))
            (headers_ (base (pass_main ps)))).
  set (sorted := std_sort _ _) in *.
  assert (Forall (has_sort_key (sorting_values_ ps)) sorted) as Hkeyed'
    by by rewrite Hperm.
  pose proof Hin as (Hs & Hb & Hsubs).
  split_and!.
  - unfold PassSortable_sort. rewrite Hunsorted.
    rewrite sort_check by done. by case_bool_decide.
  - done.
  - eapply StronglySorted_impl_elem_of; [|exact Hsorted].
    rewrite Forall_forall in Hkeyed'. intros a b Ha Hb' Hless.
    apply (in_sort_order_of_less ndebug); by auto.
  - eapply Forall_impl; [exact Hkeyed'|]. by intros h [? _].
  - split_and!; [done| |done]. unfold pass_in_bounds in *. simpl.
    by rewrite Hperm.
  - unfold pass_descends. simpl. eapply Forall_impl; [exact Hkeyed'|].
    simpl. intros h (_ & val & Hval & _) _.
    apply mk_is_Some, vec_at_is_Some in Hval. lia.
Qed.

(** X26. Submission after the sort runs the sub-passes in key order.  For
    a tree within bounds whose root headers all have a sorting value that
    is not a NaN, and a [std::sort] that keeps its contract: [sort]
    returns, keeps the sub-passes and rearranges the root headers into
    non-decreasing sorting value; [submit] then returns and performs the
    debug group of the root around the calls of the sub-passes, one
    sub-pass after the other in that order. *)
Theorem submit_after_sort_in_key_order (ps : PassSortable B) :
  std_sort_contract std_sort →
  tree_in_bounds (pass_main ps) → tree_descends (pass_main ps) →
  sorted_ ps = false →
  Forall (has_sort_key (sorting_values_ ps)) (headers_ (base (pass_main ps))) →
  ∃ ps' inners,
    PassSortable_sort ndebug std_sort ps = Some ps'
    ∧ sub_passes_main_ (pass_main ps') = sub_passes_main_ (pass_main ps)
    ∧ headers_ (base (pass_main ps')) ≡ₚ headers_ (base (pass_main ps))
    ∧ StronglySorted (in_sort_order (sorting_values_ ps))
        (headers_ (base (pass_main ps')))
    ∧ Forall2 (λ h inner,
                 ∃ sub_pass,
                   SubPassVector.at_ sub_pass_block_size
                     (sub_passes_main_ (pass_main ps)) (command.index h)
                   = Some sub_pass
                   ∧ visits (sub_passes_main_ (pass_main ps)) sub_pass inner)
        (headers_ (base (pass_main ps'))) inners
    ∧ ∀ (RecordingState : Type) execute GPU_debug_group_begin
        GPU_debug_group_end (state : RecordingState) (fuel : nat),
        (Z.to_nat (nsubs (pass_main ps)) < fuel)%nat →
        submit RecordingState execute GPU_debug_group_begin
          GPU_debug_group_end fuel (sub_passes_main_ (pass_main ps'))
          (base (pass_main ps')) state
        = Some (perform_all RecordingState execute GPU_debug_group_begin
                  GPU_debug_group_end
                  (call_group_begin (debug_name (base (pass_main ps)))
                   :: concat inners ++ [call_group_end])
                  state).
Proof.
  intros Hcontract Hin Hd Hunsorted Hkeyed.
  destruct (PassSortable_sort_keyed ps Hcontract Hin Hunsorted Hkeyed)
    as (sorted & Hsort & Hperm & Hsorted & Hty & Hin' & Hroot).
  set (ps' := with_sorted_headers ps sorted) in *.
  assert (0 ≤ nsubs (pass_main ps)) as Hnn
    by (unfold SubPassVector.size, vec_size; lia).
  assert (∀ (RecordingState : Type) execute gbegin gend,
    ∃ order,
      visits (sub_passes_main_ (pass_main ps')) (base (pass_main ps')) order
      ∧ ∀ fuel (state : RecordingState),
          (Z.to_nat (nsubs (pass_main ps)) < fuel)%nat →
          submit RecordingState execute gbegin gend fuel
            (sub_passes_main_ (pass_main ps')) (base (pass_main ps')) state
          = Some (perform_all RecordingState execute gbegin gend order state))
    as Hrun.
  { intros RecordingState execute gbegin gend.
    apply (submit_run RecordingState execute gbegin gend (pass_main ps')
             (Z.to_nat (nsubs (pass_main ps))) Hin' Hd (base (pass_main ps'))
             (-1)); [by destruct Hin' as (_ & ? & _)|done|lia|simpl; lia]. }
  destruct (Hrun unit (λ _ _ s, s) (λ _ s, s) (λ s, s)) as (order & Hvisit & _).
  inversion Hvisit as [self body Hbody]; subst.
  destruct (visits_headers_sub_passes _ _ _ _ Hty Hbody)
    as (inners & Hall & ->).
  exists ps', inners. split_and!; try done.
  intros RecordingState execute gbegin gend state fuel Hfuel.
  destruct (Hrun RecordingState execute gbegin gend)
    as (order' & Hvisit' & Hsubmit).
  rewrite Hsubmit by done.
  by rewrite (visits_deterministic _ _ _ _ Hvisit' Hvisit).
Qed.

Variable cmd_serialize : command.Type_ → list command.Undetermined → string.
Variable draw_multi_serialize : list command.Undetermined → string → string.

(** X27. [PassSortable::serialize] prints the sub-passes in key order.
    Under the same conditions, on a pass not sorted yet it returns the
    sorted pass and the text of the name line of the root followed by the
    outlines of the sub-passes, one level deeper, in non-decreasing
    sorting value. *)
Theorem PassSortable_serialize_in_key_order (ps : PassSortable B) :
  std_sort_contract std_sort →
  tree_in_bounds (pass_main ps) → tree_descends (pass_main ps) →
  sorted_ ps = false →
  Forall (has_sort_key (sorting_values_ ps)) (headers_ (base (pass_main ps))) →
  ∃ ps' blocks,
    headers_ (base (pass_main ps')) ≡ₚ headers_ (base (pass_main ps))
    ∧ StronglySorted (in_sort_order (sorting_values_ ps))
        (headers_ (base (pass_main ps')))
    ∧ Forall2 (λ h block,
                 ∃ sub_pass,
                   SubPassVector.at_ sub_pass_block_size
                     (sub_passes_main_ (pass_main ps)) (command.index h)
                   = Some sub_pass
                   ∧ outlines cmd_serialize (sub_passes_main_ (pass_main ps))
                       1 sub_pass block)
        (headers_ (base (pass_main ps'))) blocks
    ∧ ∀ (fuel : nat) (line_prefix : string),
        (Z.to_nat (nsubs (pass_main ps)) < fuel)%nat →
        PassSortable_serialize ndebug std_sort cmd_serialize
          draw_multi_serialize fuel ps line_prefix
        = Some (ps',
                render_all draw_multi_serialize line_prefix
                  (text_line 0 ("." +:+ debug_name (base (pass_main ps)))
                   :: concat blocks)).
Proof.
  intros Hcontract Hin Hd Hunsorted Hkeyed.
  destruct (PassSortable_sort_keyed ps Hcontract Hin Hunsorted Hkeyed)
    as (sorted & Hsort & Hperm & Hsorted & Hty & Hin' & Hroot).
  set (ps' := with_sorted_headers ps sorted) in *.
  assert (0 ≤ nsubs (pass_main ps)) as Hnn
    by (unfold SubPassVector.size, vec_size; lia).
  destruct (serialize_run cmd_serialize draw_multi_serialize (pass_main ps')
              (Z.to_nat (nsubs (pass_main ps))) Hin' Hd (base (pass_main ps'))
              (-1) 0) as (items & Houtline & Hrun);
    [by destruct Hin' as (_ & ? & _)|done|lia|simpl; lia|].
  inversion Houtline as [depth self body Hbody]; subst.
  destruct (outlines_headers_sub_passes _ _ _ _ _ _ Hty Hbody)
    as (blocks & Hall & ->).
  exists ps', blocks. split_and!; try done.
  intros fuel line_prefix Hfuel. unfold PassSortable_serialize.
  rewrite Hunsorted, Hsort. cbn [mbind option_bind].
  specialize (Hrun fuel line_prefix Hfuel).
  cbn [indent] in Hrun. rewrite append_empty_r in Hrun.
  by rewrite Hrun.
Qed.

End SortedPass.

(** The sample pass is within bounds and every root header has its
    sorting value. *)
Lemma sample_keyed_pass_invariants :
  tree_in_bounds (pass_main sample_keyed_pass)
  ∧ tree_descends (pass_main sample_keyed_pass)
  ∧ Forall (has_sort_key (sorting_values_ sample_keyed_pass))
      (headers_ (base (pass_main sample_keyed_pass))).
Proof.
  split_and!.
  - split_and!.
    + right. eexists [], _. split; [reflexivity|]. split; [constructor|].
      by vm_compute.
    + repeat constructor; by vm_compute.
    + repeat constructor.
  - intros [|[|[|i]]] self; vm_compute; intros [= <-]; constructor.
  - repeat constructor; try (eexists; split; [reflexivity|done]).
Qed.

Lemma keyed_sub_pass_value_at_its_index_witness :
  ∃ ps',
    PassSortable_sub "next" float_one sample_keyed_pass = Some (ps', Sub 3)
    ∧ vec_at (sorting_values_ ps') 3 = Some float_one.
Proof.
  destruct (keyed_sub_pass_value_at_its_index "next" float_one sample_keyed_pass)
    as (ps' & Hsub & _ & Hval & _).
  - apply sample_keyed_pass_invariants.
  - reflexivity.
  - by vm_compute.
  - by exists ps'.
Defined.

Lemma sort_reads_missing_sorting_value_witness :
  ∃ ps1 r,
    PassSortable_sub "b" float_one sample_nested_pass = Some (ps1, r)
    ∧ PassSortable_sort false insertion_sort ps1 = None.
Proof.
  destruct (PassSortable_sub "b" float_one sample_nested_pass)
    as [[ps1 r]|] eqn:Hsub; [|by vm_compute in Hsub].
  exists ps1, r. split; [done|].
  apply (sort_reads_missing_sorting_value false insertion_sort "b" float_one
           sample_nested_pass ps1 r).
  - right. eexists [], _. split; [reflexivity|]. split; [constructor|].
    by vm_compute.
  - reflexivity.
  - done.
  - by vm_compute.
  - done.
Defined.

Lemma keyed_recording_keeps_sort_keys_witness :
  ∃ st,
    @record_sortable_all sample_shader_interface sample_draw_cache
      DrawCommandBuf _ (list ptr) sample_material_services false
      sample_keyed_calls ([], PassSortable_init sample_sortable) = Some st
    ∧ Forall (has_sort_key (sorting_values_ st.2))
        (headers_ (base (pass_main st.2))).
Proof.
  destruct (@record_sortable_all sample_shader_interface sample_draw_cache
              DrawCommandBuf _ (list ptr) sample_material_services false
              sample_keyed_calls ([], PassSortable_init sample_sortable))
    as [st|] eqn:Hrec; [|by vm_compute in Hrec].
  exists st. split; [done|].
  apply (@keyed_recording_keeps_sort_keys sample_shader_interface
           sample_draw_cache DrawCommandBuf _ _ (list ptr)
           sample_material_services false sample_keyed_calls []
           sample_sortable st).
  - by repeat constructor.
  - exact Hrec.
  - vm_compute in Hrec. injection Hrec as <-. by vm_compute.
Defined.

Lemma submit_after_sort_in_key_order_witness :
  ∃ ps',
    PassSortable_sort false insertion_sort sample_keyed_pass = Some ps'
    ∧ StronglySorted (in_sort_order (sorting_values_ sample_keyed_pass))
        (headers_ (base (pass_main ps'))).
Proof.
  destruct sample_keyed_pass_invariants as (Hin & Hd & Hkeyed).
  destruct (submit_after_sort_in_key_order false insertion_sort
              sample_keyed_pass insertion_sort_contract Hin Hd eq_refl Hkeyed)
    as (ps' & inners & Hsort & _ & _ & Hsorted & _).
  by exists ps'.
Defined.

Lemma PassSortable_serialize_in_key_order_witness :
  ∃ ps' text,
    PassSortable_serialize false insertion_sort sample_cmd_serialize
      sample_draw_multi_serialize 4 sample_keyed_pass "" = Some (ps', text)
    ∧ StronglySorted (in_sort_order (sorting_values_ sample_keyed_pass))
        (headers_ (base (pass_main ps'))).
Proof.
  destruct sample_keyed_pass_invariants as (Hin & Hd & Hkeyed).
  destruct (PassSortable_serialize_in_key_order false insertion_sort
              sample_cmd_serialize sample_draw_multi_serialize
              sample_keyed_pass insertion_sort_contract Hin Hd eq_refl Hkeyed)
    as (ps' & blocks & _ & Hsorted & _ & Hrun).
  exists ps'. eexists. split; [|done]. apply Hrun. by vm_compute.
Defined.

(** ** The read of a sortable pass *)




Section KeyedRead.
Context {B : Type}.
Variable ndebug : bool.
Variable cmd_serialize : command.Type_ → list command.Undetermined → string.
Variable draw_multi_serialize : list command.Undetermined → string → string.

Local Abbreviation nsubs p := (SubPassVector.size (sub_passes_main_ p)).


End KeyedRead.




